(** * io-event selectors: the epoll and kqueue backends

    A shallow embedding of [ext/io/event/selector/epoll.c] and
    [ext/io/event/selector/kqueue.c]: the per-descriptor waiter lists, the
    wait primitives, the dispatch of fired events, [select] and the
    buffered read/write loops.

    Fibers are coroutines: a wait primitive runs up to its transfer into the
    event loop, is suspended there, and later continues from the transfer.
    The embedding gives every such function in two parts, the part before the
    transfer and the part after it, and threads one [World] through both. *)

From Stdlib Require Import ZArith Lia Floats Uint63.
From stdpp Require Import base decidable numbers sets relations list.

#[local] Set Warnings "-clear-no-such-hyp".
Local Open Scope Z_scope.

(** * Addresses and the intrusive list *)

(** The objects that carry a [struct IO_Event_List]: the list head embedded
    in a descriptor record, the [waiting] record in the stack frame of a
    suspended wait primitive, and the local [saved] of the handler. *)
Inductive addr : Type :=
| NULL
| Slot (descriptor : Z)
| Wait (frame : nat)
| Saved.

#[global] Instance addr_eq_dec : EqDecision addr.
Proof. solve_decision. Defined.

(** [struct IO_Event_List { struct IO_Event_List *head, *tail; }] *)
Record IO_Event_List : Type := { head : addr; tail : addr }.

Definition Memory : Type := addr -> IO_Event_List.

Definition set_head (a v : addr) (m : Memory) : Memory :=
  fun b => if decide (b = a) then {| head := v; tail := tail (m b) |} else m b.

Definition set_tail (a v : addr) (m : Memory) : Memory :=
  fun b => if decide (b = a) then {| head := head (m b); tail := v |} else m b.

(** Modelled from the spec: [list.h] is not among the sources.  The spec
    (section 2, component A) gives a circular doubly-linked list node type,
    used both as list head and as entry, with "prepend, append-adjacent,
    remove".  The four operations below are the pointer updates of such a
    ring: [prepend] links [node] next to [list] on its [tail] side, [append]
    links it next to [list] on its [head] side, [pop] takes [node] out and
    clears its two links. *)
Definition IO_Event_List_initialize (list : addr) (m : Memory) : Memory :=
  set_tail list list (set_head list list m).

Definition IO_Event_List_prepend (list node : addr) (m : Memory) : Memory :=
  let tail_ := tail (m list) in
  let m := set_head node list m in
  let m := set_tail node tail_ m in
  let m := set_tail list node m in
  set_head tail_ node m.

Definition IO_Event_List_append (list node : addr) (m : Memory) : Memory :=
  let head_ := head (m list) in
  let m := set_tail node list m in
  let m := set_head node head_ m in
  let m := set_head list node m in
  set_tail head_ node m.

Definition IO_Event_List_pop (node : addr) (m : Memory) : Memory :=
  let head_ := head (m node) in
  let tail_ := tail (m node) in
  let m := set_tail head_ tail_ m in
  let m := set_head tail_ head_ m in
  let m := set_head node NULL m in
  set_tail node NULL m.

(** ** Rings

    [chain m a xs b]: following [tail] from [a] one meets [xs] in order and
    then [b], and [head] leads back.  A ring is a chain from the list head
    to itself. *)
Fixpoint chain (m : Memory) (a : addr) (xs : list addr) (b : addr) : Prop :=
  match xs with
  | [] => tail (m a) = b ∧ head (m b) = a
  | x :: xs' => tail (m a) = x ∧ head (m x) = a ∧ chain m x xs' b
  end.

Definition ring (m : Memory) (l : addr) (xs : list addr) : Prop :=
  NoDup (l :: xs) ∧ chain m l xs l.

(** Membership and disequality side conditions; the chain facts play no
    part in them. *)
Ltac mem :=
  repeat match goal with H : context [chain] |- _ => clear H end;
  repeat case_decide;
  first
    [ done | congruence
    | repeat match goal with
             | H : NoDup (_ :: _) |- _ => apply NoDup_cons in H as [? ?]
             | H : NoDup (_ ++ _) |- _ => apply NoDup_app in H as (? & ? & ?)
             end;
      set_unfold; intuition (subst; congruence) ].

Section list_lemmas.
Implicit Types (m : Memory) (a b x : addr) (xs ys : list addr).

Lemma head_set_head a v m b :
  head (set_head a v m b) = if decide (b = a) then v else head (m b).
Proof. unfold set_head. by case_decide. Qed.

Lemma tail_set_head a v m b : tail (set_head a v m b) = tail (m b).
Proof. unfold set_head. by case_decide. Qed.

Lemma head_set_tail a v m b : head (set_tail a v m b) = head (m b).
Proof. unfold set_tail. by case_decide. Qed.

Lemma tail_set_tail a v m b :
  tail (set_tail a v m b) = if decide (b = a) then v else tail (m b).
Proof. unfold set_tail. by case_decide. Qed.

Lemma pop_tail x m b :
  tail (IO_Event_List_pop x m b) =
  if decide (b = x) then NULL
  else if decide (b = head (m x)) then tail (m x) else tail (m b).
Proof.
  unfold IO_Event_List_pop.
  rewrite tail_set_tail, tail_set_head, tail_set_head, tail_set_tail.
  done.
Qed.

Lemma pop_head x m b :
  head (IO_Event_List_pop x m b) =
  if decide (b = x) then NULL
  else if decide (b = tail (m x)) then head (m x) else head (m b).
Proof.
  unfold IO_Event_List_pop.
  rewrite head_set_tail, head_set_head, head_set_head, head_set_tail.
  done.
Qed.

Lemma prepend_tail l n m b :
  tail (IO_Event_List_prepend l n m b) =
  if decide (b = l) then n
  else if decide (b = n) then tail (m l) else tail (m b).
Proof.
  unfold IO_Event_List_prepend.
  rewrite tail_set_head, tail_set_tail, tail_set_tail, tail_set_head.
  done.
Qed.

Lemma prepend_head l n m b :
  head (IO_Event_List_prepend l n m b) =
  if decide (b = tail (m l)) then n
  else if decide (b = n) then l else head (m b).
Proof.
  unfold IO_Event_List_prepend.
  rewrite head_set_head, head_set_tail, head_set_tail, head_set_head.
  done.
Qed.

Lemma append_tail l n m b :
  tail (IO_Event_List_append l n m b) =
  if decide (b = head (m l)) then n
  else if decide (b = n) then l else tail (m b).
Proof.
  unfold IO_Event_List_append.
  rewrite tail_set_tail, tail_set_head, tail_set_head, tail_set_tail.
  done.
Qed.

Lemma append_head l n m b :
  head (IO_Event_List_append l n m b) =
  if decide (b = l) then n
  else if decide (b = n) then head (m l) else head (m b).
Proof.
  unfold IO_Event_List_append.
  rewrite head_set_tail, head_set_head, head_set_head, head_set_tail.
  done.
Qed.

Lemma chain_app m a xs y ys b :
  chain m a (xs ++ y :: ys) b ↔ chain m a xs y ∧ chain m y ys b.
Proof.
  revert a. induction xs as [|x xs IH]; intros a; simpl.
  - tauto.
  - rewrite IH. tauto.
Qed.

(** A chain only reads the [tail] of its source and entries and the
    [head] of its entries and target. *)
Lemma chain_frame m m' a xs b :
  (∀ y, y ∈ a :: xs → tail (m' y) = tail (m y)) →
  (∀ y, y ∈ xs ++ [b] → head (m' y) = head (m y)) →
  chain m a xs b → chain m' a xs b.
Proof.
  revert a. induction xs as [|x xs IH]; intros a Ht Hh; simpl.
  - intros [H1 H2]. rewrite Ht, Hh by set_solver. done.
  - intros (H1 & H2 & Hc). rewrite Ht, Hh by set_solver. split_and!; [done..|].
    apply IH; [| |done].
    + intros y Hy. apply Ht. set_solver.
    + intros y Hy. apply Hh. set_solver.
Qed.

Lemma chain_head_in m a xs x ys b :
  chain m a (xs ++ x :: ys) b → head (m x) ∈ a :: xs.
Proof.
  revert a. induction xs as [|z xs IH]; intros a; simpl.
  - intros (_ & -> & _). set_solver.
  - intros (_ & _ & Hc). specialize (IH _ Hc). set_solver.
Qed.

Lemma chain_tail_in m a xs x ys b :
  chain m a (xs ++ x :: ys) b → tail (m x) ∈ ys ++ [b].
Proof.
  rewrite chain_app. intros [_ Hc]. destruct ys as [|y ys]; simpl in *.
  - destruct Hc as [-> _]. set_solver.
  - destruct Hc as (-> & _). set_solver.
Qed.

(** The successor of an entry: the next entry, or the target. *)
Lemma chain_tail_next m a xs x ys b :
  chain m a (xs ++ x :: ys) b → tail (m x) = hd b ys.
Proof.
  rewrite chain_app. intros [_ Hc]. destruct ys as [|y ys]; simpl in *.
  - by destruct Hc.
  - by destruct Hc.
Qed.

Lemma chain_head_not_NULL m a xs x ys b :
  NULL ∉ a :: xs → chain m a (xs ++ x :: ys) b → head (m x) ≠ NULL.
Proof.
  intros Hn Hc Heq. apply chain_head_in in Hc. rewrite Heq in Hc. done.
Qed.

(** Taking an entry out of a chain. *)
Lemma chain_pop m a xs x ys b :
  NoDup (a :: xs ++ x :: ys) → b ∉ xs ++ x :: ys →
  chain m a (xs ++ x :: ys) b →
  chain (IO_Event_List_pop x m) a (xs ++ ys) b.
Proof.
  revert a. induction xs as [|z xs IH]; intros a Hnd Hb Hc.
  - simpl in *. destruct Hc as (Ha & Hx & Hc).
    apply NoDup_cons in Hnd as [Hax Hnd]. apply NoDup_cons in Hnd as [Hxy Hnd].
    destruct ys as [|y ys]; simpl in *.
    + destruct Hc as [Hxb Hbx]. rewrite pop_tail, pop_head, Hx, Hxb.
      mem.
    + destruct Hc as (Hxy' & Hyx & Hc). rewrite pop_tail, pop_head, Hx, Hxy'.
      apply NoDup_cons in Hnd as [Hyy Hnd].
      split_and!; [mem..|].
      apply chain_frame with m; [| |done].
      * intros u Hu. rewrite pop_tail, Hx, Hxy'. mem.
      * intros u Hu. rewrite pop_head, Hx, Hxy'. mem.
  - simpl in Hc. destruct Hc as (Ha & Hz & Hc).
    pose proof (chain_head_in _ _ _ _ _ _ Hc) as Hp.
    pose proof (chain_tail_in _ _ _ _ _ _ Hc) as Hs.
    simpl in Hnd. apply NoDup_cons in Hnd as [Haz Hnd].
    assert (b ∉ xs ++ x :: ys) as Hb' by mem.
    specialize (IH z Hnd Hb' Hc).
    simpl. rewrite pop_tail, pop_head. split_and!; [| |done].
    + mem.
    + apply NoDup_cons in Hnd as [Hzz Hnd]. mem.
Qed.

Lemma pop_cleared m x :
  head (IO_Event_List_pop x m x) = NULL ∧ tail (IO_Event_List_pop x m x) = NULL.
Proof. rewrite pop_head, pop_tail. by rewrite !decide_True. Qed.

(** Linking [n] in front of [x], as [IO_Event_List_append x n] does. *)
Lemma chain_append m a xs x ys b n :
  NoDup (a :: xs ++ x :: ys) → b ∉ xs ++ x :: ys →
  n ∉ a :: b :: xs ++ x :: ys →
  chain m a (xs ++ x :: ys) b →
  chain (IO_Event_List_append x n m) a (xs ++ n :: x :: ys) b.
Proof.
  revert a. induction xs as [|z xs IH]; intros a Hnd Hb Hn Hc.
  - simpl in *. destruct Hc as (Ha & Hx & Hc).
    apply NoDup_cons in Hnd as [Hax Hnd]. apply NoDup_cons in Hnd as [Hxy Hnd].
    rewrite !append_tail, !append_head, Hx.
    split_and!; [mem..|].
    apply chain_frame with m; [| |done].
    + intros u Hu. rewrite append_tail, Hx. mem.
    + intros u Hu. rewrite append_head, Hx. mem.
  - simpl in Hc. destruct Hc as (Ha & Hz & Hc).
    pose proof (chain_head_in _ _ _ _ _ _ Hc) as Hp.
    simpl in Hnd. apply NoDup_cons in Hnd as [Haz Hnd].
    assert (b ∉ xs ++ x :: ys) as Hb' by mem.
    assert (n ∉ z :: b :: xs ++ x :: ys) as Hn' by mem.
    specialize (IH z Hnd Hb' Hn' Hc).
    simpl. rewrite append_tail, append_head. split_and!; [| |done].
    + mem.
    + apply NoDup_cons in Hnd as [Hzz Hnd]. mem.
Qed.

(** Linking [n] behind the list head, as [IO_Event_List_prepend l n] does. *)
Lemma ring_prepend m l xs n :
  n ∉ l :: xs → ring m l xs → ring (IO_Event_List_prepend l n m) l (n :: xs).
Proof.
  intros Hn [Hnd Hc]. split.
  - apply NoDup_cons in Hnd as [Hl Hnd].
    apply NoDup_cons. split; [set_solver|]. apply NoDup_cons. set_solver.
  - apply NoDup_cons in Hnd as [Hl Hnd]. destruct xs as [|x xs]; simpl in *.
    + destruct Hc as [Ht Hh]. rewrite !prepend_tail, !prepend_head, Ht.
      split_and!; mem.
    + destruct Hc as (Ht & Hh & Hc). rewrite !prepend_tail, !prepend_head, Ht.
      apply NoDup_cons in Hnd as [Hx Hnd].
      split_and!; [mem..|].
      apply chain_frame with m; [| |done].
      * intros u Hu. rewrite prepend_tail. mem.
      * intros u Hu. rewrite prepend_head, Ht. mem.
Qed.

Lemma ring_pop m l xs x ys :
  ring m l (xs ++ x :: ys) → ring (IO_Event_List_pop x m) l (xs ++ ys).
Proof.
  intros [Hnd Hc]. split.
  - rewrite app_comm_cons in Hnd |- *. apply NoDup_app in Hnd as (H1 & H2 & H3).
    apply NoDup_cons in H3 as [H3 H4]. apply NoDup_app. set_solver.
  - apply chain_pop; [done| |done]. apply NoDup_cons in Hnd as [Hl _]. done.
Qed.

Lemma ring_append m l xs x ys n :
  n ∉ l :: xs ++ x :: ys → ring m l (xs ++ x :: ys) →
  ring (IO_Event_List_append x n m) l (xs ++ n :: x :: ys).
Proof.
  intros Hn [Hnd Hc]. split.
  - rewrite app_comm_cons in Hnd |- *. apply NoDup_app in Hnd as (H1 & H2 & H3).
    apply NoDup_app. split_and!; [done| |].
    + intros u Hu. specialize (H2 u Hu). set_solver.
    + apply NoDup_cons. set_solver.
  - apply chain_append; [done| |set_solver|done].
    apply NoDup_cons in Hnd as [Hl _]. done.
Qed.

Lemma ring_tail_next m l xs x ys :
  ring m l (xs ++ x :: ys) → tail (m x) = hd l ys.
Proof. intros [_ Hc]. by eapply chain_tail_next. Qed.

Lemma ring_first m l xs : ring m l xs → tail (m l) = hd l xs.
Proof. intros [_ Hc]. destruct xs; simpl in *; by destruct Hc. Qed.

Lemma ring_head_in m l xs x : ring m l xs → x ∈ xs → head (m x) ∈ l :: xs.
Proof.
  intros [_ Hc] Hx. apply list_elem_of_split in Hx as (ys & zs & ->).
  apply chain_head_in in Hc. set_solver.
Qed.

(** Rings over disjoint entries do not see each other's updates. *)
Lemma ring_frame m m' l xs :
  (∀ y, y ∈ l :: xs → m' y = m y) → ring m l xs → ring m' l xs.
Proof.
  intros Heq [Hnd Hc]. split; [done|]. apply chain_frame with m; [| |done].
  - intros y Hy. by rewrite Heq.
  - intros y Hy. rewrite Heq; [done|]. set_solver.
Qed.
End list_lemmas.

(** * Constants of the platform *)

(** Modelled from the spec: [selector.h] and the system headers are not
    among the sources, so the event bits, the epoll flags, the kqueue
    filters, the error numbers, the retry test and the build-time switch are
    parameters.  No theorem below assumes anything about their values. *)
Class Platform : Type := {
  IO_EVENT_READABLE : Z;
  IO_EVENT_PRIORITY : Z;
  IO_EVENT_WRITABLE : Z;
  IO_EVENT_EXIT : Z;
  EPOLLIN : Z;
  EPOLLPRI : Z;
  EPOLLOUT : Z;
  EPOLLERR : Z;
  EPOLLHUP : Z;
  EPOLLONESHOT : Z;
  EVFILT_READ : Z;
  EVFILT_WRITE : Z;
  EVFILT_PROC : Z;
  EPERM : Z;
  EINTR : Z;
  ENOSYS : Z;
  IO_Event_try_again : Z -> bool;
  HAVE_EPOLL_PWAIT2 : bool
}.

(** The values of Linux (epoll) next to those of the BSDs (kqueue filters),
    used where a statement is evaluated on an example. *)
Definition example_platform : Platform := {|
  IO_EVENT_READABLE := 1;
  IO_EVENT_PRIORITY := 2;
  IO_EVENT_WRITABLE := 4;
  IO_EVENT_EXIT := 32;
  EPOLLIN := 1;
  EPOLLPRI := 2;
  EPOLLOUT := 4;
  EPOLLERR := 8;
  EPOLLHUP := 16;
  EPOLLONESHOT := 1073741824;
  EVFILT_READ := -1;
  EVFILT_WRITE := -2;
  EVFILT_PROC := -5;
  EPERM := 1;
  EINTR := 4;
  ENOSYS := 38;
  IO_Event_try_again := fun e => (e =? 11) || (e =? 4);
  HAVE_EPOLL_PWAIT2 := true
|}.

(** * Values of the host runtime *)

Inductive VALUE : Type :=
| Qnil
| Qfalse
| Qtrue
| Fixnum (n : Z)
| Float (value : float)
| Object (id : nat).

Definition RTEST (v : VALUE) : bool :=
  match v with
  | Qnil | Qfalse => false
  | _ => true
  end.

Definition INT2NUM (n : Z) : VALUE := Fixnum n.

(** [NUM2INT] is defined on the integers that fit an [int]; on every other
    value the host raises. *)
Definition NUM2INT (v : VALUE) : option Z :=
  match v with
  | Fixnum n => if (-2147483648 <=? n) && (n <=? 2147483647) then Some n else None
  | _ => None
  end.

(** The exceptions of the two files: [rb_sys_fail] (with the [errno] it
    reports), the conversion failures of the host, [rb_raise] with
    [rb_eRuntimeError], and whatever another fiber raises into a suspended
    one.  [Undefined] stands for a call that C leaves undefined (the use of
    a record that is [NULL]). *)
Inductive Exception : Type :=
| SystemCallError (errno : option Z)
| TypeError
| RuntimeError
| Injected (id : nat)
| Undefined.

Inductive result (A : Type) : Type :=
| Return (a : A)
| Raise (e : Exception).
Arguments Return {A} a.
Arguments Raise {A} e.

(** * Effects *)

Inductive Operation : Type := EPOLL_CTL_ADD | EPOLL_CTL_MOD | EPOLL_CTL_DEL.

#[global] Instance Operation_eq_dec : EqDecision Operation.
Proof. solve_decision. Defined.

(** What a system call answered: [0] or a count on success, [-1] with
    [errno] set on failure. *)
Inductive SysResult : Type :=
| Success
| Failure (errno : Z).

#[global] Instance SysResult_eq_dec : EqDecision SysResult.
Proof. solve_decision. Defined.

(** [struct timespec] *)
Record timespec : Type := { tv_sec : Z; tv_nsec : Z }.

(** The calls that leave the selector, in the order they are made.  The
    answer of [epoll_ctl] is recorded where the caller inspects it. *)
Inductive Effect : Type :=
| Sys_epoll_ctl (op : Operation) (fd : Z) (flags : Z) (answer : option SysResult)
| Sys_kevent_register (ident : Z) (filters : list Z) (answer : SysResult)
| Sys_pidfd_open (pid : Z)
| Sys_close (fd : Z)
| Sys_epoll_pwait2 (without_gvl : bool) (timeout : option timespec)
| Sys_epoll_wait (without_gvl : bool) (timeout_ms : Z)
| Sys_kevent_wait (without_gvl : bool) (nevents : Z) (timeout : option timespec)
| Host_fiber_transfer (fiber : VALUE) (argv : list VALUE)
| Host_queue_push (fiber : VALUE)
| Host_yield
| Host_process_status_wait (pid : Z)
| Host_interrupt_clear
| Host_interrupt_signal
| Sys_kevent_trigger (first : bool) (answer : SysResult)
| Host_queue_flush
| Host_nonblock_set (fd : Z)
| Host_nonblock_restore (fd : Z) (flags : Z)
| Sys_read (fd : Z) (offset : Z) (count : Z)
| Sys_write (fd : Z) (offset : Z) (count : Z).

(** * The world *)

(** Which wait primitive owns a [waiting] record, that is where its fiber
    continues when it is transferred to. *)
Inductive Frame : Type :=
| in_io_wait
| in_process_wait (pid : Z) (descriptor : Z).

(** [struct IO_Event_Selector_EPoll_Waiting] and
    [struct IO_Event_Selector_KQueue_Waiting]; the [list] member lives in
    [memory]. *)
Record Waiting : Type := {
  waiting_events : Z;
  waiting_fiber : VALUE;
  waiting_frame : Frame
}.

Inductive Backend : Type := EPoll | KQueue.

(** How a suspended fiber is continued: with a value, or with an exception
    raised through its transfer. *)
Inductive Resumption : Type :=
| resumed_with (v : VALUE)
| raised_into (e : Exception).

(** What fibers do while they run: enter [io_wait], or make a suspended
    waiter leave its wait (cancel it, raise into it).  [kernel] is the
    answer the arming system call will get. *)
Inductive Action : Type :=
| call_io_wait (frame : nat) (fiber : VALUE) (io : Z) (events : VALUE)
    (kernel : SysResult)
| leave_wait (frame : nat) (how : Resumption) (status : VALUE).

(** [descriptor_mask] is the [enum IO_Event] member of the descriptor
    record: [events], the armed mask, in epoll.c and [ready], the
    accumulator, in kqueue.c.  [ready_queue] is [selector->backend.ready].
    [tasks] lists, for each time control leaves the selector for a fiber,
    what fibers do before control comes back. *)
Record World : Type := {
  memory : Memory;
  waiting : addr -> Waiting;
  descriptor_mask : Z -> Z;
  ready_queue : list VALUE;
  blocked : bool;
  effects : list Effect;
  tasks : list (list Action)
}.

Definition with_memory (f : Memory -> Memory) (w : World) : World :=
  {| memory := f (memory w); waiting := waiting w;
     descriptor_mask := descriptor_mask w; ready_queue := ready_queue w;
     blocked := blocked w; effects := effects w; tasks := tasks w |}.

Definition with_waiting (a : addr) (v : Waiting) (w : World) : World :=
  {| memory := memory w;
     waiting := fun b => if decide (b = a) then v else waiting w b;
     descriptor_mask := descriptor_mask w; ready_queue := ready_queue w;
     blocked := blocked w; effects := effects w; tasks := tasks w |}.

Definition with_descriptor_mask (d : Z) (v : Z) (w : World) : World :=
  {| memory := memory w; waiting := waiting w;
     descriptor_mask := fun e => if decide (e = d) then v else descriptor_mask w e;
     ready_queue := ready_queue w;
     blocked := blocked w; effects := effects w; tasks := tasks w |}.

Definition with_ready_queue (q : list VALUE) (w : World) : World :=
  {| memory := memory w; waiting := waiting w;
     descriptor_mask := descriptor_mask w; ready_queue := q;
     blocked := blocked w; effects := effects w; tasks := tasks w |}.

Definition with_blocked (b : bool) (w : World) : World :=
  {| memory := memory w; waiting := waiting w;
     descriptor_mask := descriptor_mask w; ready_queue := ready_queue w;
     blocked := b; effects := effects w; tasks := tasks w |}.

Definition with_tasks (t : list (list Action)) (w : World) : World :=
  {| memory := memory w; waiting := waiting w;
     descriptor_mask := descriptor_mask w; ready_queue := ready_queue w;
     blocked := blocked w; effects := effects w; tasks := t |}.

(** A call leaves the selector. *)
Definition emit (e : Effect) (w : World) : World :=
  {| memory := memory w; waiting := waiting w;
     descriptor_mask := descriptor_mask w; ready_queue := ready_queue w;
     blocked := blocked w; effects := effects w ++ [e]; tasks := tasks w |}.

(** A record of the current frame comes into scope, its list member
    [{NULL, NULL}]. *)
Definition declare (a : addr) (m : Memory) : Memory :=
  fun b => if decide (b = a) then {| head := NULL; tail := NULL |} else m b.

(** A selector after [allocate] and [initialize]: every descriptor record
    as [IO_Event_Selector_EPoll_Descriptor_initialize] (and its kqueue twin)
    leaves it, an empty list and a zero mask. *)
Definition fresh_memory : Memory :=
  fun a => match a with
           | Slot d => {| head := Slot d; tail := Slot d |}
           | _ => {| head := NULL; tail := NULL |}
           end.

Definition fresh (t : list (list Action)) : World :=
  {| memory := fresh_memory;
     waiting := fun _ => {| waiting_events := 0; waiting_fiber := Qnil;
                            waiting_frame := in_io_wait |};
     descriptor_mask := fun _ => 0;
     ready_queue := [];
     blocked := false;
     effects := [];
     tasks := t |}.

(** Modelled from the spec: [array.h] is not among the sources.  The spec
    (section 2, component B) gives a container "mapping a nonnegative
    descriptor id to a fixed-size descriptor record", created on first use;
    the lookup answers the record of a nonnegative id and nothing else. *)
Definition IO_Event_Array_lookup (descriptor : Z) : option addr :=
  if 0 <=? descriptor then Some (Slot descriptor) else None.

(** * The wait primitives of epoll.c *)

(** How the part of a wait primitive before its transfer ends. *)
Inductive Entered : Type :=
| Suspended
| Yielded (v : VALUE)
| Failed (e : Exception).

Module EPoll.
Section with_platform.
Context `{Platform}.

Definition IO_Event_Selector_EPoll_Descriptor_lookup (descriptor : Z)
  : result addr :=
  match IO_Event_Array_lookup descriptor with
  | Some epoll_descriptor => Return epoll_descriptor
  | None => Raise (SystemCallError None)
  end.

Definition epoll_flags_from_events (events : Z) : Z :=
  let flags := 0 in
  let flags := if Z.land events IO_EVENT_READABLE =? 0 then flags
               else Z.lor flags EPOLLIN in
  let flags := if Z.land events IO_EVENT_PRIORITY =? 0 then flags
               else Z.lor flags EPOLLPRI in
  let flags := if Z.land events IO_EVENT_WRITABLE =? 0 then flags
               else Z.lor flags EPOLLOUT in
  let flags := Z.lor flags EPOLLHUP in
  let flags := Z.lor flags EPOLLERR in
  flags.

Definition events_from_epoll_flags (flags : Z) : Z :=
  let events := 0 in
  let events :=
    if Z.land flags (Z.lor (Z.lor EPOLLIN EPOLLHUP) EPOLLERR) =? 0 then events
    else Z.lor events IO_EVENT_READABLE in
  let events := if Z.land flags EPOLLPRI =? 0 then events
                else Z.lor events IO_EVENT_PRIORITY in
  let events := if Z.land flags EPOLLOUT =? 0 then events
                else Z.lor events IO_EVENT_WRITABLE in
  events.

(** [IO_Event_Selector_EPoll_process_wait] up to its [rb_ensure].
    [opened] is what [pidfd_open] answers (the descriptor, or the
    [errno]), [kernel] what [epoll_ctl] answers. *)
Definition IO_Event_Selector_EPoll_process_wait
    (frame : nat) (fiber : VALUE) (pid : Z) (opened : Z + Z)
    (kernel : SysResult) (w : World) : Entered * World :=
  let w := emit (Sys_pidfd_open pid) w in
  match opened with
  | inr errno => (Failed (SystemCallError (Some errno)), w)
  | inl descriptor =>
    match IO_Event_Selector_EPoll_Descriptor_lookup descriptor with
    | Raise e => (Failed e, w)
    | Return epoll_descriptor =>
      let w := with_descriptor_mask descriptor IO_EVENT_READABLE w in
      let flags :=
        Z.lor (Z.lor (Z.lor EPOLLIN EPOLLERR) EPOLLHUP) EPOLLONESHOT in
      let w :=
        emit (Sys_epoll_ctl EPOLL_CTL_ADD descriptor flags (Some kernel)) w in
      match kernel with
      | Failure errno =>
        (Failed (SystemCallError (Some errno)), emit (Sys_close descriptor) w)
      | Success =>
        let w := with_memory (declare (Wait frame)) w in
        let w := with_waiting (Wait frame)
                   {| waiting_events := IO_EVENT_READABLE;
                      waiting_fiber := fiber;
                      waiting_frame := in_process_wait pid descriptor |} w in
        let w := with_memory
                   (IO_Event_List_prepend epoll_descriptor (Wait frame)) w in
        (Suspended, w)
      end
    end
  end.

(** [process_wait_transfer] from the return of its transfer on; [status]
    is what [IO_Event_Selector_process_status_wait] answers. *)
Definition process_wait_transfer (pid : Z) (how : Resumption)
    (status : VALUE) (w : World) : result VALUE * World :=
  match how with
  | raised_into e => (Raise e, w)
  | resumed_with _ => (Return status, emit (Host_process_status_wait pid) w)
  end.

Definition process_wait_ensure (descriptor : Z) (waiting_ : addr)
    (w : World) : World :=
  let w := emit (Sys_close descriptor) w in
  with_memory (IO_Event_List_pop waiting_) w.

(** The [rb_ensure] of [IO_Event_Selector_EPoll_process_wait], from the
    return of the transfer on. *)
Definition process_wait_resumed (pid descriptor : Z) (waiting_ : addr)
    (how : Resumption) (status : VALUE) (w : World) : result VALUE * World :=
  let '(r, w) := process_wait_transfer pid how status w in
  (r, process_wait_ensure descriptor waiting_ w).

Definition io_wait_ensure (waiting_ : addr) (w : World) : World :=
  with_memory (IO_Event_List_pop waiting_) w.

(** [io_wait_transfer] from the return of its transfer on. *)
Definition io_wait_transfer (how : Resumption) : result VALUE :=
  match how with
  | raised_into e => Raise e
  | resumed_with result_ =>
    if negb (RTEST result_) then Return Qfalse
    else match NUM2INT result_ with
         | Some flags => Return (INT2NUM (events_from_epoll_flags flags))
         | None => Raise TypeError
         end
  end.

(** The [rb_ensure] of [IO_Event_Selector_EPoll_io_wait], from the return
    of the transfer on. *)
Definition io_wait_resumed (waiting_ : addr) (how : Resumption) (w : World)
  : result VALUE * World :=
  (io_wait_transfer how, io_wait_ensure waiting_ w).

(** [IO_Event_Selector_EPoll_io_wait] up to its [rb_ensure]; [io] stands
    for its descriptor, [kernel] is what [epoll_ctl] answers if it is
    called. *)
Definition IO_Event_Selector_EPoll_io_wait
    (frame : nat) (fiber : VALUE) (io : Z) (events : VALUE)
    (kernel : SysResult) (w : World) : Entered * World :=
  let descriptor := io in
  match IO_Event_Selector_EPoll_Descriptor_lookup descriptor with
  | Raise e => (Failed e, w)
  | Return epoll_descriptor =>
    match NUM2INT events with
    | None => (Failed TypeError, w)
    | Some waiting_events_ =>
      let w := with_memory (declare (Wait frame)) w in
      let w := with_waiting (Wait frame)
                 {| waiting_events := waiting_events_;
                    waiting_fiber := fiber;
                    waiting_frame := in_io_wait |} w in
      let armed := descriptor_mask w descriptor in
      let link w :=
        (Suspended,
         with_memory (IO_Event_List_prepend epoll_descriptor (Wait frame)) w) in
      if negb (Z.land armed waiting_events_ =? waiting_events_) then
        let flags := epoll_flags_from_events (Z.lor armed waiting_events_) in
        let operation :=
          if negb (armed =? 0) then EPOLL_CTL_MOD else EPOLL_CTL_ADD in
        let w :=
          emit (Sys_epoll_ctl operation descriptor flags (Some kernel)) w in
        match kernel with
        | Failure errno =>
          if errno =? EPERM then
            let w := with_ready_queue (ready_queue w ++ [fiber]) w in
            let w := emit (Host_queue_push fiber) w in
            let w := emit Host_yield w in
            (Yielded events, w)
          else (Failed (SystemCallError (Some errno)), w)
        | Success =>
          link (with_descriptor_mask descriptor
                  (Z.lor armed waiting_events_) w)
        end
      else link w
    end
  end.
End with_platform.
End EPoll.

(** * The wait primitives of kqueue.c *)

Module KQueue.
Section with_platform.
Context `{Platform}.

Definition IO_Event_Selector_KQueue_Descriptor_lookup (descriptor : Z)
  : result addr :=
  match IO_Event_Array_lookup descriptor with
  | Some kqueue_descriptor => Return kqueue_descriptor
  | None => Raise (SystemCallError None)
  end.

(** The filters of the [kevents] array that [IO_Event_Selector_KQueue_arm]
    fills, in its order. *)
Definition arm_filters (events : Z) : list Z :=
  (if Z.land events IO_EVENT_READABLE =? 0 then [] else [EVFILT_READ]) ++
  (if Z.land events IO_EVENT_WRITABLE =? 0 then [] else [EVFILT_WRITE]) ++
  (if Z.land events IO_EVENT_EXIT =? 0 then [] else [EVFILT_PROC]).

(** [kernel] is what [kevent] answers. *)
Definition IO_Event_Selector_KQueue_arm (ident : Z)
    (kqueue_descriptor waiting_ : addr) (kernel : SysResult) (w : World)
  : result Z * World :=
  let events := waiting_events (waiting w waiting_) in
  let kevents := arm_filters events in
  let count := Z.of_nat (length kevents) in
  let w := emit (Sys_kevent_register ident kevents kernel) w in
  match kernel with
  | Failure errno => (Raise (SystemCallError (Some errno)), w)
  | Success =>
    (Return count,
     with_memory (IO_Event_List_prepend kqueue_descriptor waiting_) w)
  end.

Definition events_from_kevent_filter (filter : Z) : Z :=
  if filter =? EVFILT_READ then IO_EVENT_READABLE
  else if filter =? EVFILT_WRITE then IO_EVENT_WRITABLE
  else if filter =? EVFILT_PROC then IO_EVENT_EXIT
  else 0.

(** [process_wait_transfer] from the return of its transfer on. *)
Definition process_wait_transfer (pid : Z) (how : Resumption)
    (status : VALUE) (w : World) : result VALUE * World :=
  match how with
  | raised_into e => (Raise e, w)
  | resumed_with _ => (Return status, emit (Host_process_status_wait pid) w)
  end.

Definition process_wait_ensure (waiting_ : addr) (w : World) : World :=
  with_memory (IO_Event_List_pop waiting_) w.

Definition process_wait_resumed (pid : Z) (waiting_ : addr)
    (how : Resumption) (status : VALUE) (w : World) : result VALUE * World :=
  let '(r, w) := process_wait_transfer pid how status w in
  (r, process_wait_ensure waiting_ w).

(** [IO_Event_Selector_KQueue_process_wait] up to its [rb_ensure]. *)
Definition IO_Event_Selector_KQueue_process_wait
    (frame : nat) (fiber : VALUE) (pid : Z) (kernel : SysResult) (w : World)
  : Entered * World :=
  match IO_Event_Selector_KQueue_Descriptor_lookup pid with
  | Raise e => (Failed e, w)
  | Return kqueue_descriptor =>
    let w := with_memory (declare (Wait frame)) w in
    let w := with_waiting (Wait frame)
               {| waiting_events := IO_EVENT_EXIT;
                  waiting_fiber := fiber;
                  waiting_frame := in_process_wait pid pid |} w in
    match IO_Event_Selector_KQueue_arm pid kqueue_descriptor (Wait frame)
            kernel w with
    | (Raise e, w) => (Failed e, w)
    | (Return _, w) => (Suspended, w)
    end
  end.

Definition io_wait_ensure (waiting_ : addr) (w : World) : World :=
  with_memory (IO_Event_List_pop waiting_) w.

(** [io_wait_transfer] from the return of its transfer on. *)
Definition io_wait_transfer (how : Resumption) : result VALUE :=
  match how with
  | raised_into e => Raise e
  | resumed_with result_ =>
    if negb (RTEST result_) then Return Qfalse else Return result_
  end.

Definition io_wait_resumed (waiting_ : addr) (how : Resumption) (w : World)
  : result VALUE * World :=
  (io_wait_transfer how, io_wait_ensure waiting_ w).

(** [IO_Event_Selector_KQueue_io_wait] up to its [rb_ensure].  The record
    that [IO_Event_Array_lookup] answers is used unchecked. *)
Definition IO_Event_Selector_KQueue_io_wait
    (frame : nat) (fiber : VALUE) (io : Z) (events : VALUE)
    (kernel : SysResult) (w : World) : Entered * World :=
  let descriptor := io in
  match NUM2INT events with
  | None => (Failed TypeError, w)
  | Some waiting_events_ =>
    let w := with_memory (declare (Wait frame)) w in
    let w := with_waiting (Wait frame)
               {| waiting_events := waiting_events_;
                  waiting_fiber := fiber;
                  waiting_frame := in_io_wait |} w in
    match IO_Event_Array_lookup descriptor with
    | None =>
      let w := emit (Sys_kevent_register descriptor
                       (arm_filters waiting_events_) kernel) w in
      match kernel with
      | Failure errno => (Failed (SystemCallError (Some errno)), w)
      | Success => (Failed Undefined, w)
      end
    | Some kqueue_descriptor =>
      match IO_Event_Selector_KQueue_arm descriptor kqueue_descriptor
              (Wait frame) kernel w with
      | (Raise e, w) => (Failed e, w)
      | (Return _, w) => (Suspended, w)
      end
    end
  end.
End with_platform.
End KQueue.

(** * Fibers at work, and the dispatch of fired events *)

Section dispatch.
Context `{Platform}.

(** A fiber suspended in a wait primitive continues: the rest of its
    [rb_ensure] runs.  What the primitive returns goes to the fiber and
    is of no concern here. *)
Definition resumed (b : Backend) (waiting_ : addr) (how : Resumption)
    (status : VALUE) (w : World) : World :=
  match b, waiting_frame (waiting w waiting_) with
  | EPoll, in_io_wait => snd (EPoll.io_wait_resumed waiting_ how w)
  | EPoll, in_process_wait pid descriptor =>
    snd (EPoll.process_wait_resumed pid descriptor waiting_ how status w)
  | KQueue, in_io_wait => snd (KQueue.io_wait_resumed waiting_ how w)
  | KQueue, in_process_wait pid _ =>
    snd (KQueue.process_wait_resumed pid waiting_ how status w)
  end.

Definition io_wait (b : Backend) (frame : nat) (fiber : VALUE) (io : Z)
    (events : VALUE) (kernel : SysResult) (w : World) : Entered * World :=
  match b with
  | EPoll => EPoll.IO_Event_Selector_EPoll_io_wait frame fiber io events kernel w
  | KQueue => KQueue.IO_Event_Selector_KQueue_io_wait frame fiber io events kernel w
  end.

(** A fiber enters [io_wait] with a frame that is not in use; a waiter
    leaves its wait only while it is linked. *)
Definition perform (b : Backend) (w : World) (a : Action) : World :=
  match a with
  | call_io_wait frame fiber io events kernel =>
    if decide (head (memory w (Wait frame)) = NULL)
    then snd (io_wait b frame fiber io events kernel w)
    else w
  | leave_wait frame how status =>
    if decide (head (memory w (Wait frame)) = NULL)
    then w
    else resumed b (Wait frame) how status w
  end.

(** Control is with the fibers until they transfer back. *)
Definition fibers_run (b : Backend) (w : World) : World :=
  match tasks w with
  | [] => w
  | script :: rest => foldl (perform b) (with_tasks rest w) script
  end.

(** [IO_Event_Selector_fiber_transfer(waiting->fiber, 1, &argument)] as
    the handler makes it: the waiter continues in its wait primitive,
    fibers run, and control returns. *)
Definition IO_Event_Selector_fiber_transfer (b : Backend) (waiting_ : addr)
    (argument : VALUE) (w : World) : World :=
  let fiber := waiting_fiber (waiting w waiting_) in
  let w := emit (Host_fiber_transfer fiber [argument]) w in
  let w := resumed b waiting_ (resumed_with argument) Qnil w in
  fibers_run b w.

(** The [while (node != list)] loop of [IO_Event_Selector_EPoll_handle]
    and of [IO_Event_Selector_KQueue_handle]; the two differ only in that
    kqueue.c keeps no [matched_events].  [None]: the fuel ran out. *)
Fixpoint handle_waiters (fuel : nat) (b : Backend) (list_ node : addr)
    (io_event matched_events : Z) (w : World) : option (Z * World) :=
  match fuel with
  | O => None
  | S fuel =>
    if decide (node = list_) then Some (matched_events, w)
    else
      let matching_events :=
        Z.land (waiting_events (waiting w node)) io_event in
      if negb (matching_events =? 0) then
        let matched_events := Z.lor matched_events matching_events in
        let w := with_memory (IO_Event_List_append node Saved) w in
        let argument := INT2NUM matching_events in
        let w := IO_Event_Selector_fiber_transfer b node argument w in
        let node := tail (memory w Saved) in
        let w := with_memory (IO_Event_List_pop Saved) w in
        handle_waiters fuel b list_ node io_event matched_events w
      else
        let node := tail (memory w node) in
        handle_waiters fuel b list_ node io_event matched_events w
  end.

(** [struct epoll_event], with [data.fd]. *)
Record epoll_event : Type := { events : Z; data_fd : Z }.

Definition IO_Event_Selector_EPoll_handle (fuel : nat) (event : epoll_event)
    (w : World) : option (result unit * World) :=
  let descriptor := data_fd event in
  let io_event := EPoll.events_from_epoll_flags (events event) in
  let matched_events := 0 in
  match EPoll.IO_Event_Selector_EPoll_Descriptor_lookup descriptor with
  | Raise e => Some (Raise e, w)
  | Return epoll_descriptor =>
    let list_ := epoll_descriptor in
    let node := tail (memory w list_) in
    let w := with_memory (declare Saved) w in
    match handle_waiters fuel EPoll list_ node io_event matched_events w with
    | None => None
    | Some (matched_events, w) =>
      if negb (io_event =? matched_events) then
        let flags :=
          EPoll.epoll_flags_from_events (descriptor_mask w descriptor) in
        if negb (descriptor_mask w descriptor =? 0) then
          Some (Return (),
                emit (Sys_epoll_ctl EPOLL_CTL_MOD descriptor flags None) w)
        else
          Some (Return (),
                emit (Sys_epoll_ctl EPOLL_CTL_DEL descriptor flags None) w)
      else Some (Return (), w)
    end
  end.

(** [kqueue_descriptor] is the record that [udata] points to, given by
    its index in the descriptor array. *)
Definition IO_Event_Selector_KQueue_handle (fuel : nat) (ident : Z)
    (kqueue_descriptor : Z) (w : World) : option World :=
  let io_event := descriptor_mask w kqueue_descriptor in
  if negb (io_event =? 0) then
    let w := with_descriptor_mask kqueue_descriptor 0 w in
    let list_ := Slot kqueue_descriptor in
    let node := tail (memory w list_) in
    let w := with_memory (declare Saved) w in
    match handle_waiters fuel KQueue list_ node io_event 0 w with
    | None => None
    | Some (_, w) => Some w
    end
  else Some w.
End dispatch.


(** * The shape of the waiter lists

    [Inv m M]: in memory [m] the list of every descriptor record [d] is a
    ring over the entries [M d], in [tail] order from the list head; the
    rings share no entry, and an entry outside all of them is unlinked. *)

Definition is_entry (a : addr) : Prop :=
  match a with
  | Wait _ | Saved => True
  | _ => False
  end.

Record Inv (m : Memory) (M : Z -> list addr) : Prop := {
  inv_ring : ∀ d, ring m (Slot d) (M d);
  inv_entry : ∀ d x, x ∈ M d → is_entry x;
  inv_disjoint : ∀ d d' x, x ∈ M d → x ∈ M d' → d = d';
  inv_linked : ∀ x, is_entry x → head (m x) ≠ NULL → ∃ d, x ∈ M d
}.

Definition update (M : Z -> list addr) (d : Z) (xs : list addr)
  : Z -> list addr :=
  fun e => if decide (e = d) then xs else M e.

Section shape.
Implicit Types (m : Memory) (M : Z -> list addr) (x y n : addr).
Implicit Types (xs ys : list addr) (d e : Z).

Lemma update_eq M d xs : update M d xs d = xs.
Proof. unfold update. by rewrite decide_True. Qed.

Lemma update_ne M d e xs : e ≠ d → update M d xs e = M e.
Proof. intros. unfold update. by rewrite decide_False. Qed.

Lemma entry_not_Slot x d : is_entry x → x ≠ Slot d.
Proof. by intros Hx ->. Qed.

Lemma entry_not_NULL x : is_entry x → x ≠ NULL.
Proof. by intros Hx ->. Qed.

Lemma IO_Event_List_eq (a b : IO_Event_List) :
  head a = head b → tail a = tail b → a = b.
Proof. destruct a, b; simpl; congruence. Qed.

Lemma Inv_fresh : Inv fresh_memory (fun _ => []).
Proof.
  split.
  - intros d. split; [apply NoDup_singleton|done].
  - intros d x Hx. by apply elem_of_nil in Hx.
  - intros d d' x Hx. by apply elem_of_nil in Hx.
  - intros [| | |] Hx Hh; done.
Qed.

(** A linked entry has a predecessor. *)
Lemma Inv_head_not_NULL m M d x : Inv m M → x ∈ M d → head (m x) ≠ NULL.
Proof.
  intros HI Hx Heq.
  pose proof (ring_head_in _ _ _ _ (inv_ring _ _ HI d) Hx) as Hin.
  rewrite Heq in Hin. apply elem_of_cons in Hin as [?|Hin]; [done|].
  by apply (inv_entry _ _ HI) in Hin.
Qed.

Lemma Inv_unlinked m M x : Inv m M → head (m x) = NULL → ∀ d, x ∉ M d.
Proof. intros HI Hx d Hin. by eapply Inv_head_not_NULL. Qed.

(** The neighbours of an entry of ring [d] are in ring [d]. *)
Lemma Inv_neighbours m M d xs x ys :
  Inv m M → M d = xs ++ x :: ys →
  head (m x) ∈ Slot d :: xs ∧ tail (m x) ∈ ys ++ [Slot d].
Proof.
  intros HI Hd. destruct (inv_ring _ _ HI d) as [_ Hc]. rewrite Hd in Hc.
  split; [by eapply chain_head_in|by eapply chain_tail_in].
Qed.

(** Members of another ring, and its head, are none of [ys] and not [Slot d]. *)
Lemma Inv_apart m M d e y :
  Inv m M → e ≠ d → y ∈ Slot e :: M e → y ∉ Slot d :: M d.
Proof.
  intros HI Hne Hy Hy'.
  apply elem_of_cons in Hy as [->|Hy]; apply elem_of_cons in Hy' as [Heq|Hy'].
  - congruence.
  - by apply (inv_entry _ _ HI) in Hy'.
  - subst y. by apply (inv_entry _ _ HI) in Hy.
  - apply Hne. by eapply (inv_disjoint _ _ HI).
Qed.

Lemma Inv_pop m M d xs x ys :
  Inv m M → M d = xs ++ x :: ys →
  Inv (IO_Event_List_pop x m) (update M d (xs ++ ys)).
Proof.
  intros HI Hd.
  pose proof (Inv_neighbours _ _ _ _ _ _ HI Hd) as [Hp Hs].
  assert (x ∈ M d) as Hxd by (rewrite Hd; set_solver).
  assert (NoDup (M d)) as Hnd.
  { destruct (inv_ring _ _ HI d) as [Hn _]. by apply NoDup_cons in Hn as [_ ?]. }
  split.
  - intros e. destruct (decide (e = d)) as [->|Hne].
    + rewrite update_eq. apply ring_pop. rewrite <- Hd. apply (inv_ring _ _ HI).
    + rewrite update_ne by done. apply ring_frame with m; [|apply (inv_ring _ _ HI)].
      intros y Hy. pose proof (Inv_apart _ _ _ _ _ HI Hne Hy) as Hy'.
      rewrite Hd in Hy'.
      apply IO_Event_List_eq; rewrite ?pop_head, ?pop_tail; mem.
  - intros e y. destruct (decide (e = d)) as [->|Hne].
    + rewrite update_eq. intros Hy. apply (inv_entry _ _ HI d). rewrite Hd. set_solver.
    + rewrite update_ne by done. apply (inv_entry _ _ HI).
  - intros e e' y. unfold update. repeat case_decide; subst; intros H1 H2; try done.
    + apply (inv_disjoint _ _ HI _ _ y); [|done]. rewrite Hd. set_solver.
    + apply (inv_disjoint _ _ HI _ _ y); [done|]. rewrite Hd. set_solver.
    + by apply (inv_disjoint _ _ HI _ _ y).
  - intros y Hy. rewrite pop_head. case_decide as Hyx; [done|].
    case_decide as Hys.
    + intros _. exists d. rewrite update_eq. subst y.
      apply elem_of_app in Hs as [Hs|Hs]; [set_solver|].
      apply list_elem_of_singleton in Hs. rewrite Hs in Hy. done.
    + intros Hh. destruct (inv_linked _ _ HI y Hy Hh) as [e He]. exists e.
      destruct (decide (e = d)) as [->|Hne].
      * rewrite update_eq. rewrite Hd in He. set_solver.
      * by rewrite update_ne.
Qed.

Lemma Inv_declare m M n :
  Inv m M → is_entry n → (∀ d, n ∉ M d) → Inv (declare n m) M.
Proof.
  intros HI Hn Hout. split.
  - intros d. apply ring_frame with m; [|apply (inv_ring _ _ HI)].
    intros y Hy. unfold declare. case_decide as Heq; [|done]. subst y.
    apply elem_of_cons in Hy as [->|Hy]; [done|]. by apply Hout in Hy.
  - apply (inv_entry _ _ HI).
  - apply (inv_disjoint _ _ HI).
  - intros y Hy. unfold declare. case_decide; [done|]. apply (inv_linked _ _ HI y Hy).
Qed.

Lemma Inv_prepend m M d n :
  Inv m M → is_entry n → (∀ e, n ∉ M e) →
  Inv (IO_Event_List_prepend (Slot d) n m) (update M d (n :: M d)).
Proof.
  intros HI Hn Hout.
  pose proof (inv_ring _ _ HI d) as Hr.
  assert (tail (m (Slot d)) ∈ M d ++ [Slot d]) as Hs.
  { rewrite (ring_first _ _ _ Hr). destruct (M d); set_solver. }
  split.
  - intros e. destruct (decide (e = d)) as [->|Hne].
    + rewrite update_eq. apply ring_prepend; [|done].
      apply not_elem_of_cons. split; [by apply entry_not_Slot|apply Hout].
    + rewrite update_ne by done. apply ring_frame with m; [|apply (inv_ring _ _ HI)].
      intros y Hy. pose proof (Inv_apart _ _ _ _ _ HI Hne Hy) as Hy'.
      assert (y ≠ n).
      { intros ->. apply elem_of_cons in Hy as [Hy|Hy]; [by subst n|by apply Hout in Hy]. }
      apply IO_Event_List_eq; rewrite ?prepend_head, ?prepend_tail; mem.
  - intros e y. destruct (decide (e = d)) as [->|Hne].
    + rewrite update_eq. intros [->|Hy]%elem_of_cons; [done|]. by apply (inv_entry _ _ HI d).
    + rewrite update_ne by done. apply (inv_entry _ _ HI).
  - intros e e' y. unfold update. repeat case_decide; subst; intros H1 H2; try done.
    + apply elem_of_cons in H1 as [->|H1]; [by apply Hout in H2|].
      by apply (inv_disjoint _ _ HI _ _ y).
    + apply elem_of_cons in H2 as [->|H2]; [by apply Hout in H1|].
      by apply (inv_disjoint _ _ HI _ _ y).
    + by apply (inv_disjoint _ _ HI _ _ y).
  - intros y Hy. rewrite prepend_head. case_decide as Hys.
    + intros _. exists d. rewrite update_eq. subst y.
      apply elem_of_app in Hs as [Hs|Hs]; [set_solver|].
      apply list_elem_of_singleton in Hs. rewrite Hs in Hy. done.
    + case_decide as Hyn.
      * intros _. exists d. rewrite update_eq. set_solver.
      * intros Hh. destruct (inv_linked _ _ HI y Hy Hh) as [e He]. exists e.
        destruct (decide (e = d)) as [->|Hne].
        -- rewrite update_eq. set_solver.
        -- by rewrite update_ne.
Qed.

Lemma Inv_append m M d xs x ys n :
  Inv m M → M d = xs ++ x :: ys → is_entry n → (∀ e, n ∉ M e) →
  Inv (IO_Event_List_append x n m) (update M d (xs ++ n :: x :: ys)).
Proof.
  intros HI Hd Hn Hout.
  pose proof (Inv_neighbours _ _ _ _ _ _ HI Hd) as [Hp Hs].
  assert (x ∈ M d) as Hxd by (rewrite Hd; set_solver).
  split.
  - intros e. destruct (decide (e = d)) as [->|Hne].
    + rewrite update_eq. apply ring_append.
      * specialize (Hout d). rewrite Hd in Hout.
        apply not_elem_of_cons. split; [by apply entry_not_Slot|done].
      * rewrite <- Hd. apply (inv_ring _ _ HI).
    + rewrite update_ne by done. apply ring_frame with m; [|apply (inv_ring _ _ HI)].
      intros y Hy. pose proof (Inv_apart _ _ _ _ _ HI Hne Hy) as Hy'.
      rewrite Hd in Hy'.
      assert (y ≠ n).
      { intros ->. apply elem_of_cons in Hy as [Hy|Hy]; [by subst n|by apply Hout in Hy]. }
      apply IO_Event_List_eq; rewrite ?append_head, ?append_tail; mem.
  - intros e y. destruct (decide (e = d)) as [->|Hne].
    + rewrite update_eq. intros Hy.
      destruct (decide (y = n)) as [->|Hyn]; [done|].
      apply (inv_entry _ _ HI d). rewrite Hd. set_solver.
    + rewrite update_ne by done. apply (inv_entry _ _ HI).
  - intros e e' y. unfold update. repeat case_decide; subst; intros H1 H2; try done.
    + destruct (decide (y = n)) as [->|Hyn]; [by apply Hout in H2|].
      apply (inv_disjoint _ _ HI _ _ y); [|done]. rewrite Hd. set_solver.
    + destruct (decide (y = n)) as [->|Hyn]; [by apply Hout in H1|].
      apply (inv_disjoint _ _ HI _ _ y); [done|]. rewrite Hd. set_solver.
    + by apply (inv_disjoint _ _ HI _ _ y).
  - intros y Hy. rewrite append_head. case_decide as Hyx.
    + intros _. exists d. rewrite update_eq. set_solver.
    + case_decide as Hyn.
      * intros _. exists d. rewrite update_eq. set_solver.
      * intros Hh. destruct (inv_linked _ _ HI y Hy Hh) as [e He]. exists e.
        destruct (decide (e = d)) as [->|Hne].
        -- rewrite update_eq. rewrite Hd in He. set_solver.
        -- by rewrite update_ne.
Qed.
End shape.


(** * What fibers can do to the lists *)

Definition is_call (a : Action) : Prop :=
  match a with
  | call_io_wait _ _ _ _ _ => True
  | leave_wait _ _ _ => False
  end.

(** Fibers that only enter [io_wait]: no waiter is made to leave by another
    fiber. *)
Definition quiet (t : list (list Action)) : Prop := Forall (Forall is_call) t.

Definition is_transfer (e : Effect) : Prop :=
  match e with
  | Host_fiber_transfer _ _ => True
  | _ => False
  end.

#[global] Instance is_transfer_dec e : Decision (is_transfer e).
Proof. destruct e; simpl; apply _. Defined.

(** The transfers into waiting fibers, in order. *)
Definition transfers (l : list Effect) : list Effect := filter is_transfer l.

(** The handler is at an entry of the list of [d]: [saved] is linked, [pre]
    before it and [rest] behind it. *)
Definition at_cursor (w : World) (d : Z) (pre rest : list addr) : Prop :=
  ∃ M, Inv (memory w) M ∧ M d = pre ++ Saved :: rest.

(** No handler is at work: [saved] is in no list, and the list of [d] is [l]. *)
Definition settled (w : World) (d : Z) (l : list addr) : Prop :=
  ∃ M, Inv (memory w) M ∧ M d = l ∧ ∀ e, Saved ∉ M e.

Section fibers.
Context `{Platform}.
Implicit Types (w : World) (b : Backend) (a : Action) (d : Z).
Implicit Types (pre rest : list addr).

Lemma transfers_emit e w :
  transfers (effects (emit e w)) =
  transfers (effects w) ++ (if decide (is_transfer e) then [e] else []).
Proof.
  unfold transfers, emit; simpl. by rewrite filter_app.
Qed.

Lemma transfers_snoc l e : ¬ is_transfer e → transfers (l ++ [e]) = transfers l.
Proof.
  intros He. unfold transfers. rewrite filter_app, filter_cons_False by done.
  by rewrite filter_nil, app_nil_r.
Qed.

Lemma resumed_memory b x how status w :
  memory (resumed b x how status w) = IO_Event_List_pop x (memory w).
Proof. unfold resumed. destruct b, (waiting_frame _), how; reflexivity. Qed.

Lemma resumed_waiting b x how status w :
  waiting (resumed b x how status w) = waiting w.
Proof. unfold resumed. destruct b, (waiting_frame _), how; reflexivity. Qed.

Lemma resumed_descriptor_mask b x how status w :
  descriptor_mask (resumed b x how status w) = descriptor_mask w.
Proof. unfold resumed. destruct b, (waiting_frame _), how; reflexivity. Qed.

Lemma resumed_tasks b x how status w :
  tasks (resumed b x how status w) = tasks w.
Proof. unfold resumed. destruct b, (waiting_frame _), how; reflexivity. Qed.

Lemma resumed_transfers b x how status w :
  transfers (effects (resumed b x how status w)) = transfers (effects w).
Proof.
  unfold resumed.
  destruct b, (waiting_frame _), how; simpl; try reflexivity;
    by rewrite !transfers_snoc by (simpl; tauto).
Qed.

(** What [io_wait] does to memory: nothing, or the frame comes into scope,
    or it is also linked behind the head of the list of [io]. *)
Lemma io_wait_memory b frame fiber io events_ kernel w :
  let w' := snd (io_wait b frame fiber io events_ kernel w) in
  (memory w' = memory w
   ∨ memory w' = declare (Wait frame) (memory w)
   ∨ memory w' = IO_Event_List_prepend (Slot io) (Wait frame)
                   (declare (Wait frame) (memory w)))
  ∧ (∀ y, y ≠ Wait frame → waiting w' y = waiting w y)
  ∧ tasks w' = tasks w
  ∧ transfers (effects w') = transfers (effects w).
Proof.
  destruct b; simpl.
  - unfold EPoll.IO_Event_Selector_EPoll_io_wait,
      EPoll.IO_Event_Selector_EPoll_Descriptor_lookup, IO_Event_Array_lookup.
    destruct (0 <=? io); simpl; [|by auto].
    destruct (NUM2INT events_) as [ev|]; simpl; [|by auto].
    assert (∀ y, y ≠ Wait frame →
              (if decide (y = Wait frame)
               then {| waiting_events := ev; waiting_fiber := fiber;
                       waiting_frame := in_io_wait |}
               else waiting w y) = waiting w y) as Hw
      by (intros y Hy; by rewrite decide_False).
    destruct (negb _); simpl; [|by auto 10].
    destruct kernel as [|errno]; simpl.
    + split_and!; auto. by rewrite !transfers_snoc by (simpl; tauto).
    + destruct (errno =? EPERM); simpl.
      * split_and!; auto. by rewrite !transfers_snoc by (simpl; tauto).
      * split_and!; auto. by rewrite !transfers_snoc by (simpl; tauto).
  - unfold KQueue.IO_Event_Selector_KQueue_io_wait, IO_Event_Array_lookup,
      KQueue.IO_Event_Selector_KQueue_arm.
    destruct (NUM2INT events_) as [ev|]; simpl; [|by auto].
    assert (∀ y, y ≠ Wait frame →
              (if decide (y = Wait frame)
               then {| waiting_events := ev; waiting_fiber := fiber;
                       waiting_frame := in_io_wait |}
               else waiting w y) = waiting w y) as Hw
      by (intros y Hy; by rewrite decide_False).
    destruct (0 <=? io); simpl; destruct kernel as [|errno]; simpl;
      split_and!; auto; by rewrite !transfers_snoc by (simpl; tauto).
Qed.

Lemma perform_tasks b w a : tasks (perform b w a) = tasks w.
Proof.
  destruct a; simpl; case_decide; try done.
  - apply io_wait_memory.
  - apply resumed_tasks.
Qed.

Lemma perform_transfers b w a :
  transfers (effects (perform b w a)) = transfers (effects w).
Proof.
  destruct a; simpl; case_decide; try done.
  - apply io_wait_memory.
  - apply resumed_transfers.
Qed.

(** One action at the cursor: [saved] stays where it is, the entries behind
    it can only become fewer, and their records are not written. *)
Lemma perform_cursor b w a d pre rest :
  at_cursor w d pre rest →
  ∃ pre' rest',
    at_cursor (perform b w a) d pre' rest'
    ∧ rest' `sublist_of` rest
    ∧ (∀ y, y ∈ rest → waiting (perform b w a) y = waiting w y)
    ∧ (is_call a → rest' = rest ∧ ∃ news, pre' = news ++ pre).
Proof.
  intros (M & HI & Hd).
  assert (∀ y, y ∈ rest → y ∈ M d) as Hrest by (intros y Hy; rewrite Hd; set_solver).
  destruct a as [frame fiber io events_ kernel|frame how status]; simpl.
  - case_decide as Hfree; cycle 1.
    { exists pre, rest. split_and!; [by exists M|done|done|]. intros _. split; [done|by exists []]. }
    pose proof (Inv_unlinked _ _ _ HI Hfree) as Hout.
    pose proof (io_wait_memory b frame fiber io events_ kernel w) as (Hm & Hw & _).
    simpl in Hm, Hw.
    assert (∀ y, y ∈ rest → waiting (snd (io_wait b frame fiber io events_ kernel w)) y = waiting w y) as Hw'.
    { intros y Hy. apply Hw. intros ->. by apply (Hout d), Hrest. }
    destruct Hm as [Hm|[Hm|Hm]].
    + exists pre, rest. split_and!; [|done|done|].
      * exists M. by rewrite Hm.
      * intros _. split; [done|by exists []].
    + exists pre, rest. split_and!; [|done|done|].
      * exists M. rewrite Hm. split; [|done]. by apply Inv_declare.
      * intros _. split; [done|by exists []].
    + pose proof (Inv_declare _ _ (Wait frame) HI I Hout) as HI'.
      pose proof (Inv_prepend _ _ io (Wait frame) HI' I Hout) as HI''.
      destruct (decide (io = d)) as [->|Hne].
      * exists (Wait frame :: pre), rest. split_and!; [|done|done|].
        -- eexists. rewrite Hm. split; [done|]. by rewrite update_eq, Hd.
        -- intros _. split; [done|by exists [Wait frame]].
      * exists pre, rest. split_and!; [|done|done|].
        -- eexists. rewrite Hm. split; [done|]. by rewrite update_ne.
        -- intros _. split; [done|by exists []].
  - case_decide as Hfree.
    { exists pre, rest. split_and!; [by exists M|done|done|done]. }
    destruct (inv_linked _ _ HI (Wait frame) I Hfree) as [e He].
    apply list_elem_of_split in He as (xs & ys & He).
    pose proof (Inv_pop _ _ _ _ _ _ HI He) as HI'.
    rewrite <- (resumed_memory b _ how status) in HI'.
    assert (∀ y, y ∈ rest →
              waiting (resumed b (Wait frame) how status w) y = waiting w y) as Hw
      by (intros; by rewrite resumed_waiting).
    destruct (decide (e = d)) as [->|Hne]; cycle 1.
    { exists pre, rest. split_and!; [|done|done|done].
      eexists. split; [done|]. by rewrite update_ne. }
    rewrite Hd in He. clear Hrest.
    assert (∃ pre' rest', xs ++ ys = pre' ++ Saved :: rest'
                          ∧ rest' `sublist_of` rest) as (pre' & rest' & Heq & Hsub).
    { clear -He. revert pre He. induction xs as [|z xs IH]; intros pre He.
      - destruct pre as [|p pre]; simpl in He; [done|].
        injection He as -> <-. by exists pre, rest.
      - destruct pre as [|p pre]; simpl in He.
        + injection He as <- ->. exists [], (xs ++ ys). split; [done|].
          apply sublist_app; [done|]. by apply sublist_cons.
        + injection He as -> He. destruct (IH _ He) as (pre' & rest' & Heq & Hsub).
          exists (z :: pre'), rest'. split; [|done]. simpl. by f_equal. }
    exists pre', rest'. split_and!; [|done|done|done].
    eexists. split; [done|]. by rewrite update_eq.
Qed.

Lemma script_cursor b script : ∀ w d pre rest,
  at_cursor w d pre rest →
  ∃ pre' rest',
    at_cursor (foldl (perform b) w script) d pre' rest'
    ∧ rest' `sublist_of` rest
    ∧ (∀ y, y ∈ rest' → waiting (foldl (perform b) w script) y = waiting w y)
    ∧ (Forall is_call script → rest' = rest ∧ ∃ news, pre' = news ++ pre).
Proof.
  induction script as [|a script IH]; intros w d pre rest Hc; simpl.
  - exists pre, rest. split_and!; [done..|]. intros _. split; [done|by exists []].
  - destruct (perform_cursor b w a d pre rest Hc) as (pre1 & rest1 & Hc1 & Hs1 & Hw1 & Hq1).
    destruct (IH _ _ _ _ Hc1) as (pre2 & rest2 & Hc2 & Hs2 & Hw2 & Hq2).
    exists pre2, rest2. split_and!; [done|by trans rest1| |].
    + intros y Hy. rewrite Hw2 by done. apply Hw1.
      eapply elem_of_sublist; [|done]. by eapply elem_of_sublist.
    + intros [Ha Hscript]%Forall_cons.
      destruct (Hq1 Ha) as (-> & news1 & ->).
      destruct (Hq2 Hscript) as (-> & news2 & ->).
      split; [done|]. exists (news2 ++ news1). by rewrite app_assoc.
Qed.

Lemma script_tasks b script : ∀ w, tasks (foldl (perform b) w script) = tasks w.
Proof.
  induction script as [|a script IH]; intros w; simpl; [done|].
  by rewrite IH, perform_tasks.
Qed.

Lemma script_transfers b script : ∀ w,
  transfers (effects (foldl (perform b) w script)) = transfers (effects w).
Proof.
  induction script as [|a script IH]; intros w; simpl; [done|].
  by rewrite IH, perform_transfers.
Qed.

Lemma fibers_run_cursor b w d pre rest :
  at_cursor w d pre rest →
  ∃ pre' rest',
    at_cursor (fibers_run b w) d pre' rest'
    ∧ rest' `sublist_of` rest
    ∧ (∀ y, y ∈ rest' → waiting (fibers_run b w) y = waiting w y)
    ∧ (quiet (tasks w) → rest' = rest ∧ ∃ news, pre' = news ++ pre).
Proof.
  intros Hc. unfold fibers_run. destruct (tasks w) as [|script t] eqn:Ht.
  - exists pre, rest. split_and!; [done..|]. intros _. split; [done|by exists []].
  - assert (at_cursor (with_tasks t w) d pre rest) as Hc' by done.
    destruct (script_cursor b script _ _ _ _ Hc') as (pre' & rest' & ? & ? & ? & Hq).
    exists pre', rest'. split_and!; [done..|].
    intros [Hs _]%Forall_cons. by apply Hq.
Qed.

Lemma fibers_run_quiet b w : quiet (tasks w) → quiet (tasks (fibers_run b w)).
Proof.
  unfold fibers_run. destruct (tasks w) as [|script t] eqn:Ht; [by rewrite Ht|].
  intros [_ Hq]%Forall_cons. by rewrite script_tasks.
Qed.

Lemma fibers_run_transfers b w :
  transfers (effects (fibers_run b w)) = transfers (effects w).
Proof.
  unfold fibers_run. destruct (tasks w) as [|script t]; [done|].
  by rewrite script_transfers.
Qed.
End fibers.


(** * The dispatch loop *)

(** The waiter at [x] asked for one of the fired events [E]. *)
Definition wants (E : Z) (ev : addr -> Waiting) (x : addr) : Prop :=
  Z.land (waiting_events (ev x)) E ≠ 0.

#[global] Instance wants_dec E ev x : Decision (wants E ev x).
Proof. unfold wants. apply _. Defined.

(** The transfer that resumes the waiter at [x] for the fired events [E]. *)
Definition resume_of (E : Z) (ev : addr -> Waiting) (x : addr) : Effect :=
  Host_fiber_transfer (waiting_fiber (ev x))
    [INT2NUM (Z.land (waiting_events (ev x)) E)].

(** [matched_events] after the waiters [xs] were resumed. *)
Definition matched_of (E : Z) (ev : addr -> Waiting) (matched : Z)
    (xs : list addr) : Z :=
  foldl (fun acc x => Z.lor acc (Z.land (waiting_events (ev x)) E)) matched xs.

Section loop.
Context `{Platform}.
Implicit Types (w : World) (b : Backend) (d E : Z).
Implicit Types (pre rest : list addr).

Lemma filter_sublist_mono {A} (P : A → Prop) `{!∀ x, Decision (P x)}
    (l1 l2 : list A) :
  l1 `sublist_of` l2 → filter P l1 `sublist_of` filter P l2.
Proof.
  induction 1 as [|x l1 l2 _ IH|x l1 l2 _ IH]; [done| |].
  - rewrite !filter_cons. destruct (decide (P x)); [by apply sublist_skip|done].
  - rewrite filter_cons. destruct (decide (P x)); [by apply sublist_cons|done].
Qed.

Lemma filter_agree {A} (P Q : A → Prop) `{!∀ x, Decision (P x)}
    `{!∀ x, Decision (Q x)} (l : list A) :
  (∀ x, x ∈ l → P x ↔ Q x) → filter P l = filter Q l.
Proof.
  induction l as [|x l IH]; intros Heq; [done|].
  rewrite !filter_cons, IH by (intros; apply Heq; set_solver).
  destruct (decide (P x)) as [HP|HP], (decide (Q x)) as [HQ|HQ]; try done.
  - apply Heq in HP; [done|set_solver].
  - apply Heq in HQ; [done|set_solver].
Qed.

Lemma cursor_enter b d pre x rest how status e w :
  settled w d (pre ++ x :: rest) →
  at_cursor
    (resumed b x how status (emit e (with_memory (IO_Event_List_append x Saved) w)))
    d pre rest.
Proof.
  intros (M & HI & Hd & Hout).
  pose proof (Inv_append _ _ _ _ _ _ Saved HI Hd I Hout) as HI1.
  assert (update M d (pre ++ Saved :: x :: rest) d = (pre ++ [Saved]) ++ x :: rest)
    as Hd1 by (by rewrite update_eq, <- app_assoc).
  pose proof (Inv_pop _ _ _ _ _ _ HI1 Hd1) as HI2.
  eexists. rewrite resumed_memory. split; [exact HI2|].
  by rewrite update_eq, <- app_assoc.
Qed.

Lemma cursor_leave d pre rest w :
  at_cursor w d pre rest →
  tail (memory w Saved) = hd (Slot d) rest
  ∧ settled (with_memory (IO_Event_List_pop Saved) w) d (pre ++ rest).
Proof.
  intros (M & HI & Hd). split.
  - pose proof (inv_ring _ _ HI d) as Hr. rewrite Hd in Hr.
    by apply ring_tail_next in Hr.
  - pose proof (Inv_pop _ _ _ _ _ _ HI Hd) as HI'.
    eexists. split; [exact HI'|]. split; [by rewrite update_eq|].
    intros e. destruct (decide (e = d)) as [->|Hne].
    + rewrite update_eq.
      destruct (inv_ring _ _ HI d) as [Hnd _]. rewrite Hd in Hnd.
      apply NoDup_cons in Hnd as [_ Hnd]. apply NoDup_app in Hnd as (_ & H1 & H2).
      apply NoDup_cons in H2 as [H2 _]. intros [Hin|Hin]%elem_of_app; [|done].
      apply (H1 _ Hin). set_solver.
    + rewrite update_ne by done. intros Hin. apply Hne.
      apply (inv_disjoint _ _ HI _ _ Saved Hin). rewrite Hd. set_solver.
Qed.

Lemma settled_entry w d l x : settled w d l → x ∈ l → is_entry x ∧ x ≠ Saved.
Proof.
  intros (M & HI & Hd & Hout) Hx. subst l. split.
  - by apply (inv_entry _ _ HI d).
  - intros ->. by apply (Hout d).
Qed.

Lemma settled_NoDup w d l : settled w d l → NoDup l.
Proof.
  intros (M & HI & Hd & _). subst l.
  destruct (inv_ring _ _ HI d) as [Hnd _]. by apply NoDup_cons in Hnd as [_ ?].
Qed.

(** The loop from a list [pre ++ rest] with the cursor at the first entry
    of [rest]: it ends, having resumed some of the waiters of [rest] that
    asked for a fired event, each once and in list order, and no other. *)
Lemma handle_waiters_spec b d E (ev : addr → Waiting) : ∀ fuel rest pre w matched,
  settled w d (pre ++ rest) →
  (∀ y, y ∈ rest → waiting w y = ev y) →
  (length rest < fuel)%nat →
  ∃ w' resumed_ left,
    handle_waiters fuel b (Slot d) (hd (Slot d) rest) E matched w
      = Some (matched_of E ev matched resumed_, w')
    ∧ resumed_ `sublist_of` filter (wants E ev) rest
    ∧ transfers (effects w')
        = transfers (effects w) ++ map (resume_of E ev) resumed_
    ∧ settled w' d left
    ∧ (quiet (tasks w) →
       resumed_ = filter (wants E ev) rest
       ∧ ∃ news, left = news ++ pre ++ filter (λ x, ¬ wants E ev x) rest).
Proof.
  induction fuel as [|fuel IH]; intros rest pre w matched Hs Hev Hlen; [lia|].
  destruct rest as [|x rest]; simpl.
  - rewrite decide_True by done. exists w, [], (pre ++ []).
    split_and!; [done|done|by rewrite app_nil_r|done|].
    intros _. split; [done|]. exists []. by rewrite filter_nil.
  - destruct (settled_entry _ _ _ x Hs) as [Hx HxS]; [set_solver|].
    rewrite decide_False by (by apply entry_not_Slot).
    rewrite (Hev x) by set_solver.
    destruct (Z.eqb_spec (Z.land (waiting_events (ev x)) E) 0) as [Hz|Hnz]; simpl.
    + (* skipped in place *)
      assert (tail (memory w x) = hd (Slot d) rest) as ->.
      { destruct Hs as (M & HI & Hd & _).
        pose proof (inv_ring _ _ HI d) as Hr. rewrite Hd in Hr.
        by apply ring_tail_next in Hr. }
      destruct (IH rest (pre ++ [x]) w matched) as (w' & res & left & Hrun & Hsub & Htr & Hs' & Hq).
      { by rewrite <- app_assoc. }
      { intros y Hy. apply Hev. set_solver. }
      { simpl in Hlen. lia. }
      exists w', res, left. rewrite Hrun.
      rewrite filter_cons_False by (unfold wants; tauto).
      split_and!; [done..|].
      intros Hquiet. destruct (Hq Hquiet) as (-> & news & ->). split; [done|].
      exists news. rewrite filter_cons_True by (unfold wants; tauto).
      by rewrite <- app_assoc.
    + (* resumed *)
      set (w1 := with_memory (IO_Event_List_append x Saved) w).
      unfold IO_Event_Selector_fiber_transfer.
      assert (waiting w1 x = ev x) as -> by (apply Hev; set_solver).
      set (e := Host_fiber_transfer _ _).
      set (w2 := resumed b x _ Qnil (emit e w1)).
      assert (at_cursor w2 d pre rest) as Hc by (by apply cursor_enter).
      destruct (fibers_run_cursor b w2 d pre rest Hc)
        as (pre' & rest' & Hc' & Hsub' & Hw' & Hq').
      destruct (cursor_leave _ _ _ _ Hc') as [-> Hs3].
      set (w3 := with_memory (IO_Event_List_pop Saved) (fibers_run b w2)) in *.
      destruct (IH rest' pre' w3 (Z.lor matched (Z.land (waiting_events (ev x)) E)))
        as (w' & res & left & Hrun & Hsub & Htr & Hs' & Hq).
      { done. }
      { intros y Hy. unfold w3; simpl. rewrite Hw' by done. unfold w2.
        rewrite resumed_waiting. simpl. apply Hev.
        apply elem_of_cons. right. by eapply elem_of_sublist. }
      { apply sublist_length in Hsub'. simpl in Hlen. lia. }
      exists w', (x :: res), left. rewrite Hrun.
      rewrite filter_cons_True by done.
      assert (transfers (effects w3) = transfers (effects w) ++ [e]) as Htr3.
      { unfold w3; simpl. rewrite fibers_run_transfers. unfold w2.
        rewrite resumed_transfers, transfers_emit. by rewrite decide_True. }
      split_and!; [done| | |done|].
      * apply sublist_skip. trans (filter (wants E ev) rest'); [done|].
        by apply filter_sublist_mono.
      * rewrite Htr, Htr3. simpl. by rewrite <- app_assoc.
      * intros Hquiet.
        assert (quiet (tasks w2)) as Hquiet2.
        { unfold w2. by rewrite resumed_tasks. }
        destruct (Hq' Hquiet2) as (-> & news & ->).
        destruct Hq as (-> & news' & ->).
        { unfold w3; simpl. by apply fibers_run_quiet. }
        split; [done|]. exists (news' ++ news).
        rewrite filter_cons_False by (unfold wants; tauto).
        by rewrite <- !app_assoc.
Qed.
End loop.


(** * The two handlers *)

Section handlers.
Context `{Platform}.
Implicit Types (w : World) (d E : Z) (l : list addr).

Lemma settled_memory w1 w2 d l :
  memory w2 = memory w1 → settled w1 d l → settled w2 d l.
Proof. intros Hm (M & HI & Hd). exists M. by rewrite Hm. Qed.

Lemma settled_declare_Saved w d l :
  settled w d l → settled (with_memory (declare Saved) w) d l.
Proof.
  intros (M & HI & Hd & Hout). exists M. split; [|done].
  by apply Inv_declare.
Qed.

Lemma settled_first w d l : settled w d l → tail (memory w (Slot d)) = hd (Slot d) l.
Proof.
  intros (M & HI & Hd & _). subst l. apply ring_first, (inv_ring _ _ HI).
Qed.

Lemma wants_zero ev l : filter (wants 0 ev) l = [].
Proof.
  induction l as [|x l IH]; [done|].
  rewrite filter_cons_False; [done|]. unfold wants. rewrite Z.land_0_r. tauto.
Qed.

Lemma not_wants_zero ev l : filter (λ x, ¬ wants 0 ev x) l = l.
Proof.
  induction l as [|x l IH]; [done|].
  rewrite filter_cons_True, IH; [done|]. unfold wants. rewrite Z.land_0_r. tauto.
Qed.

Lemma EPoll_handle_dispatch fuel event w l :
  0 ≤ data_fd event → settled w (data_fd event) l → (length l < fuel)%nat →
  ∃ w' resumed_ left,
    IO_Event_Selector_EPoll_handle fuel event w = Some (Return (), w')
    ∧ resumed_ `sublist_of`
        filter (wants (EPoll.events_from_epoll_flags (events event)) (waiting w)) l
    ∧ transfers (effects w')
        = transfers (effects w)
          ++ map (resume_of (EPoll.events_from_epoll_flags (events event))
                    (waiting w)) resumed_
    ∧ settled w' (data_fd event) left
    ∧ (quiet (tasks w) →
       resumed_
         = filter (wants (EPoll.events_from_epoll_flags (events event))
                     (waiting w)) l
       ∧ ∃ news,
           left = news ++ filter
                    (λ x, ¬ wants (EPoll.events_from_epoll_flags (events event))
                            (waiting w) x) l).
Proof.
  intros Hd Hs Hlen. unfold IO_Event_Selector_EPoll_handle.
  unfold EPoll.IO_Event_Selector_EPoll_Descriptor_lookup, IO_Event_Array_lookup.
  apply Z.leb_le in Hd. rewrite Hd.
  rewrite (settled_first _ _ _ Hs).
  set (E := EPoll.events_from_epoll_flags _).
  destruct (handle_waiters_spec EPoll (data_fd event) E (waiting w) fuel l []
              (with_memory (declare Saved) w) 0)
    as (w' & res & left & Hrun & Hsub & Htr & Hs' & Hq);
    [by apply settled_declare_Saved|done|done|].
  rewrite Hrun. simpl in Htr, Hq.
  assert (∀ op flags,
            transfers (effects (emit (Sys_epoll_ctl op (data_fd event) flags None) w'))
            = transfers (effects w) ++ map (resume_of E (waiting w)) res) as Htr'.
  { intros op flags. simpl. by rewrite transfers_snoc, Htr by (simpl; tauto). }
  destruct (negb (E =? _)); [destruct (negb (_ =? 0))|];
    (eexists _, res, left; split; [reflexivity|]);
    (split_and!; [done| | |done]); try done; try apply Htr';
    by eapply settled_memory.
Qed.

Lemma KQueue_handle_dispatch fuel ident d w l :
  settled w d l → (length l < fuel)%nat →
  ∃ w' resumed_ left,
    IO_Event_Selector_KQueue_handle fuel ident d w = Some w'
    ∧ resumed_ `sublist_of` filter (wants (descriptor_mask w d) (waiting w)) l
    ∧ transfers (effects w')
        = transfers (effects w)
          ++ map (resume_of (descriptor_mask w d) (waiting w)) resumed_
    ∧ settled w' d left
    ∧ (quiet (tasks w) →
       resumed_ = filter (wants (descriptor_mask w d) (waiting w)) l
       ∧ ∃ news,
           left = news ++ filter
                    (λ x, ¬ wants (descriptor_mask w d) (waiting w) x) l).
Proof.
  intros Hs Hlen. unfold IO_Event_Selector_KQueue_handle.
  destruct (Z.eqb_spec (descriptor_mask w d) 0) as [Hz|Hnz]; simpl.
  - exists w, [], l. rewrite Hz, wants_zero, not_wants_zero.
    split_and!; [done|done|by rewrite app_nil_r|done|].
    intros _. split; [done|]. by exists [].
  - set (E := descriptor_mask w d) in *.
    set (w0 := with_descriptor_mask d 0 w).
    assert (settled w0 d l) as Hs0 by (by eapply settled_memory).
    change (tail (memory (with_descriptor_mask d 0 w) (Slot d)))
      with (tail (memory w (Slot d))).
    rewrite (settled_first _ _ _ Hs).
    destruct (handle_waiters_spec KQueue d E (waiting w) fuel l []
                (with_memory (declare Saved) w0) 0)
      as (w' & res & left & Hrun & Hsub & Htr & Hs' & Hq);
      [by apply settled_declare_Saved|done|done|].
    rewrite Hrun. exists w', res, left. by split_and!.
Qed.
End handlers.


(** * Statements about the dispatch *)

(** What one dispatch of the fired events [E] over the list [l] of
    descriptor [d] did, from world [w] to world [w']: the waiters
    [resumed_] were transferred to, in this order, each with the events it
    asked for among [E]; they are waiters of [l] that asked for one of [E],
    in the order of [l], none twice; the list is a ring again, over [left],
    with [saved] out of it.  When no fiber makes another waiter leave,
    [resumed_] is every waiter of [l] that asked for one of [E], and the
    others are still linked, in their order, behind what fibers linked
    meanwhile. *)
Definition dispatched (E : Z) (d : Z) (l : list addr) (w w' : World)
    (resumed_ left : list addr) : Prop :=
  transfers (effects w')
    = transfers (effects w) ++ map (resume_of E (waiting w)) resumed_
  ∧ resumed_ `sublist_of` filter (wants E (waiting w)) l
  ∧ NoDup resumed_
  ∧ (∀ x, x ∈ resumed_ →
       let requested := waiting_events (waiting w x) in
       Z.land requested E ≠ 0
       ∧ Z.land (Z.land requested E) requested = Z.land requested E)
  ∧ settled w' d left
  ∧ (quiet (tasks w) →
     resumed_ = filter (wants E (waiting w)) l
     ∧ ∃ news, left = news ++ filter (λ x, ¬ wants E (waiting w) x) l).

Section claims_dispatch.
Context `{Platform}.

Lemma land_subset a E : Z.land (Z.land a E) a = Z.land a E.
Proof.
  rewrite (Z.land_comm (Z.land a E) a), Z.land_assoc, Z.land_diag. done.
Qed.

Lemma dispatched_intro E d l w w' resumed_ left :
  settled w d l →
  resumed_ `sublist_of` filter (wants E (waiting w)) l →
  transfers (effects w')
    = transfers (effects w) ++ map (resume_of E (waiting w)) resumed_ →
  settled w' d left →
  (quiet (tasks w) →
   resumed_ = filter (wants E (waiting w)) l
   ∧ ∃ news, left = news ++ filter (λ x, ¬ wants E (waiting w) x) l) →
  dispatched E d l w w' resumed_ left.
Proof.
  intros Hs Hsub Htr Hs' Hq. split_and!; [done|done| | |done|done].
  - eapply sublist_NoDup; [|done].
    eapply sublist_NoDup; [|apply sublist_filter]. by eapply settled_NoDup.
  - intros x Hx. simpl. split; [|apply land_subset].
    eapply elem_of_sublist in Hx; [|done].
    by apply list_elem_of_filter in Hx as [Hx _].
Qed.

(** C1.  On both backends a dispatch over a well-formed waiter list ends and
    resumes waiters whose mask meets the fired events, in list order from
    [list->tail] on, each once and with the meet of its mask and the fired
    events, which is not empty and lies within its mask; the others are
    skipped; [saved] keeps the place of the handler while fibers link and
    unlink waiters, and the list is well-formed afterwards.  When no fiber
    unlinks another waiter, the resumed waiters are exactly those whose mask
    meets the fired events. *)
Theorem handle_resumes_matching_waiters fuel w d l :
  settled w d l → (length l < fuel)%nat →
  (∀ flags, 0 ≤ d →
     ∃ w' resumed_ left,
       IO_Event_Selector_EPoll_handle fuel {| events := flags; data_fd := d |} w
         = Some (Return (), w')
       ∧ dispatched (EPoll.events_from_epoll_flags flags) d l w w' resumed_ left)
  ∧ (∀ ident,
       ∃ w' resumed_ left,
         IO_Event_Selector_KQueue_handle fuel ident d w = Some w'
         ∧ dispatched (descriptor_mask w d) d l w w' resumed_ left).
Proof.
  intros Hs Hlen. split.
  - intros flags Hd.
    destruct (EPoll_handle_dispatch fuel {| events := flags; data_fd := d |} w l)
      as (w' & res & left & Hrun & Hsub & Htr & Hs' & Hq); [done..|].
    exists w', res, left. split; [done|]. by apply dispatched_intro.
  - intros ident.
    destruct (KQueue_handle_dispatch fuel ident d w l)
      as (w' & res & left & Hrun & Hsub & Htr & Hs' & Hq); [done..|].
    exists w', res, left. split; [done|]. by apply dispatched_intro.
Qed.
End claims_dispatch.


(** * Statements about the wait primitives *)

Section claims_wait.
Context `{Platform}.
Implicit Types (w : World) (d : Z) (l : list addr).

Lemma settled_scope w w' d l n :
  settled w d l → head (memory w (Wait n)) = NULL →
  memory w' = declare (Wait n) (memory w) → settled w' d l.
Proof.
  intros (M & HI & Hd & Hout) Hfree Hm. exists M. rewrite Hm. split; [|done].
  apply Inv_declare; [done..|]. by eapply Inv_unlinked.
Qed.

Lemma settled_link w w' d l n :
  settled w d l → head (memory w (Wait n)) = NULL →
  memory w' = IO_Event_List_prepend (Slot d) (Wait n)
                (declare (Wait n) (memory w)) →
  settled w' d (Wait n :: l).
Proof.
  intros (M & HI & Hd & Hout) Hfree Hm.
  pose proof (Inv_unlinked _ _ _ HI Hfree) as Hn.
  pose proof (Inv_declare _ _ (Wait n) HI I Hn) as HI'.
  pose proof (Inv_prepend _ _ d (Wait n) HI' I Hn) as HI''.
  eexists. rewrite Hm. split; [exact HI''|]. split; [by rewrite update_eq, Hd|].
  intros e. unfold update. case_decide; [|done].
  apply not_elem_of_cons. split; [done|]. apply Hout.
Qed.

Lemma settled_link_other w w' d e l n :
  settled w d l → head (memory w (Wait n)) = NULL → e ≠ d →
  memory w' = IO_Event_List_prepend (Slot e) (Wait n)
                (declare (Wait n) (memory w)) →
  settled w' d l.
Proof.
  intros (M & HI & Hd & Hout) Hfree Hne Hm.
  pose proof (Inv_unlinked _ _ _ HI Hfree) as Hn.
  pose proof (Inv_declare _ _ (Wait n) HI I Hn) as HI'.
  pose proof (Inv_prepend _ _ e (Wait n) HI' I Hn) as HI''.
  eexists. rewrite Hm. split; [exact HI''|].
  split; [by rewrite update_ne|].
  intros e'. unfold update. case_decide; [|done].
  apply not_elem_of_cons. split; [done|]. apply Hout.
Qed.

Lemma settled_head w d x l :
  settled w d (x :: l) →
  tail (memory w (Slot d)) = x ∧ head (memory w x) = Slot d.
Proof.
  intros (M & HI & Hd & _). destruct (inv_ring _ _ HI d) as [_ Hc].
  rewrite Hd in Hc. simpl in Hc. tauto.
Qed.

(** The epoll [io_wait] on a record whose mask covers the request. *)
Lemma EPoll_io_wait_covered frame fiber io ev kernel w :
  0 ≤ io →
  Z.land (descriptor_mask w io) ev = ev →
  NUM2INT (Fixnum ev) = Some ev →
  EPoll.IO_Event_Selector_EPoll_io_wait frame fiber io (Fixnum ev) kernel w
  = (Suspended,
     with_memory (IO_Event_List_prepend (Slot io) (Wait frame))
       (with_waiting (Wait frame)
          {| waiting_events := ev; waiting_fiber := fiber;
             waiting_frame := in_io_wait |}
          (with_memory (declare (Wait frame)) w))).
Proof.
  intros Hio Hcov Hev. unfold EPoll.IO_Event_Selector_EPoll_io_wait,
    EPoll.IO_Event_Selector_EPoll_Descriptor_lookup, IO_Event_Array_lookup.
  apply Z.leb_le in Hio. rewrite Hio, Hev. simpl.
  apply Z.eqb_eq in Hcov. by rewrite Hcov.
Qed.

(** The epoll [io_wait] on a record whose mask does not cover the request. *)
Lemma EPoll_io_wait_arming frame fiber io ev kernel w :
  0 ≤ io →
  Z.land (descriptor_mask w io) ev ≠ ev →
  NUM2INT (Fixnum ev) = Some ev →
  let armed := descriptor_mask w io in
  let operation := if decide (armed = 0) then EPOLL_CTL_ADD else EPOLL_CTL_MOD in
  let call :=
    Sys_epoll_ctl operation io (EPoll.epoll_flags_from_events (Z.lor armed ev))
      (Some kernel) in
  let w0 :=
    emit call
      (with_waiting (Wait frame)
         {| waiting_events := ev; waiting_fiber := fiber;
            waiting_frame := in_io_wait |}
         (with_memory (declare (Wait frame)) w)) in
  EPoll.IO_Event_Selector_EPoll_io_wait frame fiber io (Fixnum ev) kernel w
  = match kernel with
    | Success =>
      (Suspended,
       with_memory (IO_Event_List_prepend (Slot io) (Wait frame))
         (with_descriptor_mask io (Z.lor armed ev) w0))
    | Failure errno =>
      if errno =? EPERM then
        (Yielded (Fixnum ev),
         emit Host_yield
           (emit (Host_queue_push fiber)
              (with_ready_queue (ready_queue w ++ [fiber]) w0)))
      else (Failed (SystemCallError (Some errno)), w0)
    end.
Proof.
  intros Hio Hcov Hev. unfold EPoll.IO_Event_Selector_EPoll_io_wait,
    EPoll.IO_Event_Selector_EPoll_Descriptor_lookup, IO_Event_Array_lookup.
  apply Z.leb_le in Hio. rewrite Hio, Hev. simpl.
  apply Z.eqb_neq in Hcov. rewrite Hcov. simpl.
  destruct (Z.eqb_spec (descriptor_mask w io) 0) as [Hz|Hnz]; simpl.
  - rewrite decide_True by done. by destruct kernel.
  - rewrite decide_False by done. by destruct kernel.
Qed.

(** C4.  The epoll [io_wait] on a descriptor record with armed mask
    [armed]: when [armed] covers the requested events no system call is
    made and the mask stays; otherwise [epoll_ctl] is called once, with
    [EPOLL_CTL_MOD] when [armed] is not zero and [EPOLL_CTL_ADD] when it is,
    for the flags of [armed | events], and when the call succeeds the mask
    becomes [armed | events].  In both cases without error the waiter is
    then linked at the head of the descriptor's list, with the requested
    events and the fiber, and the primitive suspends. *)
Theorem EPoll_io_wait_arms_then_links frame fiber io ev kernel w l :
  0 ≤ io → NUM2INT (Fixnum ev) = Some ev →
  settled w io l → head (memory w (Wait frame)) = NULL →
  let armed := descriptor_mask w io in
  let r := EPoll.IO_Event_Selector_EPoll_io_wait frame fiber io (Fixnum ev) kernel w in
  let linked w' :=
    fst r = Suspended
    ∧ settled w' io (Wait frame :: l)
    ∧ tail (memory w' (Slot io)) = Wait frame
    ∧ head (memory w' (Wait frame)) = Slot io
    ∧ waiting w' (Wait frame)
      = {| waiting_events := ev; waiting_fiber := fiber;
           waiting_frame := in_io_wait |} in
  (Z.land armed ev = ev →
     effects (snd r) = effects w
     ∧ descriptor_mask (snd r) = descriptor_mask w
     ∧ linked (snd r))
  ∧ (Z.land armed ev ≠ ev →
     ∃ more,
       effects (snd r)
       = effects w
         ++ Sys_epoll_ctl
              (if decide (armed = 0) then EPOLL_CTL_ADD else EPOLL_CTL_MOD)
              io (EPoll.epoll_flags_from_events (Z.lor armed ev)) (Some kernel)
            :: more
       ∧ Forall (λ e, ∀ op fd flags a, e ≠ Sys_epoll_ctl op fd flags a) more
       ∧ (kernel = Success →
          more = []
          ∧ descriptor_mask (snd r) io = Z.lor armed ev
          ∧ (∀ e, e ≠ io → descriptor_mask (snd r) e = descriptor_mask w e)
          ∧ linked (snd r))).
Proof.
  intros Hio Hev Hs Hfree. simpl. split.
  - intros Hcov. rewrite EPoll_io_wait_covered by done. simpl.
    match goal with |- context [settled ?w' _ _] =>
      assert (settled w' io (Wait frame :: l)) as Hs' by (by eapply settled_link)
    end.
    destruct (settled_head _ _ _ _ Hs') as [Ht Hh].
    split_and!; try done. by rewrite decide_True.
  - intros Hcov. rewrite EPoll_io_wait_arming by done.
    destruct kernel as [|errno]; simpl.
    + exists []. split_and!; try done.
      intros _.
      match goal with |- context [settled ?w' _ _] =>
        assert (settled w' io (Wait frame :: l)) as Hs' by (by eapply settled_link)
      end.
      destruct (settled_head _ _ _ _ Hs') as [Ht Hh].
      split_and!; try done.
      * by rewrite decide_True.
      * intros e He. by rewrite decide_False.
      * by rewrite decide_True.
    + destruct (errno =? EPERM); simpl.
      * exists [Host_queue_push fiber; Host_yield].
        rewrite <- !app_assoc. simpl. split_and!; [done| |done].
        repeat constructor; done.
      * exists []. split_and!; done.
Qed.
End claims_wait.


(** C8.  When the [epoll_ctl] of the epoll [io_wait] fails with [EPERM],
    [io_wait] raises nothing: it pushes the fiber on the ready queue, yields
    and then returns the [events] value it was given; no waiter is linked
    (every list is as before and the frame's record is unlinked) and the
    armed mask of every descriptor record is unchanged. *)
Theorem EPoll_io_wait_EPERM `{Platform} frame fiber io events_ ev w :
  0 ≤ io → NUM2INT events_ = Some ev →
  Z.land (descriptor_mask w io) ev ≠ ev →
  head (memory w (Wait frame)) = NULL →
  let r := EPoll.IO_Event_Selector_EPoll_io_wait frame fiber io events_
             (Failure EPERM) w in
  fst r = Yielded events_
  ∧ ready_queue (snd r) = ready_queue w ++ [fiber]
  ∧ (∃ op flags,
       effects (snd r)
       = effects w ++ [Sys_epoll_ctl op io flags (Some (Failure EPERM));
                       Host_queue_push fiber; Host_yield])
  ∧ descriptor_mask (snd r) = descriptor_mask w
  ∧ (∀ d l, settled w d l → settled (snd r) d l)
  ∧ head (memory (snd r) (Wait frame)) = NULL
  ∧ tail (memory (snd r) (Wait frame)) = NULL.
Proof.
  intros Hio Hev Hcov Hfree.
  unfold EPoll.IO_Event_Selector_EPoll_io_wait,
    EPoll.IO_Event_Selector_EPoll_Descriptor_lookup, IO_Event_Array_lookup.
  apply Z.leb_le in Hio. rewrite Hio, Hev. simpl.
  apply Z.eqb_neq in Hcov. rewrite Hcov. simpl. rewrite Z.eqb_refl. simpl.
  split_and!; try done.
  - eexists _, _. by rewrite <- !app_assoc.
  - intros d l Hs. by eapply settled_scope.
  - unfold declare. by rewrite decide_True.
  - unfold declare. by rewrite decide_True.
Qed.

(** * Leaving a wait *)

Section claims_leave.
Context `{Platform}.

Lemma settled_unlink w w' d xs x ys :
  settled w d (xs ++ x :: ys) →
  memory w' = IO_Event_List_pop x (memory w) →
  settled w' d (xs ++ ys)
  ∧ head (memory w' x) = NULL ∧ tail (memory w' x) = NULL.
Proof.
  intros (M & HI & Hd & Hout) Hm. rewrite Hm. split; [|apply pop_cleared].
  eexists. rewrite Hm. split; [by eapply Inv_pop|]. split; [by rewrite update_eq|].
  intros e. unfold update. case_decide; [|done].
  specialize (Hout d). rewrite Hd in Hout. set_solver.
Qed.

(** C5, as the code has it.  [io_wait] of either backend, resumed with a
    value that is not true, returns [Qfalse] and makes no call at all.
    [process_wait] does not look at the value it is resumed with: whatever
    that value is, true or not, it asks the host for the status of the
    child and returns it, and epoll.c then closes the descriptor of the
    process; resumed by an exception it asks for no status and raises the
    exception, and epoll.c still closes the descriptor.  Each of the four
    wait primitives, however it is resumed (with a value, or with an
    exception raised through the transfer), leaves with its waiter unlinked
    and the list otherwise as it was. *)
Theorem wait_primitives_unlink_on_every_exit w d xs x ys :
  settled w d (xs ++ x :: ys) →
  (∀ v, RTEST v = false →
     fst (EPoll.io_wait_resumed x (resumed_with v) w) = Return Qfalse
     ∧ effects (snd (EPoll.io_wait_resumed x (resumed_with v) w)) = effects w
     ∧ fst (KQueue.io_wait_resumed x (resumed_with v) w) = Return Qfalse
     ∧ effects (snd (KQueue.io_wait_resumed x (resumed_with v) w)) = effects w)
  ∧ (∀ v status pid descriptor,
       fst (EPoll.process_wait_resumed pid descriptor x (resumed_with v) status
              w) = Return status
       ∧ effects (snd (EPoll.process_wait_resumed pid descriptor x
                         (resumed_with v) status w))
         = effects w ++ [Host_process_status_wait pid; Sys_close descriptor]
       ∧ fst (KQueue.process_wait_resumed pid x (resumed_with v) status w)
         = Return status
       ∧ effects (snd (KQueue.process_wait_resumed pid x (resumed_with v)
                         status w))
         = effects w ++ [Host_process_status_wait pid])
  ∧ (∀ e status pid descriptor,
       fst (EPoll.process_wait_resumed pid descriptor x (raised_into e) status
              w) = Raise e
       ∧ effects (snd (EPoll.process_wait_resumed pid descriptor x
                         (raised_into e) status w))
         = effects w ++ [Sys_close descriptor]
       ∧ fst (KQueue.process_wait_resumed pid x (raised_into e) status w)
         = Raise e
       ∧ effects (snd (KQueue.process_wait_resumed pid x (raised_into e)
                         status w))
         = effects w)
  ∧ (∀ how status pid descriptor w',
       w' = snd (EPoll.io_wait_resumed x how w)
       ∨ w' = snd (KQueue.io_wait_resumed x how w)
       ∨ w' = snd (EPoll.process_wait_resumed pid descriptor x how status w)
       ∨ w' = snd (KQueue.process_wait_resumed pid x how status w) →
       settled w' d (xs ++ ys)
       ∧ head (memory w' x) = NULL ∧ tail (memory w' x) = NULL).
Proof.
  intros Hs. split_and!.
  - intros v Hv. unfold EPoll.io_wait_resumed, KQueue.io_wait_resumed,
      EPoll.io_wait_transfer, KQueue.io_wait_transfer. simpl.
    by rewrite Hv.
  - intros v status pid descriptor.
    unfold EPoll.process_wait_resumed, KQueue.process_wait_resumed. simpl.
    by rewrite <- app_assoc.
  - intros e status pid descriptor.
    by unfold EPoll.process_wait_resumed, KQueue.process_wait_resumed.
  - intros how status pid descriptor w' Hw'.
    eapply settled_unlink; [done|].
    destruct Hw' as [-> | [-> | [-> | ->]]]; try done; by destruct how.
Qed.
End claims_leave.


(** * [select] *)

(** What a kernel wait answers: the events it filled in, or [-1] with
    [errno]. *)
Inductive Polled (E : Type) : Type :=
| polled (events : list E)
| poll_failed (errno : Z).
Arguments polled {E} events.
Arguments poll_failed {E} errno.

(** [double] to [time_t] or [long], both of 64 bits: the fraction is
    dropped.  Where the value does not fit, and on infinities and NaN, C
    leaves the conversion undefined; the value here is the one that the
    conversion gives on x86-64, [- 2 ^ 63]. *)
Definition float_to_Z (f : float) : Z :=
  match Prim2SF f with
  | S754_finite s m e =>
    let v := if 0 <=? e then Z.pos m * 2 ^ e else Z.pos m / 2 ^ (- e) in
    let z := if s then - v else v in
    if (- 2 ^ 63 <=? z) && (z <? 2 ^ 63) then z else - 2 ^ 63
  | S754_zero _ => 0
  | _ => - 2 ^ 63
  end.

(** A [time_t] or [long] to [double]. *)
Definition Z_to_float (z : Z) : float :=
  if 0 <=? z then PrimFloat.of_uint63 (Uint63.of_Z z)
  else if z =? - 2 ^ 63 then (-9223372036854775808)%float
  else PrimFloat.opp (PrimFloat.of_uint63 (Uint63.of_Z (- z))).

(** [make_timeout], the same in both files: [NULL] is [None]. *)
Definition make_timeout (duration : VALUE) : result (option timespec) :=
  match duration with
  | Qnil => Return None
  | Fixnum n => Return (Some {| tv_sec := n; tv_nsec := 0 |})
  | Float value =>
    let seconds := float_to_Z value in
    Return (Some {| tv_sec := seconds;
                    tv_nsec :=
                      float_to_Z
                        (PrimFloat.mul
                           (PrimFloat.sub value (Z_to_float seconds))
                           (Z_to_float 1000000000)) |})
  | _ => Raise RuntimeError
  end.

(** [timeout_nonblocking], the same in both files. *)
Definition timeout_nonblocking (timespec_ : option timespec) : bool :=
  match timespec_ with
  | None => false
  | Some t => (tv_sec t =? 0) && (tv_nsec t =? 0)
  end.

(** Modelled from the spec: [selector.c] is not among the sources.  The
    spec (section 6) gives "ready_queue_flush() -> int", and for [select]
    "flush the host ready-queue (it may enqueue tasks synchronously),
    remember whether it found any": the fibers queued at the call run, what
    they push stays queued, and the answer is how many ran. *)
Definition IO_Event_Selector_queue_flush `{Platform} (b : Backend) (w : World)
  : Z * World :=
  let queued := ready_queue w in
  let w := emit Host_queue_flush (with_ready_queue [] w) in
  (Z.of_nat (length queued), foldl (fun w _ => fibers_run b w) w queued).

Module EPoll_select.
Section with_platform.
Context `{Platform}.

(** A value kept in an [int]. *)
Definition to_int (z : Z) : Z := (z + 2 ^ 31) mod 2 ^ 32 - 2 ^ 31.

Definition make_timeout_ms (timeout : option timespec) : Z :=
  match timeout with
  | None => -1
  | Some t =>
    if timeout_nonblocking timeout then 0
    else to_int (tv_sec t * 1000 + Z.quot (tv_nsec t) 1000000)
  end.

Definition enosys_error (result_ : Polled epoll_event) : bool :=
  match result_ with
  | poll_failed errno => errno =? ENOSYS
  | polled _ => false
  end.

(** What the kernel answers to each wait that [select] can make, and what
    the host has pending when the wait without the lock is over:
    [rb_thread_call_without_gvl] checks the interrupts of the thread before
    it returns, and raises there the exception that another thread sent
    into this one in the meantime. *)
Record Kernel : Type := {
  nonblocking_pwait2 : Polled epoll_event;
  nonblocking_wait : Polled epoll_event;
  blocking_pwait2 : Polled epoll_event;
  blocking_wait : Polled epoll_event;
  pending_interrupt : option nat
}.

Definition select_internal (without_gvl : bool) (timeout : option timespec)
    (pwait2 wait : Polled epoll_event) (w : World)
  : Polled epoll_event * World :=
  let fallback w :=
    (wait, emit (Sys_epoll_wait without_gvl (make_timeout_ms timeout)) w) in
  if HAVE_EPOLL_PWAIT2 then
    let w := emit (Sys_epoll_pwait2 without_gvl timeout) w in
    if negb (enosys_error pwait2) then (pwait2, w) else fallback w
  else fallback w.

(** No [rb_ensure] protects [blocked]: when [rb_thread_call_without_gvl]
    raises, the flag stays up. *)
Definition select_internal_without_gvl (timeout : option timespec)
    (pwait2 wait : Polled epoll_event) (interrupt : option nat) (w : World)
  : result (list epoll_event) * World :=
  let w := with_blocked true w in
  let '(answer, w) := select_internal true timeout pwait2 wait w in
  match interrupt with
  | Some id => (Raise (Injected id), w)
  | None =>
    let w := with_blocked false w in
    match answer with
    | poll_failed errno =>
      if negb (errno =? EINTR) then (Raise (SystemCallError (Some errno)), w)
      else (Return [], w)
    | polled events_ => (Return events_, w)
    end
  end.

Definition select_internal_with_gvl (timeout : option timespec)
    (pwait2 wait : Polled epoll_event) (w : World)
  : result (list epoll_event) * World :=
  let '(answer, w) := select_internal false timeout pwait2 wait w in
  match answer with
  | poll_failed errno =>
    if negb (errno =? EINTR) then (Raise (SystemCallError (Some errno)), w)
    else (Return [], w)
  | polled events_ => (Return events_, w)
  end.

(** The [for] loop of [IO_Event_Selector_EPoll_select]. *)
Fixpoint dispatch (fuel : nat) (events_ : list epoll_event) (w : World)
  : option World :=
  match events_ with
  | [] => Some w
  | event :: events_ =>
    if 0 <=? data_fd event then
      match IO_Event_Selector_EPoll_handle fuel event w with
      | Some (_, w) => dispatch fuel events_ w
      | None => None
      end
    else dispatch fuel events_ (emit Host_interrupt_clear w)
  end.

(** [IO_Event_Selector_EPoll_select] up to its [for] loop: the flush, the
    wait with the lock held and, may be, the wait without it. *)
Definition select_waits (duration : VALUE) (kernel : Kernel) (w : World)
  : result (list epoll_event) * World :=
  let '(ready, w) := IO_Event_Selector_queue_flush EPoll w in
  let storage := {| tv_sec := 0; tv_nsec := 0 |} in
  match select_internal_with_gvl (Some storage) (nonblocking_pwait2 kernel)
          (nonblocking_wait kernel) w with
  | (Raise e, w) => (Raise e, w)
  | (Return events_, w) =>
    let count := Z.of_nat (length events_) in
    if (ready =? 0) && (count =? 0)
       && (match ready_queue w with [] => true | _ => false end)
    then
      match make_timeout duration with
      | Raise e => (Raise e, w)
      | Return timeout =>
        if negb (timeout_nonblocking timeout) then
          select_internal_without_gvl timeout (blocking_pwait2 kernel)
            (blocking_wait kernel) (pending_interrupt kernel) w
        else (Return events_, w)
      end
    else (Return events_, w)
  end.

Definition IO_Event_Selector_EPoll_select (fuel : nat) (duration : VALUE)
    (kernel : Kernel) (w : World) : option (result VALUE * World) :=
  match select_waits duration kernel w with
  | (Raise e, w) => Some (Raise e, w)
  | (Return events_, w) =>
    match dispatch fuel events_ w with
    | Some w => Some (Return (INT2NUM (Z.of_nat (length events_))), w)
    | None => None
    end
  end.

End with_platform.
End EPoll_select.

Module KQueue_select.
Section with_platform.
Context `{Platform}.

(** [struct kevent]: [udata] is the descriptor record it points to, by its
    index, or [NULL]. *)
Record kevent : Type := { ident : Z; filter : Z; udata : option Z }.

(** What the kernel answers to each wait that [select] can make, and what
    the host has pending when the wait without the lock is over (an
    exception that [rb_thread_call_without_gvl] raises before it returns). *)
Record Kernel : Type := {
  nonblocking_kevent : Polled kevent;
  blocking_kevent : Polled kevent;
  pending_interrupt : option nat
}.

Definition KQUEUE_MAX_EVENTS : Z := 64.

Definition select_internal (without_gvl : bool) (count : Z)
    (timeout : option timespec) (answer : Polled kevent) (w : World)
  : Polled kevent * World :=
  (answer, emit (Sys_kevent_wait without_gvl count timeout) w).

(** No [rb_ensure] protects [blocked]: when [rb_thread_call_without_gvl]
    raises, the flag stays up. *)
Definition select_internal_without_gvl (count : Z) (timeout : option timespec)
    (answer : Polled kevent) (interrupt : option nat) (w : World)
  : result (list kevent) * World :=
  let w := with_blocked true w in
  let '(answer, w) := select_internal true count timeout answer w in
  match interrupt with
  | Some id => (Raise (Injected id), w)
  | None =>
    let w := with_blocked false w in
    match answer with
    | poll_failed errno =>
      if negb (errno =? EINTR) then (Raise (SystemCallError (Some errno)), w)
      else (Return [], w)
    | polled events_ => (Return events_, w)
    end
  end.

Definition select_internal_with_gvl (count : Z) (timeout : option timespec)
    (answer : Polled kevent) (w : World) : result (list kevent) * World :=
  let '(answer, w) := select_internal false count timeout answer w in
  match answer with
  | poll_failed errno =>
    if negb (errno =? EINTR) then (Raise (SystemCallError (Some errno)), w)
    else (Return [], w)
  | polled events_ => (Return events_, w)
  end.

(** The first [for] loop of [IO_Event_Selector_KQueue_select]. *)
Fixpoint accumulate (events_ : list kevent) (w : World) : World :=
  match events_ with
  | [] => w
  | event :: events_ =>
    match udata event with
    | Some kqueue_descriptor =>
      let ready :=
        Z.lor (descriptor_mask w kqueue_descriptor)
          (KQueue.events_from_kevent_filter (filter event)) in
      accumulate events_ (with_descriptor_mask kqueue_descriptor ready w)
    | None => accumulate events_ w
    end
  end.

(** The second [for] loop. *)
Fixpoint dispatch (fuel : nat) (events_ : list kevent) (w : World)
  : option World :=
  match events_ with
  | [] => Some w
  | event :: events_ =>
    match udata event with
    | Some kqueue_descriptor =>
      match IO_Event_Selector_KQueue_handle fuel (ident event)
              kqueue_descriptor w with
      | Some w => dispatch fuel events_ w
      | None => None
      end
    | None => dispatch fuel events_ w
    end
  end.

(** [IO_Event_Selector_KQueue_select] up to its [for] loops. *)
Definition select_waits (duration : VALUE) (kernel : Kernel) (w : World)
  : result (list kevent) * World :=
  let '(ready, w) := IO_Event_Selector_queue_flush KQueue w in
  let storage := {| tv_sec := 0; tv_nsec := 0 |} in
  match select_internal_with_gvl KQUEUE_MAX_EVENTS (Some storage)
          (nonblocking_kevent kernel) w with
  | (Raise e, w) => (Raise e, w)
  | (Return events_, w) =>
    let count := Z.of_nat (length events_) in
    if (ready =? 0) && (count =? 0)
       && (match ready_queue w with [] => true | _ => false end)
    then
      match make_timeout duration with
      | Raise e => (Raise e, w)
      | Return timeout =>
        if negb (timeout_nonblocking timeout) then
          select_internal_without_gvl KQUEUE_MAX_EVENTS timeout
            (blocking_kevent kernel) (pending_interrupt kernel) w
        else (Return events_, w)
      end
    else (Return events_, w)
  end.

Definition IO_Event_Selector_KQueue_select (fuel : nat) (duration : VALUE)
    (kernel : Kernel) (w : World) : option (result VALUE * World) :=
  match select_waits duration kernel w with
  | (Raise e, w) => Some (Raise e, w)
  | (Return events_, w) =>
    match dispatch fuel events_ (accumulate events_ w) with
    | Some w => Some (Return (INT2NUM (Z.of_nat (length events_))), w)
    | None => None
    end
  end.

End with_platform.
End KQueue_select.


(** * What fibers emit *)

(** The calls that the wait primitives make on behalf of fibers: arming
    (never [EPOLL_CTL_DEL]), the ready queue, and the cleanup of
    [process_wait]. *)
Definition is_task_effect (e : Effect) : Prop :=
  match e with
  | Sys_epoll_ctl op _ _ (Some _) => op ≠ EPOLL_CTL_DEL
  | Sys_kevent_register _ _ _ | Sys_close _ | Host_queue_push _ | Host_yield
  | Host_process_status_wait _ => True
  | _ => False
  end.

(** The kernel waits made with the lock released. *)
Definition is_wait_without_gvl (e : Effect) : Prop :=
  match e with
  | Sys_epoll_pwait2 true _ | Sys_epoll_wait true _ | Sys_kevent_wait true _ _ =>
    True
  | _ => False
  end.

#[global] Instance is_wait_without_gvl_dec e : Decision (is_wait_without_gvl e).
Proof.
  destruct e; simpl; try apply _;
    match goal with |- Decision (if ?b then _ else _) => destruct b end; apply _.
Defined.

Definition waits_without_gvl (l : list Effect) : list Effect :=
  filter is_wait_without_gvl l.

Section emitted.
Context `{Platform}.
Implicit Types (w : World) (b : Backend).

Lemma io_wait_effects b frame fiber io events_ kernel w :
  ∃ es, effects (snd (io_wait b frame fiber io events_ kernel w)) = effects w ++ es
        ∧ Forall is_task_effect es.
Proof.
  destruct b; simpl.
  - unfold EPoll.IO_Event_Selector_EPoll_io_wait,
      EPoll.IO_Event_Selector_EPoll_Descriptor_lookup, IO_Event_Array_lookup.
    destruct (0 <=? io); simpl; [|exists []; by rewrite app_nil_r].
    destruct (NUM2INT events_) as [ev|]; simpl; [|exists []; by rewrite app_nil_r].
    destruct (negb (Z.land _ _ =? _)); simpl; [|exists []; by rewrite app_nil_r].
    assert ((if negb (descriptor_mask w io =? 0) then EPOLL_CTL_MOD else EPOLL_CTL_ADD)
            ≠ EPOLL_CTL_DEL) as Hop by (by destruct (negb _)).
    destruct kernel as [|errno]; simpl.
    + eexists [_]. split; [done|]. by repeat constructor.
    + destruct (errno =? EPERM); simpl.
      * eexists [_; _; _]. rewrite <- !app_assoc. split; [done|].
        by repeat constructor.
      * eexists [_]. split; [done|]. by repeat constructor.
  - unfold KQueue.IO_Event_Selector_KQueue_io_wait, IO_Event_Array_lookup,
      KQueue.IO_Event_Selector_KQueue_arm.
    destruct (NUM2INT events_) as [ev|]; simpl; [|exists []; by rewrite app_nil_r].
    destruct (0 <=? io); simpl; destruct kernel as [|errno]; simpl;
      (eexists [_]; split; [done|]; by repeat constructor).
Qed.

Lemma resumed_effects b x how status w :
  ∃ es, effects (resumed b x how status w) = effects w ++ es
        ∧ Forall is_task_effect es.
Proof.
  unfold resumed. destruct b, (waiting_frame _), how; simpl;
    try (exists []; by rewrite app_nil_r).
  - eexists [_; _]. rewrite <- !app_assoc. split; [done|]. by repeat constructor.
  - eexists [_]. split; [done|]. by repeat constructor.
  - eexists [_]. split; [done|]. by repeat constructor.
Qed.

Lemma perform_effects b w a :
  ∃ es, effects (perform b w a) = effects w ++ es ∧ Forall is_task_effect es.
Proof.
  destruct a; simpl; case_decide; try (exists []; by rewrite app_nil_r).
  - apply io_wait_effects.
  - apply resumed_effects.
Qed.

Lemma script_effects b script : ∀ w,
  ∃ es, effects (foldl (perform b) w script) = effects w ++ es
        ∧ Forall is_task_effect es.
Proof.
  induction script as [|a script IH]; intros w; simpl.
  - exists []. by rewrite app_nil_r.
  - destruct (perform_effects b w a) as (es1 & He1 & Hf1).
    destruct (IH (perform b w a)) as (es2 & He2 & Hf2).
    exists (es1 ++ es2). rewrite He2, He1, app_assoc. split; [done|].
    by apply Forall_app.
Qed.

Lemma fibers_run_effects b w :
  ∃ es, effects (fibers_run b w) = effects w ++ es ∧ Forall is_task_effect es.
Proof.
  unfold fibers_run. destruct (tasks w) as [|script t].
  - exists []. by rewrite app_nil_r.
  - apply (script_effects b script (with_tasks t w)).
Qed.

Lemma fibers_run_each_effects b (q : list VALUE) : ∀ w,
  ∃ es, effects (foldl (λ w _, fibers_run b w) w q) = effects w ++ es
        ∧ Forall is_task_effect es.
Proof.
  induction q as [|f q IH]; intros w; simpl.
  - exists []. by rewrite app_nil_r.
  - destruct (fibers_run_effects b w) as (es1 & He1 & Hf1).
    destruct (IH (fibers_run b w)) as (es2 & He2 & Hf2).
    exists (es1 ++ es2). rewrite He2, He1, app_assoc. split; [done|].
    by apply Forall_app.
Qed.

Lemma flush_effects b w :
  ∃ es, effects (snd (IO_Event_Selector_queue_flush b w))
        = effects w ++ Host_queue_flush :: es
        ∧ Forall is_task_effect es.
Proof.
  unfold IO_Event_Selector_queue_flush. simpl.
  destruct (fibers_run_each_effects b (ready_queue w)
              (emit Host_queue_flush (with_ready_queue [] w))) as (es & He & Hf).
  exists es. rewrite He. simpl. by rewrite <- app_assoc.
Qed.

Lemma waits_task_effects l es :
  Forall is_task_effect es → waits_without_gvl (l ++ es) = waits_without_gvl l.
Proof.
  intros Hf. unfold waits_without_gvl. rewrite filter_app.
  assert (filter is_wait_without_gvl es = []) as ->; [|by rewrite app_nil_r].
  induction Hf as [|e es He _ IH]; [done|].
  rewrite filter_cons_False; [done|].
  destruct e; try done; simpl in *; tauto.
Qed.

Lemma flush_waits b w :
  waits_without_gvl (effects (snd (IO_Event_Selector_queue_flush b w)))
  = waits_without_gvl (effects w).
Proof.
  destruct (flush_effects b w) as (es & -> & Hf).
  change (Host_queue_flush :: es) with ([Host_queue_flush] ++ es).
  rewrite app_assoc, waits_task_effects by done.
  unfold waits_without_gvl. rewrite filter_app. simpl. by rewrite app_nil_r.
Qed.

(** With an empty queue the flush runs no fiber. *)
Lemma flush_idle b w :
  ready_queue w = [] →
  IO_Event_Selector_queue_flush b w
  = (0, emit Host_queue_flush (with_ready_queue [] w)).
Proof. intros Hq. unfold IO_Event_Selector_queue_flush. by rewrite Hq. Qed.

Lemma flush_count b w :
  fst (IO_Event_Selector_queue_flush b w) = Z.of_nat (length (ready_queue w)).
Proof. done. Qed.
End emitted.


(** * Statements about [select] *)

(** A wait without the lock was made between [w] and [w']. *)
Definition blocked_in_kernel (w w' : World) : Prop :=
  waits_without_gvl (effects w') ≠ waits_without_gvl (effects w).

Section claims_select.
Context `{Platform}.
Implicit Types (w : World).


(** The waits that [select_internal_without_gvl] of epoll.c makes. *)
Definition EPoll_blocking_calls (timeout : option timespec)
    (pwait2 : Polled epoll_event) : list Effect :=
  if HAVE_EPOLL_PWAIT2 then
    Sys_epoll_pwait2 true timeout
    :: (if EPoll_select.enosys_error pwait2
        then [Sys_epoll_wait true (EPoll_select.make_timeout_ms timeout)]
        else [])
  else [Sys_epoll_wait true (EPoll_select.make_timeout_ms timeout)].

Lemma waits_snoc_false l e :
  ¬ is_wait_without_gvl e → waits_without_gvl (l ++ [e]) = waits_without_gvl l.
Proof.
  intros He. unfold waits_without_gvl.
  rewrite filter_app, filter_cons_False by done. by rewrite filter_nil, app_nil_r.
Qed.

Lemma waits_snoc_true l e :
  is_wait_without_gvl e → waits_without_gvl (l ++ [e]) = waits_without_gvl l ++ [e].
Proof.
  intros He. unfold waits_without_gvl.
  rewrite filter_app, filter_cons_True by done. by rewrite filter_nil.
Qed.

Lemma EPoll_with_gvl_waits timeout p q w :
  waits_without_gvl
    (effects (snd (EPoll_select.select_internal_with_gvl timeout p q w)))
  = waits_without_gvl (effects w).
Proof.
  unfold EPoll_select.select_internal_with_gvl, EPoll_select.select_internal.
  destruct HAVE_EPOLL_PWAIT2; [destruct (negb (EPoll_select.enosys_error p))|];
    simpl.
  - destruct p as [es|errno]; [|destruct (negb _)]; simpl;
      by rewrite waits_snoc_false by (simpl; tauto).
  - destruct q as [es|errno]; [|destruct (negb _)]; simpl;
      by rewrite !waits_snoc_false by (simpl; tauto).
  - destruct q as [es|errno]; [|destruct (negb _)]; simpl;
      by rewrite !waits_snoc_false by (simpl; tauto).
Qed.

Lemma EPoll_without_gvl_waits timeout p q i w :
  waits_without_gvl
    (effects (snd (EPoll_select.select_internal_without_gvl timeout p q i w)))
  = waits_without_gvl (effects w) ++ EPoll_blocking_calls timeout p.
Proof.
  unfold EPoll_select.select_internal_without_gvl, EPoll_select.select_internal,
    EPoll_blocking_calls.
  destruct HAVE_EPOLL_PWAIT2; [destruct (EPoll_select.enosys_error p)|]; simpl.
  - destruct i as [id|]; [|destruct q as [es|errno]; [|destruct (negb _)]];
      simpl; rewrite !waits_snoc_true by (simpl; tauto); by rewrite <- app_assoc.
  - destruct i as [id|]; [|destruct p as [es|errno]; [|destruct (negb _)]];
      simpl; by rewrite !waits_snoc_true by (simpl; tauto).
  - destruct i as [id|]; [|destruct q as [es|errno]; [|destruct (negb _)]];
      simpl; by rewrite !waits_snoc_true by (simpl; tauto).
Qed.

Lemma KQueue_with_gvl_waits count timeout p w :
  waits_without_gvl
    (effects (snd (KQueue_select.select_internal_with_gvl count timeout p w)))
  = waits_without_gvl (effects w).
Proof.
  unfold KQueue_select.select_internal_with_gvl, KQueue_select.select_internal.
  destruct p as [es|errno]; [|destruct (negb _)]; simpl;
    by rewrite waits_snoc_false by (simpl; tauto).
Qed.

Lemma KQueue_without_gvl_waits count timeout p i w :
  waits_without_gvl
    (effects
       (snd (KQueue_select.select_internal_without_gvl count timeout p i w)))
  = waits_without_gvl (effects w) ++ [Sys_kevent_wait true count timeout].
Proof.
  unfold KQueue_select.select_internal_without_gvl, KQueue_select.select_internal.
  destruct i as [id|]; [|destruct p as [es|errno]; [|destruct (negb _)]]; simpl;
    by rewrite waits_snoc_true by (simpl; tauto).
Qed.




Lemma app_not_same {A} (l added : list A) : l ++ added ≠ l → added ≠ [].
Proof. intros Hne ->. by rewrite app_nil_r in Hne. Qed.

End claims_select.


(** * The mask of a descriptor record *)

(** [a] is within [b], as sets of bits. *)
Definition mask_le (a b : Z) : Prop := Z.land a b = a.

Section masks.
Context `{Platform}.
Implicit Types (w : World) (b : Backend) (d : Z).

Lemma mask_le_refl a : mask_le a a.
Proof. apply Z.land_diag. Qed.

Lemma mask_le_trans (x y z : Z) : mask_le x y → mask_le y z → mask_le x z.
Proof.
  unfold mask_le. intros Hxy Hyz.
  rewrite <- Hxy at 1. rewrite <- Z.land_assoc, Hyz. done.
Qed.

Lemma mask_le_lor (a x : Z) : mask_le a (Z.lor a x).
Proof.
  apply Z.bits_inj'. intros n _. rewrite Z.land_spec, Z.lor_spec.
  by destruct (Z.testbit a n), (Z.testbit x n).
Qed.

Lemma mask_le_zero (x y : Z) : mask_le x y → x ≠ 0 → y ≠ 0.
Proof. unfold mask_le. intros Hxy Hx ->. by rewrite Z.land_0_r in Hxy. Qed.

(** The kqueue wait primitives never write the accumulator. *)
Lemma KQueue_perform_mask w a :
  descriptor_mask (perform KQueue w a) = descriptor_mask w.
Proof.
  destruct a as [frame fiber io events_ kernel|frame how status]; cbn [perform];
    case_decide; try done; [|apply resumed_descriptor_mask].
  unfold io_wait, KQueue.IO_Event_Selector_KQueue_io_wait, IO_Event_Array_lookup,
    KQueue.IO_Event_Selector_KQueue_arm.
  destruct (NUM2INT events_); simpl; [|done].
  by destruct (0 <=? io), kernel.
Qed.

(** The epoll wait primitives only widen the armed mask. *)
Lemma EPoll_io_wait_mask frame fiber io events_ kernel w d :
  mask_le (descriptor_mask w d)
    (descriptor_mask
       (snd (EPoll.IO_Event_Selector_EPoll_io_wait frame fiber io events_ kernel w))
       d).
Proof.
  unfold EPoll.IO_Event_Selector_EPoll_io_wait,
    EPoll.IO_Event_Selector_EPoll_Descriptor_lookup, IO_Event_Array_lookup.
  destruct (0 <=? io); simpl; [|apply mask_le_refl].
  destruct (NUM2INT events_) as [ev|]; simpl; [|apply mask_le_refl].
  destruct (negb _); simpl; [|apply mask_le_refl].
  destruct kernel as [|errno]; simpl.
  - case_decide as Hd; [|apply mask_le_refl]. subst d. apply mask_le_lor.
  - destruct (errno =? EPERM); apply mask_le_refl.
Qed.

Lemma EPoll_perform_mask w a d :
  mask_le (descriptor_mask w d) (descriptor_mask (perform EPoll w a) d).
Proof.
  destruct a as [frame fiber io events_ kernel|frame how status]; cbn [perform];
    case_decide; try apply mask_le_refl.
  - apply EPoll_io_wait_mask.
  - rewrite resumed_descriptor_mask. apply mask_le_refl.
Qed.

(** What holds of the masks before fibers run holds after, when every
    single action keeps it. *)
Lemma fibers_run_mask b (R : (Z → Z) → (Z → Z) → Prop) :
  (∀ m, R m m) → (∀ m1 m2 m3, R m1 m2 → R m2 m3 → R m1 m3) →
  (∀ w a, R (descriptor_mask w) (descriptor_mask (perform b w a))) →
  ∀ w, R (descriptor_mask w) (descriptor_mask (fibers_run b w)).
Proof.
  intros Hrefl Htrans Hstep w. unfold fibers_run.
  destruct (tasks w) as [|script t]; [done|].
  change (descriptor_mask w) with (descriptor_mask (with_tasks t w)).
  generalize (with_tasks t w). clear w.
  induction script as [|a script IH]; intros w; simpl; [done|].
  eapply Htrans; [apply Hstep|apply IH].
Qed.

Lemma handle_waiters_mask b (R : (Z → Z) → (Z → Z) → Prop) :
  (∀ m, R m m) → (∀ m1 m2 m3, R m1 m2 → R m2 m3 → R m1 m3) →
  (∀ w a, R (descriptor_mask w) (descriptor_mask (perform b w a))) →
  ∀ fuel list_ node E matched w r w',
    handle_waiters fuel b list_ node E matched w = Some (r, w') →
    R (descriptor_mask w) (descriptor_mask w').
Proof.
  intros Hrefl Htrans Hstep.
  induction fuel as [|fuel IH]; intros list_ node E matched w r w'; simpl; [done|].
  case_decide; [by intros [= _ <-]|].
  destruct (negb _); [|apply IH].
  intros Hrun. apply IH in Hrun. simpl in Hrun.
  eapply Htrans; [|exact Hrun].
  unfold IO_Event_Selector_fiber_transfer.
  match goal with |- R _ (descriptor_mask (fibers_run b ?w0)) =>
    eapply Htrans; [|apply (fibers_run_mask b R Hrefl Htrans Hstep w0)]
  end.
  rewrite resumed_descriptor_mask. simpl. done.
Qed.

Lemma KQueue_handle_waiters_mask fuel list_ node E matched w r w' :
  handle_waiters fuel KQueue list_ node E matched w = Some (r, w') →
  descriptor_mask w' = descriptor_mask w.
Proof.
  intros Hrun. symmetry.
  apply (handle_waiters_mask KQueue eq) in Hrun; try done.
  - intros; congruence.
  - intros. by rewrite KQueue_perform_mask.
Qed.

Lemma EPoll_handle_waiters_mask fuel list_ node E matched w r w' d :
  handle_waiters fuel EPoll list_ node E matched w = Some (r, w') →
  mask_le (descriptor_mask w d) (descriptor_mask w' d).
Proof.
  intros Hrun. revert d.
  eapply (handle_waiters_mask EPoll (λ m m', ∀ d, mask_le (m d) (m' d)));
    [| | |exact Hrun].
  - intros. apply mask_le_refl.
  - intros m1 m2 m3 H1 H2 e. by eapply mask_le_trans.
  - intros. apply EPoll_perform_mask.
Qed.

Lemma EPoll_handle_mask fuel event w r w' d :
  IO_Event_Selector_EPoll_handle fuel event w = Some (r, w') →
  mask_le (descriptor_mask w d) (descriptor_mask w' d).
Proof.
  unfold IO_Event_Selector_EPoll_handle.
  destruct (EPoll.IO_Event_Selector_EPoll_Descriptor_lookup _) as [list_|e];
    [|intros [= _ <-]; apply mask_le_refl].
  destruct (handle_waiters _ _ _ _ _ _ _) as [[matched w1]|] eqn:Hrun; [|done].
  apply (EPoll_handle_waiters_mask _ _ _ _ _ _ _ _ d) in Hrun. simpl in Hrun.
  destruct (negb (_ =? matched)); [destruct (negb (_ =? 0))|];
    by intros [= _ <-].
Qed.

Lemma KQueue_handle_mask fuel ident d w w' :
  IO_Event_Selector_KQueue_handle fuel ident d w = Some w' →
  descriptor_mask w' d = 0
  ∧ ∀ e, e ≠ d → descriptor_mask w' e = descriptor_mask w e.
Proof.
  unfold IO_Event_Selector_KQueue_handle.
  destruct (Z.eqb_spec (descriptor_mask w d) 0) as [Hz|Hnz]; simpl.
  - by intros [= <-].
  - destruct (handle_waiters _ _ _ _ _ _ _) as [[matched w1]|] eqn:Hrun; [|done].
    apply KQueue_handle_waiters_mask in Hrun. simpl in Hrun.
    intros [= <-]. rewrite Hrun. split.
    + by rewrite decide_True.
    + intros e He. by rewrite decide_False.
Qed.
End masks.


(** * Statements about the masks *)

(** One thing happens to an epoll selector: a fiber enters [io_wait] or a
    waiter leaves its wait (returning, cancelled, or by an exception), or a
    kernel event is dispatched. *)
Inductive EPoll_step `{Platform} : World → World → Prop :=
| step_fiber w a : EPoll_step w (perform EPoll w a)
| step_handle w fuel event r w' :
    IO_Event_Selector_EPoll_handle fuel event w = Some (r, w') →
    EPoll_step w w'.

Definition is_DEL (e : Effect) : Prop :=
  match e with
  | Sys_epoll_ctl EPOLL_CTL_DEL _ _ _ => True
  | _ => False
  end.

Section claims_masks.
Context `{Platform}.
Implicit Types (w : World) (d : Z).

Lemma task_effect_not_DEL e : is_task_effect e ∨ is_transfer e → ¬ is_DEL e.
Proof. destruct e as [[] ? ? []| | | | | | | | | | | | | | | | | |]; simpl; tauto. Qed.

Lemma handle_waiters_effects b : ∀ fuel list_ node E matched w r w',
  handle_waiters fuel b list_ node E matched w = Some (r, w') →
  ∃ es, effects w' = effects w ++ es
        ∧ Forall (λ e, is_task_effect e ∨ is_transfer e) es.
Proof.
  induction fuel as [|fuel IH]; intros list_ node E matched w r w'; simpl; [done|].
  case_decide.
  { intros [= _ <-]. exists []. by rewrite app_nil_r. }
  destruct (negb _); [|apply IH].
  intros Hrun. apply IH in Hrun as (es & He & Hf). simpl in He.
  unfold IO_Event_Selector_fiber_transfer in He.
  match type of He with context [fibers_run b ?w0] =>
    destruct (fibers_run_effects b w0) as (es1 & He1 & Hf1);
    rewrite He1 in He
  end.
  match type of He with context [resumed b ?x ?how ?st ?w0] =>
    destruct (resumed_effects b x how st w0) as (es2 & He2 & Hf2);
    rewrite He2 in He
  end.
  simpl in He. rewrite He. eexists. rewrite <- !app_assoc. split; [done|].
  apply Forall_app. split; [repeat constructor; simpl; tauto|].
  apply Forall_app. split; [eapply Forall_impl; [exact Hf2|tauto]|].
  apply Forall_app. split; [eapply Forall_impl; [exact Hf1|tauto]|done].
Qed.

(** A dispatch on a record whose mask is set never calls [EPOLL_CTL_DEL]. *)
Lemma EPoll_handle_no_DEL fuel event w r w' :
  descriptor_mask w (data_fd event) ≠ 0 →
  IO_Event_Selector_EPoll_handle fuel event w = Some (r, w') →
  ∃ es, effects w' = effects w ++ es ∧ Forall (λ e, ¬ is_DEL e) es.
Proof.
  intros Hm. unfold IO_Event_Selector_EPoll_handle.
  destruct (EPoll.IO_Event_Selector_EPoll_Descriptor_lookup _) as [list_|e].
  2:{ intros [= _ <-]. exists []. by rewrite app_nil_r. }
  destruct (handle_waiters _ _ _ _ _ _ _) as [[matched w1]|] eqn:Hrun; [|done].
  pose proof (EPoll_handle_waiters_mask _ _ _ _ _ _ _ _ (data_fd event) Hrun) as Hle.
  apply handle_waiters_effects in Hrun as (es & He & Hf). simpl in He, Hle.
  assert (Forall (λ e, ¬ is_DEL e) es) as Hf'.
  { eapply Forall_impl; [exact Hf|]. apply task_effect_not_DEL. }
  apply (mask_le_zero _ _ Hle) in Hm. apply Z.eqb_neq in Hm.
  destruct (negb (_ =? matched)); [rewrite Hm|]; simpl; intros [= _ <-]; simpl.
  - rewrite He. eexists. rewrite <- app_assoc. split; [done|].
    apply Forall_app. split; [done|]. repeat constructor. simpl. tauto.
  - by exists es.
Qed.

(** C10.  Across any sequence of [io_wait] calls, waiters leaving and
    dispatches, the armed mask of an epoll descriptor record never loses a
    bit: a mask that is not zero stays so.  An [io_wait] that had to arm
    and succeeded leaves the mask not zero.  A dispatch re-arms with the
    mask as the record has it, and on a record whose mask is not zero it
    never calls [EPOLL_CTL_DEL]; so after a successful arming by [io_wait]
    no later dispatch on that descriptor does. *)
Theorem EPoll_mask_never_decreases :
  (∀ w w', rtc EPoll_step w w' →
     ∀ d, mask_le (descriptor_mask w d) (descriptor_mask w' d))
  ∧ (∀ w w' d, rtc EPoll_step w w' →
       descriptor_mask w d ≠ 0 → descriptor_mask w' d ≠ 0)
  ∧ (∀ frame fiber io ev kernel w,
       0 ≤ io → NUM2INT (Fixnum ev) = Some ev →
       Z.land (descriptor_mask w io) ev ≠ ev → kernel = Success →
       descriptor_mask
         (snd (EPoll.IO_Event_Selector_EPoll_io_wait frame fiber io (Fixnum ev)
                 kernel w)) io ≠ 0)
  ∧ (∀ x how w,
       descriptor_mask (snd (EPoll.io_wait_resumed x how w)) = descriptor_mask w)
  ∧ (∀ fuel event w r w',
       descriptor_mask w (data_fd event) ≠ 0 →
       IO_Event_Selector_EPoll_handle fuel event w = Some (r, w') →
       ∃ es, effects w' = effects w ++ es ∧ Forall (λ e, ¬ is_DEL e) es)
  ∧ (∀ frame fiber io ev w w2 fuel flags r w3,
       0 ≤ io → NUM2INT (Fixnum ev) = Some ev →
       Z.land (descriptor_mask w io) ev ≠ ev →
       rtc EPoll_step
         (snd (EPoll.IO_Event_Selector_EPoll_io_wait frame fiber io (Fixnum ev)
                 Success w)) w2 →
       IO_Event_Selector_EPoll_handle fuel {| events := flags; data_fd := io |} w2
       = Some (r, w3) →
       ∃ es, effects w3 = effects w2 ++ es ∧ Forall (λ e, ¬ is_DEL e) es).
Proof.
  assert (∀ w w', rtc EPoll_step w w' →
            ∀ d, mask_le (descriptor_mask w d) (descriptor_mask w' d)) as Hmono.
  { induction 1 as [w|w1 w2 w3 Hstep _ IH]; intros d; [apply mask_le_refl|].
    eapply mask_le_trans; [|apply IH].
    destruct Hstep as [w a|w fuel event r w' Hrun].
    - apply EPoll_perform_mask.
    - by eapply EPoll_handle_mask. }
  assert (∀ frame fiber io ev kernel w,
            0 ≤ io → NUM2INT (Fixnum ev) = Some ev →
            Z.land (descriptor_mask w io) ev ≠ ev → kernel = Success →
            descriptor_mask
              (snd (EPoll.IO_Event_Selector_EPoll_io_wait frame fiber io
                      (Fixnum ev) kernel w)) io ≠ 0) as Harm.
  { intros frame fiber io ev kernel w Hio Hev Hcov ->.
    rewrite EPoll_io_wait_arming by done. simpl. rewrite decide_True by done.
    intros Hz. apply Z.lor_eq_0_iff in Hz as [Hz ->]. apply Hcov.
    by rewrite Z.land_0_r. }
  split_and!; [done| |done|done| |].
  - intros w w' d Hsteps. apply mask_le_zero, Hmono, Hsteps.
  - intros. by eapply EPoll_handle_no_DEL.
  - intros frame fiber io ev w w2 fuel flags r w3 Hio Hev Hcov Hsteps Hrun.
    eapply EPoll_handle_no_DEL; [|exact Hrun]. simpl.
    eapply mask_le_zero; [by apply Hmono|]. by apply Harm.
Qed.
End claims_masks.


(** * The accumulator of a kqueue descriptor record *)

Section ready.
Context `{Platform}.
Implicit Types (w : World) (d : Z).

(** The accumulator of [d] after the first loop of [select] over
    [events_]. *)
Definition accumulated (d : Z) (events_ : list KQueue_select.kevent)
    (ready : Z) : Z :=
  foldl (λ acc event,
           if decide (KQueue_select.udata event = Some d)
           then Z.lor acc (KQueue.events_from_kevent_filter
                             (KQueue_select.filter event))
           else acc)
        ready events_.

Lemma accumulate_mask events_ : ∀ w d,
  descriptor_mask (KQueue_select.accumulate events_ w) d
  = accumulated d events_ (descriptor_mask w d).
Proof.
  unfold accumulated.
  induction events_ as [|event events_ IH]; intros w d; simpl; [done|].
  destruct (KQueue_select.udata event) as [d'|]; rewrite IH; simpl.
  - repeat case_decide; congruence.
  - done.
Qed.

Lemma KQueue_handle_idle fuel ident d w :
  descriptor_mask w d = 0 → IO_Event_Selector_KQueue_handle fuel ident d w = Some w.
Proof. intros Hz. unfold IO_Event_Selector_KQueue_handle. by rewrite Hz. Qed.

Lemma KQueue_dispatch_skips fuel d events_ : ∀ w,
  descriptor_mask w d = 0 →
  KQueue_select.dispatch fuel events_ w
  = KQueue_select.dispatch fuel
      (filter (λ event, KQueue_select.udata event ≠ Some d) events_) w.
Proof.
  induction events_ as [|event events_ IH]; intros w Hz; [done|].
  rewrite filter_cons. destruct (decide _) as [Hne|Heq]; simpl.
  - destruct (KQueue_select.udata event) as [d'|]; [|by apply IH].
    destruct (IO_Event_Selector_KQueue_handle _ _ _ _) as [w1|] eqn:Hrun; [|done].
    apply IH. apply KQueue_handle_mask in Hrun as [_ Hother].
    rewrite Hother; [done|congruence].
  - apply dec_stable in Heq. rewrite Heq.
    rewrite KQueue_handle_idle by done. by apply IH.
Qed.

End ready.


(** * Reading and writing through a buffer *)

(** [size_t] and [ssize_t] hold 64 bits; arithmetic on [size_t] wraps. *)
Definition size_t (z : Z) : Z := z mod 2 ^ 64.
Definition ssize_t (z : Z) : Z := (z + 2 ^ 63) mod 2 ^ 64 - 2 ^ 63.

(** [NUM2SIZET] is defined on the integers that fit a [size_t]; on every
    other value the host raises. *)
Definition NUM2SIZET (v : VALUE) : option Z :=
  match v with
  | Fixnum n => if (0 <=? n) && (n <? 2 ^ 64) then Some n else None
  | _ => None
  end.

(** The two arguments that the loops hand to
    [rb_fiber_scheduler_io_result]. *)
Inductive io_result : Type :=
| rb_fiber_scheduler_io_result (result_ : Z) (error : Z).

#[global] Instance io_result_eq_dec : EqDecision io_result.
Proof. solve_decision. Defined.

(** One turn of a loop as the world outside decides it: what [read] or
    [write] answers, with the [errno] it leaves, and, should the loop wait,
    what the arming system call answers and how the fiber is resumed. *)
Record Attempt : Type := {
  attempt_result : Z;
  attempt_errno : Z;
  attempt_kernel : SysResult;
  attempt_resumed : Resumption
}.

Section buffered.
Context `{Platform}.

(** A whole call of [io_wait] by a fiber that runs: up to the transfer,
    the other fibers while this one is suspended, and from the transfer
    on. *)
Definition io_wait_returns (b : Backend) (frame : nat) (fiber : VALUE)
    (io : Z) (events : VALUE) (kernel : SysResult) (how : Resumption)
    (w : World) : result VALUE * World :=
  match io_wait b frame fiber io events kernel w with
  | (Failed e, w) => (Raise e, w)
  | (Yielded v, w) => (Return v, w)
  | (Suspended, w) =>
    let w := fibers_run b w in
    match b with
    | EPoll => EPoll.io_wait_resumed (Wait frame) how w
    | KQueue => KQueue.io_wait_resumed (Wait frame) how w
    end
  end.
End buffered.

(** The buffer is given by its [size]; it is taken to be one that
    [rb_io_buffer_get_bytes_for_writing] and [..._for_reading] accept.
    [None]: the attempts ran out before the loop ended. *)
Module EPoll_io.
Section with_platform.
Context `{Platform}.
Variables (frame : nat) (fiber : VALUE) (io : Z) (descriptor : Z) (size : Z).

Fixpoint io_read_loop (attempts : list Attempt) (length offset : Z)
    (w : World) : option (result io_result * World) :=
  match attempts with
  | [] => None
  | attempt :: attempts =>
    let maximum_size := size_t (size - offset) in
    let w := emit (Sys_read descriptor offset maximum_size) w in
    let result_ := attempt_result attempt in
    let errno := attempt_errno attempt in
    if 0 <? result_ then
      let offset := size_t (offset + result_) in
      if length <=? result_
      then Some (Return (rb_fiber_scheduler_io_result (ssize_t offset) 0), w)
      else
        let length := length - result_ in
        io_read_loop attempts length offset w
    else if result_ =? 0 then
      Some (Return (rb_fiber_scheduler_io_result (ssize_t offset) 0), w)
    else if (0 <? length) && IO_Event_try_again errno then
      match io_wait_returns EPoll frame fiber io (INT2NUM IO_EVENT_READABLE)
              (attempt_kernel attempt) (attempt_resumed attempt) w with
      | (Raise e, w) => Some (Raise e, w)
      | (Return _, w) => io_read_loop attempts length offset w
      end
    else Some (Return (rb_fiber_scheduler_io_result (-1) errno), w)
  end.

Definition io_read_ensure (flags : Z) (w : World) : World :=
  emit (Host_nonblock_restore descriptor flags) w.

Fixpoint io_write_loop_body (attempts : list Attempt) (length offset : Z)
    (w : World) : option (result io_result * World) :=
  match attempts with
  | [] => None
  | attempt :: attempts =>
    let maximum_size := size_t (size - offset) in
    let w := emit (Sys_write descriptor offset maximum_size) w in
    let result_ := attempt_result attempt in
    let errno := attempt_errno attempt in
    if 0 <? result_ then
      let offset := size_t (offset + result_) in
      if length <=? result_
      then Some (Return (rb_fiber_scheduler_io_result (ssize_t offset) 0), w)
      else
        let length := length - result_ in
        io_write_loop_body attempts length offset w
    else if result_ =? 0 then
      Some (Return (rb_fiber_scheduler_io_result (ssize_t offset) 0), w)
    else if (0 <? length) && IO_Event_try_again errno then
      match io_wait_returns EPoll frame fiber io (INT2NUM IO_EVENT_WRITABLE)
              (attempt_kernel attempt) (attempt_resumed attempt) w with
      | (Raise e, w) => Some (Raise e, w)
      | (Return _, w) => io_write_loop_body attempts length offset w
      end
    else Some (Return (rb_fiber_scheduler_io_result (-1) errno), w)
  end.

(** [io_write_loop]: the check of the length, then its [while] loop. *)
Definition io_write_loop (attempts : list Attempt) (length offset : Z)
    (w : World) : option (result io_result * World) :=
  if size <? length then Some (Raise RuntimeError, w)
  else io_write_loop_body attempts length offset w.

Definition io_write_ensure (flags : Z) (w : World) : World :=
  emit (Host_nonblock_restore descriptor flags) w.
End with_platform.

Section with_platform.
Context `{Platform}.

(** [io] stands for its descriptor, [buffer] for the size of the buffer;
    [flags] is what [IO_Event_Selector_nonblock_set] returns. *)
Definition IO_Event_Selector_EPoll_io_read (attempts : list Attempt)
    (flags : Z) (frame : nat) (fiber : VALUE) (io : Z) (buffer : Z)
    (_length _offset : VALUE) (w : World)
  : option (result io_result * World) :=
  let descriptor := io in
  match NUM2SIZET _offset with
  | None => Some (Raise TypeError, w)
  | Some offset =>
    match NUM2SIZET _length with
    | None => Some (Raise TypeError, w)
    | Some length =>
      let w := emit (Host_nonblock_set descriptor) w in
      match io_read_loop frame fiber io descriptor buffer attempts
              length offset w with
      | None => None
      | Some (r, w) => Some (r, io_read_ensure descriptor flags w)
      end
    end
  end.

Definition IO_Event_Selector_EPoll_io_write (attempts : list Attempt)
    (flags : Z) (frame : nat) (fiber : VALUE) (io : Z) (buffer : Z)
    (_length _offset : VALUE) (w : World)
  : option (result io_result * World) :=
  let descriptor := io in
  match NUM2SIZET _length with
  | None => Some (Raise TypeError, w)
  | Some length =>
    match NUM2SIZET _offset with
    | None => Some (Raise TypeError, w)
    | Some offset =>
      let w := emit (Host_nonblock_set descriptor) w in
      match io_write_loop frame fiber io descriptor buffer attempts
              length offset w with
      | None => None
      | Some (r, w) => Some (r, io_write_ensure descriptor flags w)
      end
    end
  end.
End with_platform.
End EPoll_io.

Module KQueue_io.
Section with_platform.
Context `{Platform}.
Variables (frame : nat) (fiber : VALUE) (io : Z) (descriptor : Z) (size : Z).

Fixpoint io_read_loop (attempts : list Attempt) (length offset total : Z)
    (w : World) : option (result io_result * World) :=
  let maximum_size := size_t (size - offset) in
  if maximum_size =? 0
  then Some (Return (rb_fiber_scheduler_io_result (ssize_t total) 0), w)
  else
    match attempts with
    | [] => None
    | attempt :: attempts =>
      let w := emit (Sys_read descriptor offset maximum_size) w in
      let result_ := attempt_result attempt in
      let errno := attempt_errno attempt in
      if 0 <? result_ then
        let total := size_t (total + result_) in
        let offset := size_t (offset + result_) in
        if length <=? result_
        then Some (Return (rb_fiber_scheduler_io_result (ssize_t total) 0), w)
        else
          let length := length - result_ in
          io_read_loop attempts length offset total w
      else if result_ =? 0 then
        Some (Return (rb_fiber_scheduler_io_result (ssize_t total) 0), w)
      else if (0 <? length) && IO_Event_try_again errno then
        match io_wait_returns KQueue frame fiber io (INT2NUM IO_EVENT_READABLE)
                (attempt_kernel attempt) (attempt_resumed attempt) w with
        | (Raise e, w) => Some (Raise e, w)
        | (Return _, w) => io_read_loop attempts length offset total w
        end
      else Some (Return (rb_fiber_scheduler_io_result (-1) errno), w)
    end.

Definition io_read_ensure (flags : Z) (w : World) : World :=
  emit (Host_nonblock_restore descriptor flags) w.

Fixpoint io_write_loop_body (attempts : list Attempt)
    (length offset total : Z) (w : World)
  : option (result io_result * World) :=
  let maximum_size := size_t (size - offset) in
  if maximum_size =? 0
  then Some (Return (rb_fiber_scheduler_io_result (ssize_t total) 0), w)
  else
    match attempts with
    | [] => None
    | attempt :: attempts =>
      let w := emit (Sys_write descriptor offset maximum_size) w in
      let result_ := attempt_result attempt in
      let errno := attempt_errno attempt in
      if 0 <? result_ then
        let total := size_t (total + result_) in
        let offset := size_t (offset + result_) in
        if length <=? result_
        then Some (Return (rb_fiber_scheduler_io_result (ssize_t total) 0), w)
        else
          let length := length - result_ in
          io_write_loop_body attempts length offset total w
      else if result_ =? 0 then
        Some (Return (rb_fiber_scheduler_io_result (ssize_t total) 0), w)
      else if (0 <? length) && IO_Event_try_again errno then
        match io_wait_returns KQueue frame fiber io (INT2NUM IO_EVENT_READABLE)
                (attempt_kernel attempt) (attempt_resumed attempt) w with
        | (Raise e, w) => Some (Raise e, w)
        | (Return _, w) => io_write_loop_body attempts length offset total w
        end
      else Some (Return (rb_fiber_scheduler_io_result (-1) errno), w)
    end.

(** [io_write_loop]: the check of the length, then its [while] loop. *)
Definition io_write_loop (attempts : list Attempt) (length offset : Z)
    (w : World) : option (result io_result * World) :=
  let total := 0 in
  if size <? length then Some (Raise RuntimeError, w)
  else io_write_loop_body attempts length offset total w.

Definition io_write_ensure (flags : Z) (w : World) : World :=
  emit (Host_nonblock_restore descriptor flags) w.
End with_platform.

Section with_platform.
Context `{Platform}.

Definition IO_Event_Selector_KQueue_io_read (attempts : list Attempt)
    (flags : Z) (frame : nat) (fiber : VALUE) (io : Z) (buffer : Z)
    (_length _offset : VALUE) (w : World)
  : option (result io_result * World) :=
  let descriptor := io in
  match NUM2SIZET _length with
  | None => Some (Raise TypeError, w)
  | Some length =>
    match NUM2SIZET _offset with
    | None => Some (Raise TypeError, w)
    | Some offset =>
      let w := emit (Host_nonblock_set descriptor) w in
      match io_read_loop frame fiber io descriptor buffer attempts
              length offset 0 w with
      | None => None
      | Some (r, w) => Some (r, io_read_ensure descriptor flags w)
      end
    end
  end.

Definition IO_Event_Selector_KQueue_io_write (attempts : list Attempt)
    (flags : Z) (frame : nat) (fiber : VALUE) (io : Z) (buffer : Z)
    (_length _offset : VALUE) (w : World)
  : option (result io_result * World) :=
  let descriptor := io in
  match NUM2SIZET _length with
  | None => Some (Raise TypeError, w)
  | Some length =>
    match NUM2SIZET _offset with
    | None => Some (Raise TypeError, w)
    | Some offset =>
      let w := emit (Host_nonblock_set descriptor) w in
      match io_write_loop frame fiber io descriptor buffer attempts
              length offset w with
      | None => None
      | Some (r, w) => Some (r, io_write_ensure descriptor flags w)
      end
    end
  end.
End with_platform.
End KQueue_io.

(** * The claims on a concrete platform *)

Section examples.
#[local] Existing Instance example_platform.

Lemma settled_fresh t d : settled (fresh t) d [].
Proof.
  exists (λ _, []). split; [apply Inv_fresh|]. split; [done|].
  intros e. apply not_elem_of_nil.
Qed.

(** Descriptor 3 with one waiter, for [IO_EVENT_WRITABLE]. *)
Definition one_writer : World :=
  snd (EPoll.IO_Event_Selector_EPoll_io_wait 1 (Object 1) 3
         (INT2NUM IO_EVENT_WRITABLE) Success (fresh [])).

Lemma one_writer_settled : settled one_writer 3 [Wait 1%nat].
Proof. by apply (settled_link (fresh []) _ 3 [] 1%nat (settled_fresh [] 3)). Qed.

(** Descriptor 3 with three waiters: for [IO_EVENT_READABLE], for
    [IO_EVENT_WRITABLE] and for both. *)
Definition one_reader : World :=
  snd (EPoll.IO_Event_Selector_EPoll_io_wait 1 (Object 1) 3
         (INT2NUM IO_EVENT_READABLE) Success (fresh [])).

Definition two_waiters : World :=
  snd (EPoll.IO_Event_Selector_EPoll_io_wait 2 (Object 2) 3
         (INT2NUM IO_EVENT_WRITABLE) Success one_reader).

Definition three_waiters : World :=
  snd (EPoll.IO_Event_Selector_EPoll_io_wait 3 (Object 3) 3
         (INT2NUM (Z.lor IO_EVENT_READABLE IO_EVENT_WRITABLE)) Success
         two_waiters).

Lemma three_waiters_settled :
  settled three_waiters 3 [Wait 3%nat; Wait 2%nat; Wait 1%nat].
Proof.
  apply (settled_link two_waiters _ 3 _ 3%nat); [|done..].
  apply (settled_link one_reader _ 3 _ 2%nat); [|done..].
  by apply (settled_link (fresh []) _ 3 [] 1%nat (settled_fresh [] 3)).
Qed.

(** A child process 42 waited for through the descriptor 5 (epoll.c), and
    through its own pid (kqueue.c). *)
Definition one_child : World :=
  snd (EPoll.IO_Event_Selector_EPoll_process_wait 1 (Object 1) 42 (inl 5)
         Success (fresh [])).

Definition one_child_kqueue : World :=
  snd (KQueue.IO_Event_Selector_KQueue_process_wait 1 (Object 1) 42
         Success (fresh [])).

(** A [read] or [write] that transfers [n] bytes, and one that would
    block. *)
Definition transfers_bytes (n : Z) : Attempt :=
  {| attempt_result := n; attempt_errno := 0; attempt_kernel := Success;
     attempt_resumed := resumed_with (INT2NUM IO_EVENT_READABLE) |}.

Definition would_block (events : Z) : Attempt :=
  {| attempt_result := -1; attempt_errno := 11; attempt_kernel := Success;
     attempt_resumed := resumed_with (INT2NUM events) |}.

(** What is seen of a call: its result, the calls it made, and the events
    that the waiter of frame 0 asked for. *)
Definition seen (r : option (result io_result * World))
  : option (result io_result * list Effect * Z) :=
  option_map
    (λ r, (fst r, effects (snd r), waiting_events (waiting (snd r) (Wait 0))))
    r.

Lemma handle_resumes_matching_waiters_witness :
  settled three_waiters 3 [Wait 3%nat; Wait 2%nat; Wait 1%nat]
  ∧ (length [Wait 3%nat; Wait 2%nat; Wait 1%nat] < 4)%nat
  ∧ (∃ w' resumed_ left,
       IO_Event_Selector_EPoll_handle 4 {| events := EPOLLOUT; data_fd := 3 |}
         three_waiters = Some (Return (), w')
       ∧ dispatched (EPoll.events_from_epoll_flags EPOLLOUT) 3
           [Wait 3%nat; Wait 2%nat; Wait 1%nat] three_waiters w' resumed_ left)
  ∧ (∃ w' resumed_ left,
       IO_Event_Selector_KQueue_handle 4 3 3 three_waiters = Some w'
       ∧ dispatched (descriptor_mask three_waiters 3) 3
           [Wait 3%nat; Wait 2%nat; Wait 1%nat] three_waiters w' resumed_ left).
Proof.
  pose proof three_waiters_settled as Hs.
  assert ((length [Wait 3%nat; Wait 2%nat; Wait 1%nat] < 4)%nat) as Hlen
    by (simpl; lia).
  destruct (handle_resumes_matching_waiters 4 three_waiters 3 _ Hs Hlen)
    as [He Hk].
  split; [exact Hs|]. split; [exact Hlen|]. split.
  - apply (He EPOLLOUT). vm_compute. discriminate.
  - apply (Hk 3).
Defined.

Lemma EPoll_io_wait_arms_then_links_witness :
  (0 ≤ 3 ∧ NUM2INT (Fixnum 4) = Some 4
   ∧ settled one_reader 3 [Wait 1%nat]
   ∧ head (memory one_reader (Wait 2)) = NULL)
  ∧ effects two_waiters
    = effects one_reader
      ++ [Sys_epoll_ctl EPOLL_CTL_MOD 3 (EPoll.epoll_flags_from_events 5)
            (Some Success)]
  ∧ descriptor_mask two_waiters 3 = 5
  ∧ settled two_waiters 3 [Wait 2%nat; Wait 1%nat]
  ∧ tail (memory two_waiters (Slot 3)) = Wait 2.
Proof.
  assert (0 ≤ 3) as H1 by (vm_compute; discriminate).
  assert (NUM2INT (Fixnum 4) = Some 4) as H2 by reflexivity.
  assert (settled one_reader 3 [Wait 1%nat]) as H3
    by (by apply (settled_link (fresh []) _ 3 [] 1%nat (settled_fresh [] 3))).
  assert (head (memory one_reader (Wait 2)) = NULL) as H4 by reflexivity.
  pose proof (EPoll_io_wait_arms_then_links 2 (Object 2) 3 4 Success
                one_reader _ H1 H2 H3 H4) as Hthm.
  cbv zeta in Hthm. destruct Hthm as [_ Harm].
  destruct Harm as (more & Heff & _ & Hok); [vm_compute; discriminate|].
  destruct (Hok eq_refl) as (-> & Hmask & _ & _ & Hset & Htail & _).
  split; [by split_and!|]. split; [exact Heff|]. split; [exact Hmask|].
  split; [exact Hset|exact Htail].
Defined.

Lemma EPoll_io_wait_EPERM_witness :
  (0 ≤ 3 ∧ NUM2INT (Fixnum 1) = Some 1
   ∧ Z.land (descriptor_mask (fresh []) 3) 1 ≠ 1
   ∧ head (memory (fresh []) (Wait 0)) = NULL)
  ∧ let r := EPoll.IO_Event_Selector_EPoll_io_wait 0 (Object 1) 3 (Fixnum 1)
               (Failure EPERM) (fresh []) in
    fst r = Yielded (Fixnum 1)
    ∧ ready_queue (snd r) = [Object 1]
    ∧ descriptor_mask (snd r) = descriptor_mask (fresh [])
    ∧ settled (snd r) 3 [].
Proof.
  assert (0 ≤ 3) as H1 by (vm_compute; discriminate).
  assert (NUM2INT (Fixnum 1) = Some 1) as H2 by reflexivity.
  assert (Z.land (descriptor_mask (fresh []) 3) 1 ≠ 1) as H3
    by (vm_compute; discriminate).
  assert (head (memory (fresh []) (Wait 0)) = NULL) as H4 by reflexivity.
  pose proof (EPoll_io_wait_EPERM 0 (Object 1) 3 (Fixnum 1) 1 (fresh [])
                H1 H2 H3 H4) as Hthm.
  cbv zeta in Hthm.
  destruct Hthm as (Hr & Hq & _ & Hmask & Hset & _).
  split; [by split_and!|]. cbv zeta.
  split; [exact Hr|]. split; [exact Hq|]. split; [exact Hmask|].
  apply Hset, settled_fresh.
Defined.

Lemma one_child_settled : settled one_child 5 ([] ++ Wait 1%nat :: []).
Proof. by apply (settled_link (fresh []) _ 5 [] 1%nat (settled_fresh [] 5)). Qed.

Lemma wait_primitives_unlink_on_every_exit_witness :
  (settled one_writer 3 ([] ++ Wait 1%nat :: [])
   ∧ settled one_child 5 ([] ++ Wait 1%nat :: []))
  ∧ (fst (EPoll.io_wait_resumed (Wait 1) (resumed_with Qnil) one_writer)
     = Return Qfalse
     ∧ effects
         (snd (EPoll.io_wait_resumed (Wait 1) (resumed_with Qnil) one_writer))
       = effects one_writer
     ∧ settled
         (snd (EPoll.io_wait_resumed (Wait 1) (raised_into RuntimeError)
                 one_writer))
         3 ([] ++ []))
  ∧ (fst (EPoll.process_wait_resumed 42 5 (Wait 1) (resumed_with Qnil)
            (Object 7) one_child) = Return (Object 7)
     ∧ effects (snd (EPoll.process_wait_resumed 42 5 (Wait 1)
                       (resumed_with Qnil) (Object 7) one_child))
       = effects one_child ++ [Host_process_status_wait 42; Sys_close 5]
     ∧ settled
         (snd (EPoll.process_wait_resumed 42 5 (Wait 1) (resumed_with Qnil)
                 (Object 7) one_child))
         5 ([] ++ [])).
Proof.
  pose proof one_writer_settled as Hs.
  pose proof one_child_settled as Hc.
  destruct (wait_primitives_unlink_on_every_exit one_writer 3 [] (Wait 1) [] Hs)
    as (Hfalse & _ & _ & Hout).
  destruct (wait_primitives_unlink_on_every_exit one_child 5 [] (Wait 1) [] Hc)
    as (_ & Hstatus & _ & Hgone).
  destruct (Hfalse Qnil eq_refl) as (Hr & He & _).
  destruct (Hstatus Qnil (Object 7) 42 5) as (Hr' & He' & _).
  split; [by split|]. split; [split_and!; [exact Hr|exact He|]|].
  - apply (Hout (raised_into RuntimeError) Qnil 0 0). by left.
  - split_and!; [exact Hr'|exact He'|].
    apply (Hgone (resumed_with Qnil) (Object 7) 42 5). right. right. by left.
Defined.

(** C5, as it was stated, fails for [process_wait]: resumed with [nil]
    while the child has a status to report, it asks the host for that
    status and returns it, and epoll.c then closes its descriptor. *)
Lemma process_wait_resumed_with_nil_reaps :
  RTEST Qnil = false
  ∧ RTEST (Object 7) = true
  ∧ fst (EPoll.process_wait_resumed 42 5 (Wait 1) (resumed_with Qnil)
           (Object 7) one_child) = Return (Object 7)
  ∧ effects (snd (EPoll.process_wait_resumed 42 5 (Wait 1) (resumed_with Qnil)
                    (Object 7) one_child))
    = effects one_child ++ [Host_process_status_wait 42; Sys_close 5]
  ∧ fst (KQueue.process_wait_resumed 42 (Wait 1) (resumed_with Qnil)
           (Object 7) one_child_kqueue) = Return (Object 7)
  ∧ effects (snd (KQueue.process_wait_resumed 42 (Wait 1) (resumed_with Qnil)
                    (Object 7) one_child_kqueue))
    = effects one_child_kqueue ++ [Host_process_status_wait 42].
Proof. by vm_compute. Qed.

(** C2.  Descriptor 3 is armed for [IO_EVENT_WRITABLE] with one waiter; the
    kernel reports [EPOLLOUT | EPOLLHUP].  The handler resumes the waiter,
    which unlinks itself, so that no waiter is left; the recorded mask is
    still [IO_EVENT_WRITABLE], and the handler calls [epoll_ctl] with
    [EPOLL_CTL_MOD] and the very flags of the first arming: neither a
    narrower mask nor [EPOLL_CTL_DEL]. *)
Theorem EPoll_handle_rearms_the_recorded_mask :
  option_map
    (λ r, (effects (snd r), descriptor_mask (snd r) 3,
           tail (memory (snd r) (Slot 3))))
    (IO_Event_Selector_EPoll_handle 2
       {| events := Z.lor EPOLLOUT EPOLLHUP; data_fd := 3 |} one_writer)
  = Some ([Sys_epoll_ctl EPOLL_CTL_ADD 3
             (EPoll.epoll_flags_from_events IO_EVENT_WRITABLE) (Some Success);
           Host_fiber_transfer (Object 1) [INT2NUM IO_EVENT_WRITABLE];
           Sys_epoll_ctl EPOLL_CTL_MOD 3
             (EPoll.epoll_flags_from_events IO_EVENT_WRITABLE) None],
          IO_EVENT_WRITABLE, Slot 3).
Proof. by vm_compute. Qed.

(** C6.  A buffer of 10 bytes, a read of 3 bytes at offset 4, and [read]
    answers 3: epoll.c returns 7, the offset it reached, where kqueue.c
    returns 3, the number of bytes read. *)
Theorem EPoll_io_read_returns_the_offset :
  seen (EPoll_io.IO_Event_Selector_EPoll_io_read [transfers_bytes 3] 2 0
          (Object 1) 3 10 (Fixnum 3) (Fixnum 4) (fresh []))
  = Some (Return (rb_fiber_scheduler_io_result 7 0),
          [Host_nonblock_set 3; Sys_read 3 4 6; Host_nonblock_restore 3 2], 0)
  ∧ seen (KQueue_io.IO_Event_Selector_KQueue_io_read [transfers_bytes 3] 2 0
            (Object 1) 3 10 (Fixnum 3) (Fixnum 4) (fresh []))
    = Some (Return (rb_fiber_scheduler_io_result 3 0),
            [Host_nonblock_set 3; Sys_read 3 4 6; Host_nonblock_restore 3 2], 0).
Proof. by vm_compute. Qed.

(** C7.  A [write] of 8 bytes that would block once.  The write loop of
    kqueue.c waits for [IO_EVENT_READABLE] and arms [EVFILT_READ]; that of
    epoll.c waits for [IO_EVENT_WRITABLE].  The read loops of both wait for
    [IO_EVENT_READABLE]. *)
Theorem KQueue_io_write_waits_for_READABLE :
  seen (KQueue_io.IO_Event_Selector_KQueue_io_write
          [would_block IO_EVENT_READABLE; transfers_bytes 8] 2 0
          (Object 1) 3 8 (Fixnum 8) (Fixnum 0) (fresh []))
  = Some (Return (rb_fiber_scheduler_io_result 8 0),
          [Host_nonblock_set 3; Sys_write 3 0 8;
           Sys_kevent_register 3 [EVFILT_READ] Success;
           Sys_write 3 0 8; Host_nonblock_restore 3 2],
          IO_EVENT_READABLE)
  ∧ seen (EPoll_io.IO_Event_Selector_EPoll_io_write
            [would_block IO_EVENT_WRITABLE; transfers_bytes 8] 2 0
            (Object 1) 3 8 (Fixnum 8) (Fixnum 0) (fresh []))
    = Some (Return (rb_fiber_scheduler_io_result 8 0),
            [Host_nonblock_set 3; Sys_write 3 0 8;
             Sys_epoll_ctl EPOLL_CTL_ADD 3
               (EPoll.epoll_flags_from_events IO_EVENT_WRITABLE) (Some Success);
             Sys_write 3 0 8; Host_nonblock_restore 3 2],
            IO_EVENT_WRITABLE)
  ∧ seen (KQueue_io.IO_Event_Selector_KQueue_io_read
            [would_block IO_EVENT_READABLE; transfers_bytes 8] 2 0
            (Object 1) 3 8 (Fixnum 8) (Fixnum 0) (fresh []))
    = Some (Return (rb_fiber_scheduler_io_result 8 0),
            [Host_nonblock_set 3; Sys_read 3 0 8;
             Sys_kevent_register 3 [EVFILT_READ] Success;
             Sys_read 3 0 8; Host_nonblock_restore 3 2],
            IO_EVENT_READABLE)
  ∧ seen (EPoll_io.IO_Event_Selector_EPoll_io_read
            [would_block IO_EVENT_READABLE; transfers_bytes 8] 2 0
            (Object 1) 3 8 (Fixnum 8) (Fixnum 0) (fresh []))
    = Some (Return (rb_fiber_scheduler_io_result 8 0),
            [Host_nonblock_set 3; Sys_read 3 0 8;
             Sys_epoll_ctl EPOLL_CTL_ADD 3
               (EPoll.epoll_flags_from_events IO_EVENT_READABLE) (Some Success);
             Sys_read 3 0 8; Host_nonblock_restore 3 2],
            IO_EVENT_READABLE).
Proof. by vm_compute. Qed.
End examples.


(** * The four buffered loops as one *)

(** The loops of epoll.c and kqueue.c differ in the call they make, in the
    events they wait for, in whether they test the room that is left before
    each call, and in what they answer: the offset reached or the bytes
    counted. *)
Record Loop : Type := {
  loop_backend : Backend;
  loop_call : Z → Z → Z → Effect;
  loop_events : Z;
  loop_tests_room : bool;
  loop_counts : bool
}.

Definition loop_answer (L : Loop) (offset total : Z) : Z :=
  if loop_counts L then total else offset.

Fixpoint io_loop `{Platform} (L : Loop) (frame : nat) (fiber : VALUE)
    (io descriptor size : Z) (attempts : list Attempt)
    (length offset total : Z) (w : World)
  : option (result io_result * World) :=
  let maximum_size := size_t (size - offset) in
  if loop_tests_room L && (maximum_size =? 0)
  then Some (Return (rb_fiber_scheduler_io_result
                       (ssize_t (loop_answer L offset total)) 0), w)
  else
    match attempts with
    | [] => None
    | attempt :: attempts =>
      let w := emit (loop_call L descriptor offset maximum_size) w in
      let result_ := attempt_result attempt in
      let errno := attempt_errno attempt in
      if 0 <? result_ then
        let total := size_t (total + result_) in
        let offset := size_t (offset + result_) in
        if length <=? result_
        then Some (Return (rb_fiber_scheduler_io_result
                             (ssize_t (loop_answer L offset total)) 0), w)
        else
          io_loop L frame fiber io descriptor size attempts
            (length - result_) offset total w
      else if result_ =? 0 then
        Some (Return (rb_fiber_scheduler_io_result
                        (ssize_t (loop_answer L offset total)) 0), w)
      else if (0 <? length) && IO_Event_try_again errno then
        match io_wait_returns (loop_backend L) frame fiber io
                (INT2NUM (loop_events L)) (attempt_kernel attempt)
                (attempt_resumed attempt) w with
        | (Raise e, w) => Some (Raise e, w)
        | (Return _, w) =>
          io_loop L frame fiber io descriptor size attempts length offset
            total w
        end
      else Some (Return (rb_fiber_scheduler_io_result (-1) errno), w)
    end.

Section loops.
Context `{Platform}.

Definition EPoll_read : Loop :=
  {| loop_backend := EPoll; loop_call := Sys_read;
     loop_events := IO_EVENT_READABLE;
     loop_tests_room := false; loop_counts := false |}.

Definition EPoll_write : Loop :=
  {| loop_backend := EPoll; loop_call := Sys_write;
     loop_events := IO_EVENT_WRITABLE;
     loop_tests_room := false; loop_counts := false |}.

Definition KQueue_read : Loop :=
  {| loop_backend := KQueue; loop_call := Sys_read;
     loop_events := IO_EVENT_READABLE;
     loop_tests_room := true; loop_counts := true |}.

Definition KQueue_write : Loop :=
  {| loop_backend := KQueue; loop_call := Sys_write;
     loop_events := IO_EVENT_READABLE;
     loop_tests_room := true; loop_counts := true |}.

Ltac loop_cases IH :=
  simpl;
  repeat match goal with
         | |- context [if ?b then _ else _] => destruct b; simpl; try done
         | |- context [io_wait_returns ?b ?f ?fi ?io ?ev ?k ?h ?w] =>
           destruct (io_wait_returns b f fi io ev k h w) as [[?|?] ?]; simpl;
           try done
         end;
  try apply IH.

Lemma EPoll_io_read_loop_io_loop frame fiber io descriptor size attempts :
  ∀ length offset total w,
    EPoll_io.io_read_loop frame fiber io descriptor size attempts length offset w
    = io_loop EPoll_read frame fiber io descriptor size attempts length offset
        total w.
Proof.
  induction attempts as [|a attempts IH]; intros length offset total w;
    [done|]. loop_cases IH.
Qed.

Lemma EPoll_io_write_loop_body_io_loop frame fiber io descriptor size attempts :
  ∀ length offset total w,
    EPoll_io.io_write_loop_body frame fiber io descriptor size attempts length
      offset w
    = io_loop EPoll_write frame fiber io descriptor size attempts length offset
        total w.
Proof.
  induction attempts as [|a attempts IH]; intros length offset total w;
    [done|]. loop_cases IH.
Qed.

Lemma KQueue_io_read_loop_io_loop frame fiber io descriptor size attempts :
  ∀ length offset total w,
    KQueue_io.io_read_loop frame fiber io descriptor size attempts length offset
      total w
    = io_loop KQueue_read frame fiber io descriptor size attempts length offset
        total w.
Proof.
  induction attempts as [|a attempts IH]; intros length offset total w;
    loop_cases IH.
Qed.

Lemma KQueue_io_write_loop_body_io_loop frame fiber io descriptor size attempts :
  ∀ length offset total w,
    KQueue_io.io_write_loop_body frame fiber io descriptor size attempts length
      offset total w
    = io_loop KQueue_write frame fiber io descriptor size attempts length offset
        total w.
Proof.
  induction attempts as [|a attempts IH]; intros length offset total w;
    loop_cases IH.
Qed.
End loops.

(** * What the buffered loops do *)

Definition is_transfer_call (e : Effect) : Prop :=
  match e with
  | Sys_read _ _ _ | Sys_write _ _ _ => True
  | _ => False
  end.

#[global] Instance is_transfer_call_dec e : Decision (is_transfer_call e).
Proof. destruct e; simpl; apply _. Defined.

(** The [read] and [write] calls, in order. *)
Definition transfer_calls (l : list Effect) : list Effect :=
  filter is_transfer_call l.

(** The bytes that a call moved, and those that a run of calls moved. *)
Definition moved (a : Attempt) : Z := Z.max 0 (attempt_result a).

Definition moved_by (used : list Attempt) : Z :=
  foldr (λ a n, moved a + n) 0 used.

(** The calls of a loop that starts at [offset] and whose calls [used]
    answers: each begins where the one before ended and asks for all that
    is left of the buffer. *)
Fixpoint calls_of (call : Z → Z → Z → Effect) (fd size offset : Z)
    (used : list Attempt) : list Effect :=
  match used with
  | [] => []
  | a :: used =>
    call fd offset (size - offset) :: calls_of call fd size (offset + moved a) used
  end.

(** The kernel moves no more bytes than the count it is given. *)
Fixpoint kernel_obeys (room : Z) (attempts : list Attempt) : Prop :=
  match attempts with
  | [] => True
  | a :: attempts =>
    attempt_result a ≤ room ∧ kernel_obeys (room - moved a) attempts
  end.

Definition transfers_data (L : Loop) : Prop :=
  ∀ fd offset count, is_transfer_call (loop_call L fd offset count).

Section loop_facts.
Context `{Platform}.
Implicit Types (w : World) (L : Loop) (a : Attempt).

Lemma size_t_small x : 0 ≤ x < 2 ^ 64 → size_t x = x.
Proof. intros. unfold size_t. by apply Z.mod_small. Qed.

Lemma ssize_t_small x : - 2 ^ 63 ≤ x < 2 ^ 63 → ssize_t x = x.
Proof. intros. unfold ssize_t. rewrite Z.mod_small; lia. Qed.

Lemma moved_positive a : 0 < attempt_result a → moved a = attempt_result a.
Proof. unfold moved. lia. Qed.

Lemma moved_none a : attempt_result a ≤ 0 → moved a = 0.
Proof. unfold moved. lia. Qed.

Lemma moved_by_nonneg used : 0 ≤ moved_by used.
Proof. induction used as [|a used IH]; simpl; unfold moved; lia. Qed.

Lemma task_effects_no_calls es :
  Forall is_task_effect es → transfer_calls es = [].
Proof.
  unfold transfer_calls. induction 1 as [|e es He _ IH]; [done|].
  rewrite filter_cons_False; [done|]. destruct e; simpl in *; tauto.
Qed.

Lemma io_wait_returns_effects b frame fiber io events_ kernel how w :
  ∃ es, effects (snd (io_wait_returns b frame fiber io events_ kernel how w))
        = effects w ++ es
        ∧ Forall is_task_effect es.
Proof.
  unfold io_wait_returns.
  destruct (io_wait_effects b frame fiber io events_ kernel w) as (es & He & Hf).
  destruct (io_wait b frame fiber io events_ kernel w) as [[| |] w1];
    simpl in *; try by exists es.
  destruct (fibers_run_effects b w1) as (es' & He' & Hf').
  exists (es ++ es'). split; [|by apply Forall_app].
  destruct b; simpl; by rewrite He', He, app_assoc.
Qed.

(** Every effect of a loop is a call of its own or the effect of a wait. *)
Lemma io_loop_effects L frame fiber io descriptor size attempts :
  ∀ length offset total w r w',
    io_loop L frame fiber io descriptor size attempts length offset total w
    = Some (r, w') →
    ∃ es, effects w' = effects w ++ es
          ∧ Forall (λ e, is_task_effect e
                         ∨ ∃ o c, e = loop_call L descriptor o c) es.
Proof.
  induction attempts as [|a attempts IH];
    intros length offset total w r w' Hrun; simpl in Hrun;
    destruct (loop_tests_room L && _);
    try (injection Hrun as <- <-; exists []; by rewrite app_nil_r);
    try done.
  set (call := loop_call L descriptor offset (size_t (size - offset))) in *.
  assert (∀ w1 es1,
            effects w1 = effects (emit call w) ++ es1 →
            Forall is_task_effect es1 →
            (∃ es, effects w1 = effects w ++ es
                   ∧ Forall (λ e, is_task_effect e
                                  ∨ ∃ o c, e = loop_call L descriptor o c) es))
    as Hone.
  { intros w1 es1 -> Hf. exists (call :: es1). simpl.
    rewrite <- app_assoc. split; [done|]. constructor; [right; by eexists _, _|].
    eapply Forall_impl; [exact Hf|]. by left. }
  assert (∀ w1 es1 length offset total,
            effects w1 = effects (emit call w) ++ es1 →
            Forall is_task_effect es1 →
            io_loop L frame fiber io descriptor size attempts length offset
              total w1 = Some (r, w') →
            (∃ es, effects w' = effects w ++ es
                   ∧ Forall (λ e, is_task_effect e
                                  ∨ ∃ o c, e = loop_call L descriptor o c) es))
    as Hmore.
  { intros w1 es1 length' offset' total' He Hf Hrest.
    destruct (IH _ _ _ _ _ _ Hrest) as (es2 & He2 & Hf2).
    exists (call :: es1 ++ es2). rewrite He2, He. simpl.
    rewrite <- !app_assoc. split; [done|].
    constructor; [right; by eexists _, _|]. apply Forall_app. split; [|done].
    eapply Forall_impl; [exact Hf|]. by left. }
  destruct (0 <? attempt_result a).
  { destruct (length <=? attempt_result a).
    - injection Hrun as <- <-. apply (Hone _ []); [by rewrite app_nil_r|done].
    - eapply (Hmore _ []); [by rewrite app_nil_r|done|exact Hrun]. }
  destruct (attempt_result a =? 0).
  { injection Hrun as <- <-. apply (Hone _ []); [by rewrite app_nil_r|done]. }
  destruct ((0 <? length) && IO_Event_try_again (attempt_errno a)).
  - destruct (io_wait_returns_effects (loop_backend L) frame fiber io
                (INT2NUM (loop_events L)) (attempt_kernel a)
                (attempt_resumed a) (emit call w)) as (es1 & He1 & Hf1).
    destruct (io_wait_returns _ _ _ _ _ _ _ _) as [[v|e] w1]; simpl in He1.
    + by eapply Hmore.
    + injection Hrun as <- <-. by eapply Hone.
  - injection Hrun as <- <-. apply (Hone _ []); [by rewrite app_nil_r|done].
Qed.
End loop_facts.

(** How a loop ended when it answered [(n, e)]: well, with the bytes asked
    for moved, or at the end of the data, or (kqueue.c) with the buffer
    full; or with the error of its last call. *)
Definition ended `{Platform} (L : Loop) (size length offset total : Z)
    (used : list Attempt) (n e : Z) : Prop :=
  (e = 0
   ∧ n = loop_answer L (offset + moved_by used) (total + moved_by used)
   ∧ (length ≤ moved_by used
      ∨ (∃ a, last used = Some a ∧ attempt_result a = 0)
      ∨ (loop_tests_room L = true ∧ offset + moved_by used = size)))
  ∨ (n = -1
     ∧ ∃ a, last used = Some a ∧ attempt_result a < 0 ∧ e = attempt_errno a
            ∧ (length - moved_by used ≤ 0
               ∨ IO_Event_try_again (attempt_errno a) = false)).

Section loop_spec.
Context `{Platform}.
Implicit Types (w : World) (L : Loop) (a : Attempt).

Lemma transfer_calls_cons L fd o c es :
  transfers_data L →
  transfer_calls (loop_call L fd o c :: es)
  = loop_call L fd o c :: transfer_calls es.
Proof. intros HL. unfold transfer_calls. by rewrite filter_cons_True. Qed.

Lemma transfer_calls_app es1 es2 :
  transfer_calls (es1 ++ es2) = transfer_calls es1 ++ transfer_calls es2.
Proof. apply filter_app. Qed.

Lemma loop_answer_small L offset total :
  0 ≤ total ≤ offset → offset < 2 ^ 63 →
  ssize_t (loop_answer L offset total) = loop_answer L offset total.
Proof.
  intros. apply ssize_t_small. unfold loop_answer. destruct (loop_counts L); lia.
Qed.

Lemma io_loop_spec L frame fiber io descriptor size attempts :
  transfers_data L → size < 2 ^ 63 →
  ∀ length offset total w r w',
    0 ≤ total ≤ offset → offset ≤ size →
    kernel_obeys (size - offset) attempts →
    io_loop L frame fiber io descriptor size attempts length offset total w
    = Some (r, w') →
    ∃ used rest es,
      attempts = used ++ rest
      ∧ effects w' = effects w ++ es
      ∧ transfer_calls es = calls_of (loop_call L) descriptor size offset used
      ∧ ∀ n e, r = Return (rb_fiber_scheduler_io_result n e) →
               ended L size length offset total used n e.
Proof.
  intros HL Hsize.
  induction attempts as [|a attempts IH];
    intros length offset total w r w' Htot Hoff Hobey Hrun; simpl in Hrun;
    rewrite (size_t_small (size - offset)) in Hrun by lia.
  - destruct (loop_tests_room L) eqn:Hroom; simpl in Hrun; [|done].
    destruct (size - offset =? 0) eqn:Hfull; [|done].
    apply Z.eqb_eq in Hfull. injection Hrun as <- <-.
    exists [], [], []. split_and!; [done|by rewrite app_nil_r|done|].
    intros n e [= <- <-]. left. simpl. rewrite !Z.add_0_r.
    split_and!; [done|by apply loop_answer_small; lia|].
    right; right. split; [done|lia].
  - destruct (loop_tests_room L && (size - offset =? 0)) eqn:Hroom.
    { apply andb_true_iff in Hroom as [Hroom Hfull].
      apply Z.eqb_eq in Hfull. injection Hrun as <- <-.
      exists [], (a :: attempts), []. split_and!; [done|by rewrite app_nil_r|done|].
      intros n e [= <- <-]. left. simpl. rewrite !Z.add_0_r.
      split_and!; [done|by apply loop_answer_small; lia|].
      right; right. split; [done|lia]. }
    clear Hroom. destruct Hobey as [Hres Hobey].
    set (call := loop_call L descriptor offset (size - offset)) in *.
    destruct (0 <? attempt_result a) eqn:Hpos.
    { apply Z.ltb_lt in Hpos.
      rewrite (size_t_small (offset + _)), (size_t_small (total + _)) in Hrun
        by lia.
      pose proof (moved_positive a Hpos) as Hmoved.
      destruct (length <=? attempt_result a) eqn:Hlen.
      - apply Z.leb_le in Hlen. injection Hrun as <- <-.
        exists [a], attempts, [call]. split_and!; try done.
        + unfold call. by rewrite transfer_calls_cons.
        + intros n e [= <- <-]. left. simpl. rewrite Hmoved, !Z.add_0_r.
          split_and!; [done|by apply loop_answer_small; lia|]. by left.
      - apply Z.leb_gt in Hlen.
        destruct (IH (length - attempt_result a) (offset + attempt_result a)
                    (total + attempt_result a) (emit call w) r w')
          as (used & rest & es & -> & He & Hcalls & Hend);
          [lia|lia| |done|].
        { rewrite Hmoved in Hobey.
          by replace (size - (offset + attempt_result a))
            with (size - offset - attempt_result a) by lia. }
        exists (a :: used), rest, (call :: es). split_and!; [done| | |].
        + rewrite He. simpl. by rewrite <- app_assoc.
        + unfold call. rewrite transfer_calls_cons by done. simpl.
          by rewrite Hcalls, Hmoved.
        + intros n e Hr. pose proof (moved_by_nonneg used) as Hnn.
          destruct (Hend n e Hr) as [(-> & -> & Hwhy)|(-> & b & Hlast & Hb & -> & Hwhy)].
          * left. simpl. rewrite Hmoved, !Z.add_assoc.
            split_and!; [done..|].
            destruct Hwhy as [?|[(b & Hlast & Hb)|[? ?]]].
            -- left. lia.
            -- right; left. exists b. split; [|done].
               destruct used; [done|by rewrite last_cons, Hlast].
            -- right; right. split; [done|lia].
          * right. split; [done|]. exists b. split_and!; try done.
            -- destruct used; [done|by rewrite last_cons, Hlast].
            -- simpl. rewrite Hmoved. destruct Hwhy; [left; lia|by right]. }
    apply Z.ltb_ge in Hpos.
    pose proof (moved_none a Hpos) as Hmoved.
    destruct (attempt_result a =? 0) eqn:Hzero.
    { apply Z.eqb_eq in Hzero. injection Hrun as <- <-.
      exists [a], attempts, [call]. split_and!; try done.
      - unfold call. by rewrite transfer_calls_cons.
      - intros n e [= <- <-]. left. simpl. rewrite Hmoved, !Z.add_0_r.
        split_and!; [done|by apply loop_answer_small; lia|].
        right; left. by exists a. }
    apply Z.eqb_neq in Hzero.
    destruct ((0 <? length) && IO_Event_try_again (attempt_errno a)) eqn:Hretry.
    + destruct (io_wait_returns_effects (loop_backend L) frame fiber io
                  (INT2NUM (loop_events L)) (attempt_kernel a)
                  (attempt_resumed a) (emit call w)) as (es1 & He1 & Hf1).
      destruct (io_wait_returns _ _ _ _ _ _ _ _) as [[v|e] w1]; simpl in He1.
      * destruct (IH length offset total w1 r w')
          as (used & rest & es & -> & He & Hcalls & Hend); [lia|lia| |done|].
        { by rewrite Hmoved, Z.sub_0_r in Hobey. }
        exists (a :: used), rest, (call :: es1 ++ es). split_and!; [done| | |].
        -- rewrite He, He1. simpl. by rewrite <- !app_assoc.
        -- unfold call. rewrite transfer_calls_cons, transfer_calls_app by done.
           rewrite task_effects_no_calls by done. simpl.
           by rewrite Hcalls, Hmoved, Z.add_0_r.
        -- intros n e Hr.
           destruct (Hend n e Hr) as [(-> & -> & Hwhy)|(-> & b & Hlast & Hb & -> & Hwhy)].
           ++ left. simpl. rewrite Hmoved, !Z.add_0_l.
              split_and!; [done..|].
              destruct Hwhy as [?|[(b & Hlast & Hb)|[? ?]]].
              ** by left.
              ** right; left. exists b. split; [|done].
                 destruct used; [done|by rewrite last_cons, Hlast].
              ** right; right. split; [done|lia].
           ++ right. split; [done|]. exists b. split_and!; try done.
              ** destruct used; [done|by rewrite last_cons, Hlast].
              ** simpl. by rewrite Hmoved, Z.add_0_l.
      * injection Hrun as <- <-.
        exists [a], attempts, (call :: es1). split_and!; try done.
        -- rewrite He1. simpl. by rewrite <- app_assoc.
        -- unfold call. rewrite transfer_calls_cons by done.
           by rewrite task_effects_no_calls.
    + injection Hrun as <- <-.
      exists [a], attempts, [call]. split_and!; try done.
      * unfold call. by rewrite transfer_calls_cons.
      * intros n e [= <- <-]. right. split; [done|]. exists a.
        split_and!; [done|lia|done|]. simpl. rewrite Hmoved, Z.add_0_r.
        apply andb_false_iff in Hretry as [Hl|Ht]; [left|by right].
        apply Z.ltb_ge in Hl. lia.
Qed.
End loop_spec.

(** * The four entry points of buffered transfer *)

Inductive Transfer : Type :=
| EPoll_io_read
| EPoll_io_write
| KQueue_io_read
| KQueue_io_write.

Definition writes (t : Transfer) : bool :=
  match t with
  | EPoll_io_write | KQueue_io_write => true
  | _ => false
  end.

(** What is added to the bytes moved to give the answer: epoll.c answers
    the offset it reached, kqueue.c the bytes it counted. *)
Definition answer_base (t : Transfer) (offset : Z) : Z :=
  match t with
  | EPoll_io_read | EPoll_io_write => offset
  | KQueue_io_read | KQueue_io_write => 0
  end.

Definition tests_room (t : Transfer) : bool :=
  match t with
  | EPoll_io_read | EPoll_io_write => false
  | KQueue_io_read | KQueue_io_write => true
  end.

Definition transfer_call (t : Transfer) : Z → Z → Z → Effect :=
  if writes t then Sys_write else Sys_read.

Section transfer.
Context `{Platform}.
Implicit Types (w : World) (t : Transfer).

Definition io_transfer (t : Transfer)
  : list Attempt → Z → nat → VALUE → Z → Z → VALUE → VALUE → World →
    option (result io_result * World) :=
  match t with
  | EPoll_io_read => EPoll_io.IO_Event_Selector_EPoll_io_read
  | EPoll_io_write => EPoll_io.IO_Event_Selector_EPoll_io_write
  | KQueue_io_read => KQueue_io.IO_Event_Selector_KQueue_io_read
  | KQueue_io_write => KQueue_io.IO_Event_Selector_KQueue_io_write
  end.

Definition transfer_loop (t : Transfer) : Loop :=
  match t with
  | EPoll_io_read => EPoll_read
  | EPoll_io_write => EPoll_write
  | KQueue_io_read => KQueue_read
  | KQueue_io_write => KQueue_write
  end.

Lemma NUM2SIZET_Fixnum n : 0 ≤ n < 2 ^ 64 → NUM2SIZET (Fixnum n) = Some n.
Proof.
  intros [Hl Hu]. unfold NUM2SIZET.
  apply Z.leb_le in Hl. apply Z.ltb_lt in Hu. by rewrite Hl, Hu.
Qed.

Lemma transfer_loop_data t : transfers_data (transfer_loop t).
Proof. by destruct t. Qed.

Lemma transfer_loop_call t : loop_call (transfer_loop t) = transfer_call t.
Proof. by destruct t. Qed.

Lemma transfer_loop_room t : loop_tests_room (transfer_loop t) = tests_room t.
Proof. by destruct t. Qed.

Lemma transfer_loop_answer t offset m :
  loop_answer (transfer_loop t) (offset + m) (0 + m) = answer_base t offset + m.
Proof. by destruct t. Qed.

(** Each entry point, once its numbers are converted: the flags are set,
    the loop runs (for a write, after the check of the length), and the
    flags are restored. *)
Lemma io_transfer_io_loop t attempts flags frame fiber io size length offset w :
  0 ≤ length < 2 ^ 64 → 0 ≤ offset < 2 ^ 64 →
  io_transfer t attempts flags frame fiber io size (Fixnum length)
    (Fixnum offset) w
  = if writes t && (size <? length)
    then Some (Raise RuntimeError,
               emit (Host_nonblock_restore io flags)
                 (emit (Host_nonblock_set io) w))
    else
      match io_loop (transfer_loop t) frame fiber io io size attempts length
              offset 0 (emit (Host_nonblock_set io) w) with
      | None => None
      | Some (r, w') => Some (r, emit (Host_nonblock_restore io flags) w')
      end.
Proof.
  intros Hl Ho. destruct t; simpl;
    unfold EPoll_io.IO_Event_Selector_EPoll_io_read,
      EPoll_io.IO_Event_Selector_EPoll_io_write,
      KQueue_io.IO_Event_Selector_KQueue_io_read,
      KQueue_io.IO_Event_Selector_KQueue_io_write,
      EPoll_io.io_write_loop, KQueue_io.io_write_loop,
      EPoll_io.io_read_ensure, EPoll_io.io_write_ensure,
      KQueue_io.io_read_ensure, KQueue_io.io_write_ensure;
    rewrite !NUM2SIZET_Fixnum by done; cbv zeta.
  - by rewrite (EPoll_io_read_loop_io_loop _ _ _ _ _ _ _ _ 0).
  - destruct (size <? length); [done|].
    by rewrite (EPoll_io_write_loop_body_io_loop _ _ _ _ _ _ _ _ 0).
  - by rewrite KQueue_io_read_loop_io_loop.
  - destruct (size <? length); [done|].
    by rewrite KQueue_io_write_loop_body_io_loop.
Qed.
End transfer.

(** * Statements about buffered transfer *)

(** A [read] or [write] that stays in the buffer of [size] bytes, at or
    after [offset]. *)
Definition in_buffer (io size offset : Z) (e : Effect) : Prop :=
  match e with
  | Sys_read fd o c | Sys_write fd o c =>
    fd = io ∧ offset ≤ o ∧ 0 ≤ c ∧ o + c = size
  | _ => True
  end.

Definition sets_flags (e : Effect) : Prop :=
  match e with
  | Host_nonblock_set _ | Host_nonblock_restore _ _ => True
  | _ => False
  end.

Section transfer_claims.
Context `{Platform}.
Implicit Types (w : World) (t : Transfer).

Lemma kernel_obeys_app used : ∀ rest room,
  kernel_obeys room (used ++ rest) → kernel_obeys room used.
Proof.
  induction used as [|a used IH]; intros rest room; simpl; [done|].
  intros [? ?]. split; [done|]. by eapply IH.
Qed.

Lemma calls_of_in_buffer t io size start used : ∀ offset,
  start ≤ offset → offset ≤ size → kernel_obeys (size - offset) used →
  Forall (in_buffer io size start) (calls_of (transfer_call t) io size offset used).
Proof.
  induction used as [|a used IH]; intros offset Hs Ho Hk; simpl; [done|].
  destruct Hk as [Ha Hk]. constructor.
  - unfold transfer_call. destruct (writes t); simpl; lia.
  - apply IH; [unfold moved; lia..|].
    by replace (size - (offset + moved a)) with (size - offset - moved a) by lia.
Qed.

Lemma in_buffer_filter io size start es :
  Forall (in_buffer io size start) (transfer_calls es) →
  Forall (in_buffer io size start) es.
Proof.
  unfold transfer_calls. induction es as [|e es IH]; [done|].
  destruct (decide (is_transfer_call e)) as [He|He].
  - rewrite filter_cons_True by done. intros [? ?]%Forall_cons.
    constructor; [done|by apply IH].
  - rewrite filter_cons_False by done. intros Hf.
    constructor; [|by apply IH]. by destruct e.
Qed.

Lemma io_loop_first_call L frame fiber io descriptor size a attempts
    length offset total w r w' :
  (loop_tests_room L && (size_t (size - offset) =? 0)) = false →
  io_loop L frame fiber io descriptor size (a :: attempts) length offset total w
  = Some (r, w') →
  ∃ es, effects w'
        = effects w ++ loop_call L descriptor offset (size_t (size - offset)) :: es.
Proof.
  intros Hroom Hrun. simpl in Hrun. rewrite Hroom in Hrun.
  set (call := loop_call L descriptor offset (size_t (size - offset))) in *.
  assert (∀ w1 es1 length offset total,
            effects w1 = effects (emit call w) ++ es1 →
            io_loop L frame fiber io descriptor size attempts length offset
              total w1 = Some (r, w') →
            ∃ es, effects w' = effects w ++ call :: es) as Hmore.
  { intros w1 es1 length' offset' total' He Hrest.
    destruct (io_loop_effects _ _ _ _ _ _ _ _ _ _ _ _ _ Hrest) as (es2 & He2 & _).
    exists (es1 ++ es2). rewrite He2, He. simpl. by rewrite <- !app_assoc. }
  assert (∃ es, effects (emit call w) = effects w ++ call :: es) as Hone
    by (by exists []).
  destruct (0 <? attempt_result a).
  { destruct (length <=? attempt_result a).
    - by injection Hrun as <- <-.
    - eapply (Hmore _ []); [by rewrite app_nil_r|exact Hrun]. }
  destruct (attempt_result a =? 0); [by injection Hrun as <- <-|].
  destruct ((0 <? length) && IO_Event_try_again (attempt_errno a)).
  - destruct (io_wait_returns_effects (loop_backend L) frame fiber io
                (INT2NUM (loop_events L)) (attempt_kernel a)
                (attempt_resumed a) (emit call w)) as (es1 & He1 & Hf1).
    destruct (io_wait_returns _ _ _ _ _ _ _ _) as [[v|e] w1]; simpl in He1.
    + by eapply Hmore.
    + injection Hrun as <- <-. exists es1. rewrite He1. simpl.
      by rewrite <- app_assoc.
  - by injection Hrun as <- <-.
Qed.

(** The answer of a buffered transfer.  When [read] and [write] move no
    more than they are asked to, a call that answers [(n, e)] made its
    calls one after the other through the buffer, each for all the room
    left, with [used] their answers.  If [n] is not [-1] then [e] is [0]
    and [n] is the bytes moved, to which epoll.c adds the starting offset;
    the loop ended because the bytes asked for were moved, or the last call
    moved nothing, or (kqueue.c) the buffer is full.  If [n] is [-1] then
    the last call failed, [e] is its [errno], and either nothing was left
    to move or the [errno] is not one to wait on. *)
Theorem io_transfer_answer t attempts flags frame fiber io size length offset
    w n e w' :
  0 ≤ offset ≤ size → size < 2 ^ 63 → 0 ≤ length < 2 ^ 64 →
  kernel_obeys (size - offset) attempts →
  io_transfer t attempts flags frame fiber io size (Fixnum length)
    (Fixnum offset) w
  = Some (Return (rb_fiber_scheduler_io_result n e), w') →
  ∃ used rest es,
    attempts = used ++ rest
    ∧ effects w'
      = effects w
        ++ Host_nonblock_set io :: es ++ [Host_nonblock_restore io flags]
    ∧ transfer_calls es = calls_of (transfer_call t) io size offset used
    ∧ (n ≠ -1 →
       e = 0
       ∧ n = answer_base t offset + moved_by used
       ∧ (length ≤ moved_by used
          ∨ (∃ a, last used = Some a ∧ attempt_result a = 0)
          ∨ (tests_room t = true ∧ offset + moved_by used = size)))
    ∧ (n = -1 →
       ∃ a, last used = Some a ∧ attempt_result a < 0 ∧ e = attempt_errno a
            ∧ (length ≤ moved_by used ∨ IO_Event_try_again e = false)).
Proof.
  intros Hoff Hsize Hlen Hobey Hrun.
  rewrite io_transfer_io_loop in Hrun by lia.
  destruct (writes t && (size <? length)); [done|].
  destruct (io_loop _ _ _ _ _ _ _ _ _ _ _) as [[r w1]|] eqn:Hloop; [|done].
  injection Hrun as -> <-.
  destruct (io_loop_spec (transfer_loop t) frame fiber io io size attempts
              (transfer_loop_data t) Hsize length offset 0 _ _ _
              ltac:(lia) ltac:(lia) Hobey Hloop)
    as (used & rest & es & -> & He & Hcalls & Hend).
  exists used, rest, es. split; [done|]. split.
  { simpl. rewrite He. simpl. by rewrite <- !app_assoc. }
  split; [by rewrite Hcalls, transfer_loop_call|].
  pose proof (moved_by_nonneg used) as Hnn.
  assert (0 ≤ answer_base t offset) as Hbase by (destruct t; simpl; lia).
  destruct (Hend n e eq_refl) as [(-> & Hn & Hwhy)|(-> & a & Hlast & Ha & -> & Hwhy)].
  - rewrite transfer_loop_answer in Hn. split; [|lia]. intros _.
    split_and!; [done..|]. by rewrite <- transfer_loop_room.
  - split; [done|]. intros _. exists a. split_and!; [done..|].
    destruct Hwhy; [left; lia|by right].
Qed.

(** A buffered transfer stays in its buffer.  When [read] and [write]
    move no more than they are asked to, every [read] and [write] that a
    call makes, whatever its outcome, is on the descriptor of [io] and
    covers the buffer from an offset that is not before the starting one
    up to the end of the buffer, whatever the length asked for. *)
Theorem io_transfer_stays_in_buffer t attempts flags frame fiber io size
    length offset w r w' :
  0 ≤ offset ≤ size → size < 2 ^ 63 → 0 ≤ length < 2 ^ 64 →
  kernel_obeys (size - offset) attempts →
  io_transfer t attempts flags frame fiber io size (Fixnum length)
    (Fixnum offset) w = Some (r, w') →
  ∃ es, effects w' = effects w ++ es ∧ Forall (in_buffer io size offset) es.
Proof.
  intros Hoff Hsize Hlen Hobey Hrun.
  rewrite io_transfer_io_loop in Hrun by lia.
  destruct (writes t && (size <? length)).
  { injection Hrun as <- <-. eexists [_; _]. simpl. rewrite <- app_assoc.
    split; [done|]. by repeat constructor. }
  destruct (io_loop _ _ _ _ _ _ _ _ _ _ _) as [[r1 w1]|] eqn:Hloop; [|done].
  injection Hrun as -> <-.
  destruct (io_loop_spec (transfer_loop t) frame fiber io io size attempts
              (transfer_loop_data t) Hsize length offset 0 _ _ _
              ltac:(lia) ltac:(lia) Hobey Hloop)
    as (used & rest & es & -> & He & Hcalls & _).
  exists (Host_nonblock_set io :: es ++ [Host_nonblock_restore io flags]).
  split. { simpl. rewrite He. simpl. by rewrite <- !app_assoc. }
  constructor; [done|]. apply Forall_app. split; [|by repeat constructor].
  apply in_buffer_filter. rewrite Hcalls, transfer_loop_call.
  apply calls_of_in_buffer; [lia..|]. by eapply kernel_obeys_app.
Qed.

(** The flags of the descriptor are restored.  Once the numbers are
    converted, a call sets the descriptor nonblocking first and restores
    the flags it found last, whatever happens between: an answer, the
    [RuntimeError] of a write that is longer than the buffer, or an
    exception out of a wait.  Nothing between touches the flags. *)
Theorem io_transfer_restores_flags t attempts flags frame fiber io size
    length offset w r w' :
  0 ≤ length < 2 ^ 64 → 0 ≤ offset < 2 ^ 64 →
  io_transfer t attempts flags frame fiber io size (Fixnum length)
    (Fixnum offset) w = Some (r, w') →
  ∃ es,
    effects w'
    = effects w ++ Host_nonblock_set io :: es ++ [Host_nonblock_restore io flags]
    ∧ Forall (λ e, ¬ sets_flags e) es.
Proof.
  intros Hlen Hoff Hrun. rewrite io_transfer_io_loop in Hrun by lia.
  destruct (writes t && (size <? length)).
  { injection Hrun as <- <-. exists []. simpl. by rewrite <- app_assoc. }
  destruct (io_loop _ _ _ _ _ _ _ _ _ _ _) as [[r1 w1]|] eqn:Hloop; [|done].
  injection Hrun as -> <-.
  destruct (io_loop_effects _ _ _ _ _ _ _ _ _ _ _ _ _ Hloop) as (es & He & Hf).
  exists es. split. { simpl. rewrite He. simpl. by rewrite <- !app_assoc. }
  eapply Forall_impl; [exact Hf|]. intros e [He'|(o & c & ->)].
  - destruct e; simpl in *; tauto.
  - rewrite transfer_loop_call. unfold transfer_call.
    destruct (writes t); simpl; tauto.
Qed.

(** The offset is not checked against the buffer.  With an offset beyond
    the end of the buffer the room left, a [size_t], wraps around: the
    first call is made at that offset for [2^64 + size - offset] bytes. *)
Theorem io_transfer_offset_beyond_buffer t a attempts flags frame fiber io
    size length offset w r w' :
  0 ≤ size < offset → offset < 2 ^ 64 → 0 ≤ length ≤ size →
  io_transfer t (a :: attempts) flags frame fiber io size (Fixnum length)
    (Fixnum offset) w = Some (r, w') →
  ∃ es,
    effects w'
    = effects w
      ++ Host_nonblock_set io
         :: transfer_call t io offset (2 ^ 64 + size - offset) :: es.
Proof.
  intros Hsize Hoff Hlen Hrun. rewrite io_transfer_io_loop in Hrun by lia.
  assert ((size <? length) = false) as Hfits by (apply Z.ltb_ge; lia).
  rewrite Hfits, andb_false_r in Hrun.
  destruct (io_loop _ _ _ _ _ _ _ _ _ _ _) as [[r1 w1]|] eqn:Hloop; [|done].
  injection Hrun as -> <-.
  assert (size_t (size - offset) = 2 ^ 64 + size - offset) as Hwrap.
  { unfold size_t. symmetry. apply (Z.mod_unique _ _ (-1)); lia. }
  apply io_loop_first_call in Hloop as (es & He).
  - exists (es ++ [Host_nonblock_restore io flags]). simpl. rewrite He. simpl.
    rewrite <- !app_assoc. simpl. by rewrite transfer_loop_call, Hwrap.
  - rewrite Hwrap. apply andb_false_iff. right. apply Z.eqb_neq. lia.
Qed.

(** A buffer with no room left.  At an offset that is the size of the
    buffer kqueue.c answers [(0, 0)] at once, without a call to the
    kernel, whereas epoll.c calls [read] or [write] for no bytes. *)
Theorem io_transfer_full_buffer a attempts flags frame fiber io size length w :
  0 ≤ size < 2 ^ 63 → 0 ≤ length ≤ size →
  (∀ t, tests_room t = true →
        io_transfer t attempts flags frame fiber io size (Fixnum length)
          (Fixnum size) w
        = Some (Return (rb_fiber_scheduler_io_result 0 0),
                emit (Host_nonblock_restore io flags)
                  (emit (Host_nonblock_set io) w)))
  ∧ (∀ t r w', tests_room t = false →
               io_transfer t (a :: attempts) flags frame fiber io size
                 (Fixnum length) (Fixnum size) w = Some (r, w') →
               ∃ es, effects w'
                     = effects w
                       ++ Host_nonblock_set io :: transfer_call t io size 0 :: es).
Proof.
  intros Hsize Hlen.
  assert ((size <? length) = false) as Hfits by (apply Z.ltb_ge; lia).
  assert (size_t (size - size) = 0) as Hnone by (by rewrite Z.sub_diag).
  split.
  - intros t Ht. rewrite io_transfer_io_loop, Hfits, andb_false_r by lia.
    destruct t; try done; destruct attempts; simpl; unfold size_t;
      by rewrite Z.sub_diag.
  - intros t r w' Ht Hrun.
    rewrite io_transfer_io_loop, Hfits, andb_false_r in Hrun by lia.
    destruct (io_loop _ _ _ _ _ _ _ _ _ _ _) as [[r1 w1]|] eqn:Hloop; [|done].
    injection Hrun as -> <-.
    apply io_loop_first_call in Hloop as (es & He).
    + exists (es ++ [Host_nonblock_restore io flags]). simpl. rewrite He. simpl.
      rewrite <- !app_assoc. simpl. by rewrite transfer_loop_call, Hnone.
    + by rewrite transfer_loop_room, Ht.
Qed.
End transfer_claims.


(** * Further statements about [select] *)

Section unblocked.
Context `{Platform}.
Implicit Types (w : World) (b : Backend).












Lemma not_EINTR errno :
  negb (errno =? EINTR) = true →
  SystemCallError (Some errno) ≠ SystemCallError (Some EINTR).
Proof. intros Hn [= ->]. by rewrite Z.eqb_refl in Hn. Qed.

Lemma make_timeout_raises duration e :
  make_timeout duration = Raise e → e = RuntimeError.
Proof. destruct duration; simpl; congruence. Qed.

(** What the waits of [select] leave of the flag, and what they raise. *)
Lemma EPoll_with_gvl_blocked timeout pwait2 wait w :
  let r := EPoll_select.select_internal_with_gvl timeout pwait2 wait w in
  blocked (snd r) = blocked w
  ∧ ∀ e, fst r = Raise e → e ≠ SystemCallError (Some EINTR).
Proof.
  unfold EPoll_select.select_internal_with_gvl, EPoll_select.select_internal.
  destruct HAVE_EPOLL_PWAIT2; simpl;
    [destruct (negb (EPoll_select.enosys_error pwait2)); simpl|];
    match goal with |- context [match ?x with polled _ => _ | _ => _ end] =>
      destruct x as [?|errno]; simpl; [done|];
      destruct (negb (errno =? EINTR)) eqn:Hn; simpl; [|done];
      split; [done|]; intros e [= <-]; by apply not_EINTR
    end.
Qed.

Lemma EPoll_without_gvl_raises timeout pwait2 wait i w e :
  fst (EPoll_select.select_internal_without_gvl timeout pwait2 wait i w)
  = Raise e →
  e ≠ SystemCallError (Some EINTR).
Proof.
  unfold EPoll_select.select_internal_without_gvl, EPoll_select.select_internal.
  destruct i as [id|]; simpl.
  { destruct HAVE_EPOLL_PWAIT2; simpl;
      [destruct (negb (EPoll_select.enosys_error pwait2)); simpl|];
      by intros [= <-]. }
  destruct HAVE_EPOLL_PWAIT2; simpl;
    [destruct (negb (EPoll_select.enosys_error pwait2)); simpl|];
    match goal with |- context [match ?x with polled _ => _ | _ => _ end] =>
      destruct x as [?|errno]; simpl; [done|];
      destruct (negb (errno =? EINTR)) eqn:Hn; simpl; [|done];
      intros [= <-]; by apply not_EINTR
    end.
Qed.


Lemma KQueue_with_gvl_blocked count timeout answer w :
  let r := KQueue_select.select_internal_with_gvl count timeout answer w in
  blocked (snd r) = blocked w
  ∧ ∀ e, fst r = Raise e → e ≠ SystemCallError (Some EINTR).
Proof.
  unfold KQueue_select.select_internal_with_gvl, KQueue_select.select_internal.
  simpl. destruct answer as [?|errno]; simpl; [done|].
  destruct (negb (errno =? EINTR)) eqn:Hn; simpl; [|done].
  split; [done|]. intros e [= <-]. by apply not_EINTR.
Qed.

Lemma KQueue_without_gvl_raises count timeout answer i w e :
  fst (KQueue_select.select_internal_without_gvl count timeout answer i w)
  = Raise e →
  e ≠ SystemCallError (Some EINTR).
Proof.
  unfold KQueue_select.select_internal_without_gvl, KQueue_select.select_internal.
  destruct i as [id|]; simpl; [by intros [= <-]|].
  destruct answer as [?|errno]; simpl; [done|].
  destruct (negb (errno =? EINTR)) eqn:Hn; simpl; [|done].
  intros [= <-]. by apply not_EINTR.
Qed.


Lemma app_not_nil {A} (l added : list A) : added ≠ [] → l ++ added ≠ l.
Proof.
  intros Hne Hsame. apply Hne.
  rewrite <- (app_nil_r l) in Hsame at 2. by apply app_inv_head in Hsame.
Qed.

Lemma EPoll_blocking_calls_not_nil timeout pwait2 :
  EPoll_blocking_calls timeout pwait2 ≠ [].
Proof. unfold EPoll_blocking_calls. by destruct HAVE_EPOLL_PWAIT2. Qed.






(** An interrupted wait is no error.  [select] never raises the
    [SystemCallError] of [EINTR]: a kernel wait that a signal interrupts
    counts as a wait that found no event. *)
Theorem select_absorbs_EINTR fuel duration w :
  (∀ kernel e w',
     EPoll_select.IO_Event_Selector_EPoll_select fuel duration kernel w
     = Some (Raise e, w') →
     e ≠ SystemCallError (Some EINTR))
  ∧ (∀ kernel e w',
       KQueue_select.IO_Event_Selector_KQueue_select fuel duration kernel w
       = Some (Raise e, w') →
       e ≠ SystemCallError (Some EINTR))
  ∧ (∀ kernel,
       EPoll_select.nonblocking_pwait2 kernel = poll_failed EINTR →
       EPoll_select.nonblocking_wait kernel = poll_failed EINTR →
       ∃ w', EPoll_select.IO_Event_Selector_EPoll_select fuel (Fixnum 0)
               kernel w = Some (Return (INT2NUM 0), w'))
  ∧ (∀ kernel,
       KQueue_select.nonblocking_kevent kernel = poll_failed EINTR →
       ∃ w', KQueue_select.IO_Event_Selector_KQueue_select fuel (Fixnum 0)
               kernel w = Some (Return (INT2NUM 0), w')).
Proof.
  split_and!.
  - intros kernel e w' Hrun.
    unfold EPoll_select.IO_Event_Selector_EPoll_select in Hrun.
    assert (∀ e0, fst (EPoll_select.select_waits duration kernel w) = Raise e0 →
                  e0 ≠ SystemCallError (Some EINTR)) as Hr.
    { unfold EPoll_select.select_waits.
      destruct (IO_Event_Selector_queue_flush EPoll w) as [ready w1].
      pose proof (EPoll_with_gvl_blocked (Some {| tv_sec := 0; tv_nsec := 0 |})
                    (EPoll_select.nonblocking_pwait2 kernel)
                    (EPoll_select.nonblocking_wait kernel) w1) as [_ Hr2].
      destruct (EPoll_select.select_internal_with_gvl _ _ _ _)
        as [[events_|e1] w2]; simpl in Hr2; cbv zeta.
      - destruct (_ && _); simpl; [|done].
        destruct (make_timeout duration) as [timeout|e1] eqn:Htimeout; simpl.
        + destruct (negb (timeout_nonblocking timeout)); simpl; [|done].
          intros e0. apply EPoll_without_gvl_raises.
        + intros e0 [= <-]. by rewrite (make_timeout_raises _ _ Htimeout).
      - simpl. intros e0 [= <-]. by apply Hr2. }
    destruct (EPoll_select.select_waits duration kernel w) as [[events_|e1] w1];
      simpl in Hr.
    + by destruct (EPoll_select.dispatch fuel events_ w1).
    + injection Hrun as <- <-. by apply Hr.
  - intros kernel e w' Hrun.
    unfold KQueue_select.IO_Event_Selector_KQueue_select in Hrun.
    assert (∀ e0, fst (KQueue_select.select_waits duration kernel w) = Raise e0 →
                  e0 ≠ SystemCallError (Some EINTR)) as Hr.
    { unfold KQueue_select.select_waits.
      destruct (IO_Event_Selector_queue_flush KQueue w) as [ready w1].
      pose proof (KQueue_with_gvl_blocked KQueue_select.KQUEUE_MAX_EVENTS
                    (Some {| tv_sec := 0; tv_nsec := 0 |})
                    (KQueue_select.nonblocking_kevent kernel) w1) as [_ Hr2].
      destruct (KQueue_select.select_internal_with_gvl _ _ _ _)
        as [[events_|e1] w2]; simpl in Hr2; cbv zeta.
      - destruct (_ && _); simpl; [|done].
        destruct (make_timeout duration) as [timeout|e1] eqn:Htimeout; simpl.
        + destruct (negb (timeout_nonblocking timeout)); simpl; [|done].
          intros e0. apply KQueue_without_gvl_raises.
        + intros e0 [= <-]. by rewrite (make_timeout_raises _ _ Htimeout).
      - simpl. intros e0 [= <-]. by apply Hr2. }
    destruct (KQueue_select.select_waits duration kernel w) as [[events_|e1] w1];
      simpl in Hr.
    + by destruct (KQueue_select.dispatch fuel events_ _).
    + injection Hrun as <- <-. by apply Hr.
  - intros kernel Hp Hw.
    unfold EPoll_select.IO_Event_Selector_EPoll_select,
      EPoll_select.select_waits.
    destruct (IO_Event_Selector_queue_flush EPoll w) as [ready w1].
    unfold EPoll_select.select_internal_with_gvl, EPoll_select.select_internal.
    rewrite Hp, Hw. simpl.
    destruct HAVE_EPOLL_PWAIT2; simpl;
      [destruct (negb (EINTR =? ENOSYS)); simpl|];
      rewrite Z.eqb_refl; simpl;
      (destruct (_ && _); simpl; by eexists).
  - intros kernel Hk.
    unfold KQueue_select.IO_Event_Selector_KQueue_select,
      KQueue_select.select_waits.
    destruct (IO_Event_Selector_queue_flush KQueue w) as [ready w1].
    unfold KQueue_select.select_internal_with_gvl, KQueue_select.select_internal.
    rewrite Hk. simpl. rewrite Z.eqb_refl. simpl.
    destruct (_ && _); simpl; by eexists.
Qed.

(** The timeout of the [epoll_wait] that stands in for [epoll_pwait2]:
    the whole milliseconds of the time asked for.  The wait is never for
    longer than asked, and for less than a millisecond less; a time below
    one millisecond becomes [0], a poll. *)
Theorem make_timeout_ms_rounds_down sec nsec :
  0 ≤ sec → 0 ≤ nsec < 1000000000 → sec * 1000 + nsec / 1000000 < 2 ^ 31 →
  let ms := EPoll_select.make_timeout_ms
              (Some {| tv_sec := sec; tv_nsec := nsec |}) in
  0 ≤ ms
  ∧ ms * 1000000 ≤ sec * 1000000000 + nsec < (ms + 1) * 1000000.
Proof.
  intros Hsec Hnsec Hfits. unfold EPoll_select.make_timeout_ms. simpl.
  pose proof (Z.div_mod nsec 1000000 ltac:(lia)) as Hdiv.
  pose proof (Z.mod_pos_bound nsec 1000000 ltac:(lia)) as Hmod.
  destruct (Z.eqb_spec sec 0) as [->|Hs]; simpl.
  - destruct (Z.eqb_spec nsec 0) as [->|Hn]; simpl; [lia|].
    rewrite Z.quot_div_nonneg by lia.
    unfold EPoll_select.to_int. rewrite Z.mod_small by lia. lia.
  - rewrite Z.quot_div_nonneg by lia.
    unfold EPoll_select.to_int. rewrite Z.mod_small by lia. lia.
Qed.
End unblocked.


(** * Further statements about the wait primitives *)

Section more_waits.
Context `{Platform}.
Implicit Types (w : World) (d : Z).

(** The kqueue [io_wait] makes one [kevent] call, for the filters of the
    events asked for, and never writes the accumulator.  When the call
    succeeds the waiter is linked at the head of the descriptor's list and
    the primitive suspends; when it fails the primitive raises the
    [SystemCallError] of its [errno] and no waiter is linked. *)
Theorem KQueue_io_wait_registers_then_links frame fiber io ev kernel w l :
  0 ≤ io → NUM2INT (Fixnum ev) = Some ev →
  settled w io l → head (memory w (Wait frame)) = NULL →
  let r := KQueue.IO_Event_Selector_KQueue_io_wait frame fiber io (Fixnum ev)
             kernel w in
  effects (snd r)
  = effects w ++ [Sys_kevent_register io (KQueue.arm_filters ev) kernel]
  ∧ descriptor_mask (snd r) = descriptor_mask w
  ∧ waiting (snd r) (Wait frame)
    = {| waiting_events := ev; waiting_fiber := fiber;
         waiting_frame := in_io_wait |}
  ∧ (kernel = Success →
     fst r = Suspended
     ∧ settled (snd r) io (Wait frame :: l)
     ∧ tail (memory (snd r) (Slot io)) = Wait frame)
  ∧ (∀ errno, kernel = Failure errno →
       fst r = Failed (SystemCallError (Some errno))
       ∧ settled (snd r) io l
       ∧ head (memory (snd r) (Wait frame)) = NULL).
Proof.
  intros Hio Hev Hs Hfree.
  unfold KQueue.IO_Event_Selector_KQueue_io_wait, IO_Event_Array_lookup,
    KQueue.IO_Event_Selector_KQueue_arm.
  apply Z.leb_le in Hio. rewrite Hev, Hio. simpl.
  rewrite decide_True by done. simpl.
  destruct kernel as [|errno]; simpl.
  - split_and!; try done; [by rewrite decide_True|].
    intros _.
    match goal with |- context [settled ?w' _ _] =>
      assert (settled w' io (Wait frame :: l)) as Hs' by (by eapply settled_link)
    end.
    destruct (settled_head _ _ _ _ Hs') as [Ht _]. done.
  - split_and!; try done; [by rewrite decide_True|].
    intros errno' [= <-]. split_and!; [done| |].
    + by eapply settled_scope.
    + unfold declare. by rewrite decide_True.
Qed.


(** The epoll [process_wait] leaves the armed mask of its descriptor at
    [IO_EVENT_READABLE] after it has closed the descriptor.  An [io_wait]
    for [IO_EVENT_READABLE] on that descriptor number afterwards finds the
    mask covering what it asks for: it links its waiter and suspends
    without any call to the kernel. *)
Theorem EPoll_io_wait_after_process_wait frame frame' fiber fiber' pid d
    how status kernel w :
  0 ≤ d → NUM2INT (INT2NUM IO_EVENT_READABLE) = Some IO_EVENT_READABLE →
  let w1 := snd (EPoll.IO_Event_Selector_EPoll_process_wait frame fiber pid
                   (inl d) Success w) in
  let w2 := snd (EPoll.process_wait_resumed pid d (Wait frame) how status w1) in
  let r := EPoll.IO_Event_Selector_EPoll_io_wait frame' fiber' d
             (INT2NUM IO_EVENT_READABLE) kernel w2 in
  last (effects w2) = Some (Sys_close d)
  ∧ descriptor_mask w2 d = IO_EVENT_READABLE
  ∧ fst r = Suspended
  ∧ effects (snd r) = effects w2.
Proof.
  intros Hd Hev. cbv zeta.
  unfold EPoll.IO_Event_Selector_EPoll_process_wait,
    EPoll.IO_Event_Selector_EPoll_io_wait,
    EPoll.IO_Event_Selector_EPoll_Descriptor_lookup, IO_Event_Array_lookup.
  apply Z.leb_le in Hd. rewrite Hd, Hev. simpl.
  assert (∀ w0, descriptor_mask
                  (snd (EPoll.process_wait_resumed pid d (Wait frame) how
                          status w0)) = descriptor_mask w0) as Hmask.
  { intros w0. unfold EPoll.process_wait_resumed, EPoll.process_wait_transfer.
    by destruct how. }
  rewrite Hmask. simpl. rewrite decide_True by done.
  rewrite Z.land_diag, Z.eqb_refl. simpl.
  split_and!; try done.
  unfold EPoll.process_wait_resumed, EPoll.process_wait_transfer,
    EPoll.process_wait_ensure.
  destruct how; simpl; by rewrite last_snoc.
Qed.
End more_waits.


(** * Events and what the kernel is asked for *)

(** [x] is the single bit [k]. *)
Definition bit_of (x k : Z) : Prop := 0 ≤ k ∧ x = 2 ^ k.

(** The events that a list of kqueue filters stands for. *)
Definition events_of_filters `{Platform} (filters : list Z) : Z :=
  foldr (λ filter acc, Z.lor (KQueue.events_from_kevent_filter filter) acc)
        0 filters.

Section conversions.
Context `{Platform}.

Lemma land_bit_eqb a x k :
  bit_of x k → (Z.land a x =? 0) = negb (Z.testbit a k).
Proof.
  intros [Hk ->]. destruct (Z.testbit a k) eqn:Ha; simpl.
  - apply Z.eqb_neq. intros Hz.
    assert (Z.testbit (Z.land a (2 ^ k)) k = true) as Hb
      by (by rewrite Z.land_spec, Ha, Z.pow2_bits_true).
    by rewrite Hz, Z.bits_0 in Hb.
  - apply Z.eqb_eq. apply Z.bits_inj'. intros n Hn.
    rewrite Z.land_spec, Z.bits_0, Z.pow2_bits_eqb by done.
    destruct (Z.eqb_spec k n) as [<-|]; [by rewrite Ha|apply andb_false_r].
Qed.

Lemma land_bit a x k :
  bit_of x k → Z.land a x = if Z.testbit a k then x else 0.
Proof.
  intros Hx. pose proof (land_bit_eqb a x k Hx) as Hz.
  destruct Hx as [Hk ->]. destruct (Z.testbit a k) eqn:Ha; simpl in Hz.
  - apply Z.bits_inj'. intros n Hn.
    rewrite Z.land_spec, Z.pow2_bits_eqb by done.
    destruct (Z.eqb_spec k n) as [<-|]; [by rewrite Ha|apply andb_false_r].
  - by apply Z.eqb_eq.
Qed.

Lemma bit_testbit x k n :
  bit_of x k → 0 ≤ n → Z.testbit x n = (k =? n).
Proof. intros [Hk ->] Hn. by apply Z.pow2_bits_eqb. Qed.

(** What kqueue.c arms is what it will report.  When the three events
    that kqueue.c knows are single bits and the three filters differ, the
    filters armed for a waiter stand for exactly the events it asked for
    among those three: every other event it asked for, [IO_EVENT_PRIORITY]
    among them, is dropped. *)
Theorem KQueue_arm_filters_round_trip r wr x ev :
  bit_of IO_EVENT_READABLE r → bit_of IO_EVENT_WRITABLE wr →
  bit_of IO_EVENT_EXIT x →
  EVFILT_READ ≠ EVFILT_WRITE → EVFILT_READ ≠ EVFILT_PROC →
  EVFILT_WRITE ≠ EVFILT_PROC →
  events_of_filters (KQueue.arm_filters ev)
  = Z.land ev (Z.lor (Z.lor IO_EVENT_READABLE IO_EVENT_WRITABLE) IO_EVENT_EXIT).
Proof.
  intros Hr Hw Hx Hrw Hrp Hwp.
  rewrite !Z.land_lor_distr_r.
  rewrite (land_bit ev _ _ Hr), (land_bit ev _ _ Hw), (land_bit ev _ _ Hx).
  unfold KQueue.arm_filters.
  rewrite (land_bit_eqb ev _ _ Hr), (land_bit_eqb ev _ _ Hw),
    (land_bit_eqb ev _ _ Hx).
  assert (KQueue.events_from_kevent_filter EVFILT_READ = IO_EVENT_READABLE) as Er.
  { unfold KQueue.events_from_kevent_filter. by rewrite Z.eqb_refl. }
  assert (KQueue.events_from_kevent_filter EVFILT_WRITE = IO_EVENT_WRITABLE) as Ew.
  { unfold KQueue.events_from_kevent_filter.
    destruct (Z.eqb_spec EVFILT_WRITE EVFILT_READ); [congruence|].
    by rewrite Z.eqb_refl. }
  assert (KQueue.events_from_kevent_filter EVFILT_PROC = IO_EVENT_EXIT) as Ex.
  { unfold KQueue.events_from_kevent_filter.
    destruct (Z.eqb_spec EVFILT_PROC EVFILT_READ); [congruence|].
    destruct (Z.eqb_spec EVFILT_PROC EVFILT_WRITE); [congruence|].
    by rewrite Z.eqb_refl. }
  destruct (Z.testbit ev r), (Z.testbit ev wr), (Z.testbit ev x); simpl;
    rewrite ?Er, ?Ew, ?Ex, ?Z.lor_0_r, ?Z.lor_0_l, ?Z.lor_assoc; reflexivity.
Qed.

(** Every epoll registration watches hang-up and error, and both are
    reported as readable.  When the five epoll flags are single bits that
    differ and the three events are single bits, the events that come back
    for the flags of [ev] are those of [ev] among readable, priority and
    writable, with [IO_EVENT_READABLE] added. *)
Theorem EPoll_flags_round_trip i p o h e r pr wr ev :
  bit_of EPOLLIN i → bit_of EPOLLPRI p → bit_of EPOLLOUT o →
  bit_of EPOLLHUP h → bit_of EPOLLERR e → NoDup [i; p; o; h; e] →
  bit_of IO_EVENT_READABLE r → bit_of IO_EVENT_PRIORITY pr →
  bit_of IO_EVENT_WRITABLE wr →
  EPoll.events_from_epoll_flags (EPoll.epoll_flags_from_events ev)
  = Z.lor (Z.land ev (Z.lor (Z.lor IO_EVENT_READABLE IO_EVENT_PRIORITY)
                        IO_EVENT_WRITABLE))
          IO_EVENT_READABLE.
Proof.
  intros Hi Hp Ho Hh He Hnd Hr Hpr Hwr.
  assert (i ≠ p ∧ i ≠ o ∧ i ≠ h ∧ i ≠ e ∧ p ≠ o ∧ p ≠ h ∧ p ≠ e
          ∧ o ≠ h ∧ o ≠ e ∧ h ≠ e) as Hne.
  { repeat match goal with
           | H : NoDup (_ :: _) |- _ => apply NoDup_cons in H as [? ?]
           end.
    set_unfold. intuition congruence. }
  destruct Hne as (? & ? & ? & ? & ? & ? & ? & ? & ? & ?).
  assert (0 ≤ i ∧ 0 ≤ p ∧ 0 ≤ o ∧ 0 ≤ h ∧ 0 ≤ e) as (? & ? & ? & ? & ?)
    by (unfold bit_of in *; intuition).
  rewrite !Z.land_lor_distr_r.
  rewrite (land_bit ev _ _ Hr), (land_bit ev _ _ Hpr), (land_bit ev _ _ Hwr).
  unfold EPoll.epoll_flags_from_events, EPoll.events_from_epoll_flags.
  rewrite (land_bit_eqb ev _ _ Hr), (land_bit_eqb ev _ _ Hpr),
    (land_bit_eqb ev _ _ Hwr).
  cbv zeta.
  set (flags := Z.lor (Z.lor _ EPOLLHUP) EPOLLERR).
  assert (Z.testbit flags h = true) as Hfh.
  { unfold flags. rewrite !Z.lor_spec, (bit_testbit _ _ _ Hh) by done.
    rewrite Z.eqb_refl. by rewrite orb_true_r. }
  assert ((Z.land flags (Z.lor (Z.lor EPOLLIN EPOLLHUP) EPOLLERR) =? 0) = false)
    as ->.
  { apply Z.eqb_neq. intros Hz.
    assert (Z.testbit (Z.land flags (Z.lor (Z.lor EPOLLIN EPOLLHUP) EPOLLERR)) h
            = true) as Hb.
    { rewrite Z.land_spec, Hfh, !Z.lor_spec, (bit_testbit _ _ _ Hh) by done.
      rewrite Z.eqb_refl. by rewrite orb_true_r. }
    by rewrite Hz, Z.bits_0 in Hb. }
  rewrite (land_bit_eqb flags _ _ Hp), (land_bit_eqb flags _ _ Ho).
  assert (Z.testbit flags p = Z.testbit ev pr) as ->.
  { unfold flags. destruct (Z.testbit ev r), (Z.testbit ev pr), (Z.testbit ev wr);
      simpl; rewrite ?Z.lor_spec, ?Z.bits_0,
        ?(bit_testbit _ _ p Hi), ?(bit_testbit _ _ p Hp),
        ?(bit_testbit _ _ p Ho), ?(bit_testbit _ _ p Hh),
        ?(bit_testbit _ _ p He) by done;
      repeat match goal with
             | |- context [?a =? ?b] =>
               first [ rewrite (Z.eqb_refl a)
                     | rewrite (proj2 (Z.eqb_neq a b)) by congruence ]
             end; reflexivity. }
  assert (Z.testbit flags o = Z.testbit ev wr) as ->.
  { unfold flags. destruct (Z.testbit ev r), (Z.testbit ev pr), (Z.testbit ev wr);
      simpl; rewrite ?Z.lor_spec, ?Z.bits_0,
        ?(bit_testbit _ _ o Hi), ?(bit_testbit _ _ o Hp),
        ?(bit_testbit _ _ o Ho), ?(bit_testbit _ _ o Hh),
        ?(bit_testbit _ _ o He) by done;
      repeat match goal with
             | |- context [?a =? ?b] =>
               first [ rewrite (Z.eqb_refl a)
                     | rewrite (proj2 (Z.eqb_neq a b)) by congruence ]
             end; reflexivity. }
  clear flags Hfh.
  destruct (Z.testbit ev r), (Z.testbit ev pr), (Z.testbit ev wr); simpl;
    apply Z.bits_inj'; intros n _; rewrite ?Z.lor_spec, ?Z.bits_0;
    destruct (Z.testbit IO_EVENT_READABLE n),
      (Z.testbit IO_EVENT_PRIORITY n), (Z.testbit IO_EVENT_WRITABLE n);
    reflexivity.
Qed.
End conversions.


(** * [select] returns, and the lists stay well formed *)

(** Every list of waiters is a ring through its descriptor record, no
    waiter is in two lists, and no handler's [saved] node is left in one. *)
Definition well_formed (w : World) : Prop :=
  ∃ M, Inv (memory w) M ∧ ∀ e, Saved ∉ M e.

Section total.
Context `{Platform}.
Implicit Types (w : World) (b : Backend) (d : Z).

Lemma settled_well_formed w d l : settled w d l → well_formed w.
Proof. intros (M & HI & _ & Hout). by exists M. Qed.

Lemma well_formed_settled w d : well_formed w → ∃ l, settled w d l.
Proof. intros (M & HI & Hout). exists (M d), M. done. Qed.

Lemma well_formed_memory w1 w2 :
  memory w2 = memory w1 → well_formed w1 → well_formed w2.
Proof. intros Hm (M & HI & Hout). exists M. by rewrite Hm. Qed.

Lemma perform_well_formed b w a : well_formed w → well_formed (perform b w a).
Proof.
  intros Hw. destruct a as [frame fiber io events_ kernel|frame how status];
    cbn [perform]; case_decide as Hfree; try done.
  - destruct (io_wait_memory b frame fiber io events_ kernel w)
      as ([Hm|[Hm|Hm]] & _).
    + by eapply well_formed_memory.
    + destruct (well_formed_settled w 0 Hw) as (l & Hs).
      eapply settled_well_formed. by eapply settled_scope.
    + destruct (well_formed_settled w io Hw) as (l & Hs).
      eapply settled_well_formed. by eapply settled_link.
  - destruct Hw as (M & HI & Hout).
    destruct (inv_linked _ _ HI (Wait frame) I Hfree) as (d & Hin).
    apply list_elem_of_split in Hin as (xs & ys & Hd).
    assert (settled w d (xs ++ Wait frame :: ys)) as Hs by (by exists M).
    eapply settled_well_formed.
    eapply (settled_unlink w _ d xs (Wait frame) ys Hs), resumed_memory.
Qed.

Lemma fibers_run_well_formed b w : well_formed w → well_formed (fibers_run b w).
Proof.
  intros Hw. unfold fibers_run. destruct (tasks w) as [|script t]; [done|].
  assert (well_formed (with_tasks t w)) as Hw' by done.
  revert Hw'. generalize (with_tasks t w). clear.
  induction script as [|a script IH]; intros w Hw; simpl; [done|].
  by apply IH, perform_well_formed.
Qed.

Lemma flush_well_formed b w :
  well_formed w → well_formed (snd (IO_Event_Selector_queue_flush b w)).
Proof.
  intros Hw. unfold IO_Event_Selector_queue_flush. simpl.
  assert (well_formed (emit Host_queue_flush (with_ready_queue [] w))) as Hw'
    by done.
  revert Hw'. generalize (emit Host_queue_flush (with_ready_queue [] w)).
  induction (ready_queue w) as [|f q IH]; intros w0 Hw0; simpl; [done|].
  by apply IH, fibers_run_well_formed.
Qed.

(** More fuel changes nothing once the loop has ended. *)
Lemma handle_waiters_more_fuel b fuel : ∀ fuel' list_ node E matched w x,
  handle_waiters fuel b list_ node E matched w = Some x →
  (fuel ≤ fuel')%nat →
  handle_waiters fuel' b list_ node E matched w = Some x.
Proof.
  induction fuel as [|fuel IH]; intros fuel' list_ node E matched w x; [done|].
  intros Hrun Hle. destruct fuel' as [|fuel']; [lia|].
  simpl in *. case_decide; [done|].
  destruct (negb _); apply IH; (done || lia).
Qed.

Lemma EPoll_handle_total event w :
  well_formed w →
  ∃ fuel0 r w',
    well_formed w'
    ∧ ∀ fuel, (fuel0 ≤ fuel)%nat →
              IO_Event_Selector_EPoll_handle fuel event w = Some (r, w').
Proof.
  intros Hw. destruct (Z.leb_spec 0 (data_fd event)) as [Hd|Hd].
  - destruct (well_formed_settled w (data_fd event) Hw) as (l & Hs).
    destruct (EPoll_handle_dispatch (S (length l)) event w l Hd Hs ltac:(lia))
      as (w' & res & left & Hrun & _ & _ & Hs' & _).
    exists (S (length l)), (Return ()), w'.
    split; [by eapply settled_well_formed|]. intros fuel Hle.
    revert Hrun. unfold IO_Event_Selector_EPoll_handle.
    destruct (EPoll.IO_Event_Selector_EPoll_Descriptor_lookup _); [|done].
    destruct (handle_waiters (S (length l)) _ _ _ _ _ _) as [x|] eqn:Hloop;
      [|done].
    by rewrite (handle_waiters_more_fuel _ _ fuel _ _ _ _ _ _ Hloop Hle).
  - exists 0%nat, (Raise (SystemCallError None)), w. split; [done|].
    intros fuel _. unfold IO_Event_Selector_EPoll_handle,
      EPoll.IO_Event_Selector_EPoll_Descriptor_lookup, IO_Event_Array_lookup.
    apply Z.leb_gt in Hd. by rewrite Hd.
Qed.

Lemma KQueue_handle_total ident d w :
  well_formed w →
  ∃ fuel0 w',
    well_formed w'
    ∧ ∀ fuel, (fuel0 ≤ fuel)%nat →
              IO_Event_Selector_KQueue_handle fuel ident d w = Some w'.
Proof.
  intros Hw. destruct (well_formed_settled w d Hw) as (l & Hs).
  destruct (KQueue_handle_dispatch (S (length l)) ident d w l Hs ltac:(lia))
    as (w' & res & left & Hrun & _ & _ & Hs' & _).
  exists (S (length l)), w'. split; [by eapply settled_well_formed|].
  intros fuel Hle. revert Hrun. unfold IO_Event_Selector_KQueue_handle.
  destruct (negb _); [|done].
  destruct (handle_waiters (S (length l)) _ _ _ _ _ _) as [x|] eqn:Hloop; [|done].
  by rewrite (handle_waiters_more_fuel _ _ fuel _ _ _ _ _ _ Hloop Hle).
Qed.

Lemma EPoll_dispatch_total events_ : ∀ w,
  well_formed w →
  ∃ fuel0 w',
    well_formed w'
    ∧ ∀ fuel, (fuel0 ≤ fuel)%nat →
              EPoll_select.dispatch fuel events_ w = Some w'.
Proof.
  induction events_ as [|event events_ IH]; intros w Hw; simpl.
  - by exists 0%nat, w.
  - destruct (0 <=? data_fd event).
    + destruct (EPoll_handle_total event w Hw) as (f1 & r & w1 & Hw1 & Hrun).
      destruct (IH w1 Hw1) as (f2 & w2 & Hw2 & Hrest).
      exists (f1 `max` f2)%nat, w2. split; [done|]. intros fuel Hle.
      rewrite Hrun by lia. apply Hrest. lia.
    + destruct (IH (emit Host_interrupt_clear w)) as (f2 & w2 & Hw2 & Hrest);
        [done|].
      by exists f2, w2.
Qed.

Lemma KQueue_dispatch_total events_ : ∀ w,
  well_formed w →
  ∃ fuel0 w',
    well_formed w'
    ∧ ∀ fuel, (fuel0 ≤ fuel)%nat →
              KQueue_select.dispatch fuel events_ w = Some w'.
Proof.
  induction events_ as [|event events_ IH]; intros w Hw; simpl.
  - by exists 0%nat, w.
  - destruct (KQueue_select.udata event) as [d|]; [|by apply IH].
    destruct (KQueue_handle_total (KQueue_select.ident event) d w Hw)
      as (f1 & w1 & Hw1 & Hrun).
    destruct (IH w1 Hw1) as (f2 & w2 & Hw2 & Hrest).
    exists (f1 `max` f2)%nat, w2. split; [done|]. intros fuel Hle.
    rewrite Hrun by lia. apply Hrest. lia.
Qed.

Lemma KQueue_accumulate_memory events_ : ∀ w,
  memory (KQueue_select.accumulate events_ w) = memory w.
Proof.
  induction events_ as [|event events_ IH]; intros w; simpl; [done|].
  destruct (KQueue_select.udata event); by rewrite IH.
Qed.

Lemma EPoll_select_waits_memory duration kernel w :
  memory (snd (EPoll_select.select_waits duration kernel w))
  = memory (snd (IO_Event_Selector_queue_flush EPoll w)).
Proof.
  unfold EPoll_select.select_waits.
  destruct (IO_Event_Selector_queue_flush EPoll w) as [ready w1]. simpl.
  unfold EPoll_select.select_internal_with_gvl,
    EPoll_select.select_internal_without_gvl, EPoll_select.select_internal.
  repeat match goal with
         | |- context [if ?c then _ else _] => destruct c; simpl
         | |- context [match ?x with _ => _ end] =>
           match type of x with
           | Polled _ => destruct x
           | result _ => destruct x
           | list _ => destruct x
           | option nat => destruct x
           end; simpl
         end; reflexivity.
Qed.

Lemma KQueue_select_waits_memory duration kernel w :
  memory (snd (KQueue_select.select_waits duration kernel w))
  = memory (snd (IO_Event_Selector_queue_flush KQueue w)).
Proof.
  unfold KQueue_select.select_waits.
  destruct (IO_Event_Selector_queue_flush KQueue w) as [ready w1]. simpl.
  unfold KQueue_select.select_internal_with_gvl,
    KQueue_select.select_internal_without_gvl, KQueue_select.select_internal.
  repeat match goal with
         | |- context [if ?c then _ else _] => destruct c; simpl
         | |- context [match ?x with _ => _ end] =>
           match type of x with
           | Polled _ => destruct x
           | result _ => destruct x
           | list _ => destruct x
           | option nat => destruct x
           end; simpl
         end; reflexivity.
Qed.

(** [select] returns, and leaves the lists well formed.  From a world
    whose lists of waiters are well formed, whatever the kernel answers and
    whatever the fibers do when they run (enter waits, leave them, raise
    into one another), the loops of [select] and of its handler end: there
    is a number of steps that is enough, and with it or more [select] gives
    one result; the lists are well formed after it. *)
Theorem select_returns duration w :
  well_formed w →
  (∀ kernel,
     ∃ fuel0 r w',
       well_formed w'
       ∧ ∀ fuel, (fuel0 ≤ fuel)%nat →
                 EPoll_select.IO_Event_Selector_EPoll_select fuel duration
                   kernel w = Some (r, w'))
  ∧ (∀ kernel,
       ∃ fuel0 r w',
         well_formed w'
         ∧ ∀ fuel, (fuel0 ≤ fuel)%nat →
                   KQueue_select.IO_Event_Selector_KQueue_select fuel duration
                     kernel w = Some (r, w')).
Proof.
  intros Hw. split; intros kernel.
  - unfold EPoll_select.IO_Event_Selector_EPoll_select.
    pose proof (EPoll_select_waits_memory duration kernel w) as Hm.
    pose proof (flush_well_formed EPoll w Hw) as Hflush.
    destruct (EPoll_select.select_waits duration kernel w) as [[events_|e] w1];
      simpl in Hm.
    + destruct (EPoll_dispatch_total events_ w1) as (f & w2 & Hw2 & Hrun);
        [by eapply well_formed_memory|].
      exists f, (Return (INT2NUM (Z.of_nat (length events_)))), w2.
      split; [done|]. intros fuel Hle. by rewrite Hrun.
    + exists 0%nat, (Raise e), w1. split; [by eapply well_formed_memory|done].
  - unfold KQueue_select.IO_Event_Selector_KQueue_select.
    pose proof (KQueue_select_waits_memory duration kernel w) as Hm.
    pose proof (flush_well_formed KQueue w Hw) as Hflush.
    destruct (KQueue_select.select_waits duration kernel w) as [[events_|e] w1];
      simpl in Hm.
    + destruct (KQueue_dispatch_total events_ (KQueue_select.accumulate events_ w1))
        as (f & w2 & Hw2 & Hrun).
      { eapply well_formed_memory; [|exact Hflush].
        by rewrite KQueue_accumulate_memory. }
      exists f, (Return (INT2NUM (Z.of_nat (length events_)))), w2.
      split; [done|]. intros fuel Hle. by rewrite Hrun.
    + exists 0%nat, (Raise e), w1. split; [by eapply well_formed_memory|done].
Qed.
End total.


(** * The lists are well formed in every state that can be reached *)

(** One thing happens to a kqueue selector: a fiber enters [io_wait] or a
    waiter leaves its wait, the kernel's events are gathered into the
    accumulators, or a descriptor record is dispatched. *)
Inductive KQueue_step `{Platform} : World → World → Prop :=
| kqueue_step_fiber w a : KQueue_step w (perform KQueue w a)
| kqueue_step_accumulate w events_ :
    KQueue_step w (KQueue_select.accumulate events_ w)
| kqueue_step_handle w fuel ident d w' :
    IO_Event_Selector_KQueue_handle fuel ident d w = Some w' →
    KQueue_step w w'.

Section reachable.
Context `{Platform}.
Implicit Types (w : World) (d : Z).

Lemma fresh_well_formed t : well_formed (fresh t).
Proof. exists (λ _, []). split; [apply Inv_fresh|]. intros e. apply not_elem_of_nil. Qed.

Lemma EPoll_handle_well_formed fuel event w r w' :
  well_formed w →
  IO_Event_Selector_EPoll_handle fuel event w = Some (r, w') →
  well_formed w'.
Proof.
  intros Hw Hrun.
  destruct (EPoll_handle_total event w Hw) as (fuel0 & r0 & w0 & Hw0 & Hall).
  specialize (Hall (fuel `max` fuel0)%nat ltac:(lia)).
  assert (IO_Event_Selector_EPoll_handle (fuel `max` fuel0) event w = Some (r, w'))
    as Hmore.
  { revert Hrun. unfold IO_Event_Selector_EPoll_handle.
    destruct (EPoll.IO_Event_Selector_EPoll_Descriptor_lookup _); [|done].
    destruct (handle_waiters fuel _ _ _ _ _ _) as [x|] eqn:Hloop; [|done].
    by rewrite (handle_waiters_more_fuel _ _ (fuel `max` fuel0)%nat _ _ _ _ _ _
                  Hloop ltac:(lia)). }
  congruence.
Qed.

Lemma KQueue_handle_well_formed fuel ident d w w' :
  well_formed w →
  IO_Event_Selector_KQueue_handle fuel ident d w = Some w' →
  well_formed w'.
Proof.
  intros Hw Hrun.
  destruct (KQueue_handle_total ident d w Hw) as (fuel0 & w0 & Hw0 & Hall).
  specialize (Hall (fuel `max` fuel0)%nat ltac:(lia)).
  assert (IO_Event_Selector_KQueue_handle (fuel `max` fuel0) ident d w = Some w')
    as Hmore.
  { revert Hrun. unfold IO_Event_Selector_KQueue_handle.
    destruct (negb _); [|done].
    destruct (handle_waiters fuel _ _ _ _ _ _) as [x|] eqn:Hloop; [|done].
    by rewrite (handle_waiters_more_fuel _ _ (fuel `max` fuel0)%nat _ _ _ _ _ _
                  Hloop ltac:(lia)). }
  congruence.
Qed.

(** Whatever happens to a selector, its lists of waiters stay well
    formed: from a well-formed world, and so from a selector as it is
    created, every world reached by fibers entering and leaving waits and
    by dispatches of kernel events, in any order and with handlers
    returning after any number of steps, is well formed. *)
Theorem reachable_well_formed w w' :
  well_formed w →
  rtc EPoll_step w w' ∨ rtc KQueue_step w w' →
  well_formed w'.
Proof.
  intros Hw [Hsteps|Hsteps].
  - induction Hsteps as [w|w1 w2 w3 Hstep _ IH]; [done|]. apply IH.
    destruct Hstep as [w a|w fuel event r w' Hrun].
    + by apply perform_well_formed.
    + by eapply EPoll_handle_well_formed.
  - induction Hsteps as [w|w1 w2 w3 Hstep _ IH]; [done|]. apply IH.
    destruct Hstep as [w a|w events_|w fuel ident d w' Hrun].
    + by apply perform_well_formed.
    + eapply well_formed_memory; [apply KQueue_accumulate_memory|done].
    + by eapply KQueue_handle_well_formed.
Qed.

(** The kqueue [process_wait] arms the one filter of [IO_EVENT_EXIT] on
    the pid, with the record of the pid, and links its waiter at the head
    of that record's list; when [kevent] fails it raises and links
    nothing, and for a negative pid it raises before any call. *)
Theorem KQueue_process_wait_registers_then_links frame fiber pid kernel w l :
  settled w pid l → head (memory w (Wait frame)) = NULL →
  let r := KQueue.IO_Event_Selector_KQueue_process_wait frame fiber pid kernel w in
  (pid < 0 → fst r = Failed (SystemCallError None) ∧ snd r = w)
  ∧ (0 ≤ pid →
     effects (snd r)
     = effects w
       ++ [Sys_kevent_register pid (KQueue.arm_filters IO_EVENT_EXIT) kernel]
     ∧ descriptor_mask (snd r) = descriptor_mask w
     ∧ (kernel = Success →
        fst r = Suspended
        ∧ settled (snd r) pid (Wait frame :: l)
        ∧ waiting (snd r) (Wait frame)
          = {| waiting_events := IO_EVENT_EXIT; waiting_fiber := fiber;
               waiting_frame := in_process_wait pid pid |})
     ∧ (∀ errno, kernel = Failure errno →
          fst r = Failed (SystemCallError (Some errno))
          ∧ settled (snd r) pid l
          ∧ head (memory (snd r) (Wait frame)) = NULL)).
Proof.
  intros Hs Hfree.
  unfold KQueue.IO_Event_Selector_KQueue_process_wait,
    KQueue.IO_Event_Selector_KQueue_Descriptor_lookup, IO_Event_Array_lookup,
    KQueue.IO_Event_Selector_KQueue_arm.
  cbv zeta. split.
  - intros Hneg. apply Z.leb_gt in Hneg. by rewrite Hneg.
  - intros Hpid. apply Z.leb_le in Hpid. rewrite Hpid. simpl.
    rewrite decide_True by done. simpl.
    destruct kernel as [|errno]; simpl.
    + split_and!; try done. intros _. split_and!; [done| |].
      * by eapply settled_link.
      * by rewrite decide_True.
    + split_and!; try done.
      intros errno' [= <-]. split_and!; [done| |].
      * by eapply settled_scope.
      * unfold declare. by rewrite decide_True.
Qed.
End reachable.


(** * Whom [select] resumes *)

Section more_fuel.
Context `{Platform}.
Implicit Types (w : World) (d : Z).

Lemma EPoll_handle_more_fuel fuel fuel' event w x :
  IO_Event_Selector_EPoll_handle fuel event w = Some x → (fuel ≤ fuel')%nat →
  IO_Event_Selector_EPoll_handle fuel' event w = Some x.
Proof.
  unfold IO_Event_Selector_EPoll_handle. intros Hrun Hle.
  destruct (EPoll.IO_Event_Selector_EPoll_Descriptor_lookup _); [|done].
  destruct (handle_waiters fuel _ _ _ _ _ _) as [y|] eqn:Hloop; [|done].
  by rewrite (handle_waiters_more_fuel _ _ fuel' _ _ _ _ _ _ Hloop Hle).
Qed.

Lemma KQueue_handle_more_fuel fuel fuel' ident d w x :
  IO_Event_Selector_KQueue_handle fuel ident d w = Some x → (fuel ≤ fuel')%nat →
  IO_Event_Selector_KQueue_handle fuel' ident d w = Some x.
Proof.
  unfold IO_Event_Selector_KQueue_handle. intros Hrun Hle.
  destruct (negb _); [|done].
  destruct (handle_waiters fuel _ _ _ _ _ _) as [y|] eqn:Hloop; [|done].
  by rewrite (handle_waiters_more_fuel _ _ fuel' _ _ _ _ _ _ Hloop Hle).
Qed.

Lemma flush_transfers b w :
  transfers (effects (snd (IO_Event_Selector_queue_flush b w)))
  = transfers (effects w).
Proof.
  unfold IO_Event_Selector_queue_flush. simpl.
  assert (transfers (effects (emit Host_queue_flush (with_ready_queue [] w)))
          = transfers (effects w)) as <-
    by (simpl; by rewrite transfers_snoc by (simpl; tauto)).
  generalize (emit Host_queue_flush (with_ready_queue [] w)).
  induction (ready_queue w) as [|f q IH]; intros w0; simpl; [done|].
  by rewrite IH, fibers_run_transfers.
Qed.

Lemma accumulated_elsewhere d events_ : ∀ ready,
  Some d ∉ map KQueue_select.udata events_ →
  accumulated d events_ ready = ready.
Proof.
  unfold accumulated.
  induction events_ as [|event events_ IH]; intros ready Hd; simpl; [done|].
  simpl in Hd. apply not_elem_of_cons in Hd as [Hne Hd].
  rewrite decide_False by done. by apply IH.
Qed.

Lemma KQueue_accumulate_effects events_ : ∀ w,
  effects (KQueue_select.accumulate events_ w) = effects w.
Proof.
  induction events_ as [|event events_ IH]; intros w; simpl; [done|].
  destruct (KQueue_select.udata event); by rewrite IH.
Qed.
End more_fuel.


(** The answer that [select_internal] of epoll.c takes its events from. *)
Definition EPoll_used `{Platform} (pwait2 wait : Polled epoll_event)
  : Polled epoll_event :=
  if HAVE_EPOLL_PWAIT2
  then if EPoll_select.enosys_error pwait2 then wait else pwait2
  else wait.

(** The answer of the kernel to the wait with the lock held, or to the one
    without it. *)
Definition EPoll_answer `{Platform} (kernel : EPoll_select.Kernel)
    (without_gvl : bool) : Polled epoll_event :=
  if without_gvl
  then EPoll_used (EPoll_select.blocking_pwait2 kernel)
         (EPoll_select.blocking_wait kernel)
  else EPoll_used (EPoll_select.nonblocking_pwait2 kernel)
         (EPoll_select.nonblocking_wait kernel).

Definition KQueue_answer (kernel : KQueue_select.Kernel) (without_gvl : bool)
  : Polled KQueue_select.kevent :=
  if without_gvl then KQueue_select.blocking_kevent kernel
  else KQueue_select.nonblocking_kevent kernel.

(** [events_] are the events of the answer [answer]: the events that the
    kernel filled in, or none when the wait was interrupted. *)
Definition events_of `{Platform} {E} (answer : Polled E) (events_ : list E)
  : Prop :=
  answer = polled events_ ∨ (answer = poll_failed EINTR ∧ events_ = []).

(** [t] is the transfer into a waiter [x] that the loop of the epoll
    [select] over [events_], from the world [w1], resumes for one of these
    events: [x] is linked on the list of the descriptor of that event when
    the handler is called for it, it asked for one of the events reported,
    and it is given those of the events reported that it asked for. *)
Definition EPoll_resumes `{Platform} (fuel : nat) (w1 : World)
    (events_ : list epoll_event) (t : Effect) : Prop :=
  ∃ pre event post w_at l x,
    events_ = pre ++ event :: post
    ∧ 0 ≤ data_fd event
    ∧ EPoll_select.dispatch fuel pre w1 = Some w_at
    ∧ settled w_at (data_fd event) l
    ∧ x ∈ l
    ∧ wants (EPoll.events_from_epoll_flags (events event)) (waiting w_at) x
    ∧ t = resume_of (EPoll.events_from_epoll_flags (events event))
            (waiting w_at) x.

(** The same for the second loop of the kqueue [select], from the world
    [w0] that the first loop left: the event is the first of [events_] that
    points to its record [d], and the events given are taken from what the
    first loop gathered for [d]. *)
Definition KQueue_resumes `{Platform} (fuel : nat) (w0 : World)
    (events_ : list KQueue_select.kevent) (t : Effect) : Prop :=
  ∃ pre event post d w_at l x,
    events_ = pre ++ event :: post
    ∧ KQueue_select.udata event = Some d
    ∧ (Some d ∉ map KQueue_select.udata pre)
    ∧ KQueue_select.dispatch fuel pre w0 = Some w_at
    ∧ settled w_at d l
    ∧ x ∈ l
    ∧ wants (descriptor_mask w0 d) (waiting w_at) x
    ∧ t = resume_of (descriptor_mask w0 d) (waiting w_at) x.

Section delivery.
Context `{Platform}.
Implicit Types (w : World) (d : Z).

Lemma EPoll_handle_dispatched fuel event w r w' l :
  0 ≤ data_fd event → settled w (data_fd event) l →
  IO_Event_Selector_EPoll_handle fuel event w = Some (r, w') →
  ∃ resumed_ left,
    dispatched (EPoll.events_from_epoll_flags (events event)) (data_fd event) l
      w w' resumed_ left.
Proof.
  intros Hd Hs Hrun.
  destruct (EPoll_handle_dispatch (fuel `max` S (length l)) event w l Hd Hs
              ltac:(lia)) as (w0 & res & left & Hrun0 & Hsub & Htr & Hs' & Hq).
  rewrite (EPoll_handle_more_fuel fuel (fuel `max` S (length l)) _ _ _ Hrun
             ltac:(lia)) in Hrun0.
  injection Hrun0 as _ <-. exists res, left. by apply dispatched_intro.
Qed.

Lemma KQueue_handle_dispatched fuel ident d w w' l :
  settled w d l →
  IO_Event_Selector_KQueue_handle fuel ident d w = Some w' →
  ∃ resumed_ left, dispatched (descriptor_mask w d) d l w w' resumed_ left.
Proof.
  intros Hs Hrun.
  destruct (KQueue_handle_dispatch (fuel `max` S (length l)) ident d w l Hs
              ltac:(lia)) as (w0 & res & left & Hrun0 & Hsub & Htr & Hs' & Hq).
  rewrite (KQueue_handle_more_fuel fuel (fuel `max` S (length l)) _ _ _ _ Hrun
             ltac:(lia)) in Hrun0.
  injection Hrun0 as <-. exists res, left. by apply dispatched_intro.
Qed.

Lemma dispatched_resumes E d l w w' resumed_ left :
  dispatched E d l w w' resumed_ left →
  transfers (effects w')
  = transfers (effects w) ++ map (resume_of E (waiting w)) resumed_
  ∧ Forall (λ x, x ∈ l ∧ wants E (waiting w) x) resumed_.
Proof.
  intros (Htr & Hsub & _). split; [done|]. apply Forall_forall. intros x Hx.
  eapply elem_of_sublist in Hx; [|exact Hsub].
  by apply list_elem_of_filter in Hx as [? ?].
Qed.

Lemma EPoll_dispatch_resumes fuel events_ : ∀ w w',
  well_formed w →
  EPoll_select.dispatch fuel events_ w = Some w' →
  ∃ ts,
    transfers (effects w') = transfers (effects w) ++ ts
    ∧ Forall (EPoll_resumes fuel w events_) ts.
Proof.
  induction events_ as [|event events_ IH]; intros w w' Hw; simpl.
  - intros [= <-]. exists []. by rewrite app_nil_r.
  - destruct (Z.leb_spec 0 (data_fd event)) as [Hd|Hd].
    + destruct (IO_Event_Selector_EPoll_handle fuel event w) as [[r w1]|]
        eqn:Hrun; [|done].
      intros Hrest.
      destruct (well_formed_settled w (data_fd event) Hw) as (l & Hs).
      destruct (EPoll_handle_dispatched _ _ _ _ _ _ Hd Hs Hrun)
        as (res & left & Hdone).
      destruct (dispatched_resumes _ _ _ _ _ _ _ Hdone) as [Htr1 Hres].
      destruct (IH w1 w' (EPoll_handle_well_formed _ _ _ _ _ Hw Hrun) Hrest)
        as (ts2 & Htr2 & Hf2).
      eexists. rewrite Htr2, Htr1, <- app_assoc. split; [done|].
      apply Forall_app. split.
      * apply Forall_map. eapply Forall_impl; [exact Hres|].
        intros x [Hx Hwants]. simpl.
        exists [], event, events_, w, l, x. by split_and!.
      * eapply Forall_impl; [exact Hf2|].
        intros t (pre & ev & post & w_at & l' & x & -> & Hfd & Hpre & Hrest').
        exists (event :: pre), ev, post, w_at, l', x.
        split_and!; [done|done| |apply Hrest'..].
        simpl. apply Z.leb_le in Hd. by rewrite Hd, Hrun.
    + intros Hrest.
      destruct (IH (emit Host_interrupt_clear w) w') as (ts2 & Htr2 & Hf2);
        [by eapply well_formed_memory|done|].
      exists ts2. rewrite Htr2. simpl.
      rewrite transfers_snoc by (simpl; tauto). split; [done|].
      eapply Forall_impl; [exact Hf2|].
      intros t (pre & ev & post & w_at & l' & x & -> & Hfd & Hpre & Hrest').
      exists (event :: pre), ev, post, w_at, l', x.
      split_and!; [done|done| |apply Hrest'..].
      simpl. apply Z.leb_gt in Hd. by rewrite Hd.
Qed.

Lemma not_wants_nothing (ev : addr → Waiting) x : ¬ wants 0 ev x.
Proof. unfold wants. rewrite Z.land_0_r. tauto. Qed.

Lemma KQueue_dispatch_resumes fuel events_ : ∀ w w',
  well_formed w →
  KQueue_select.dispatch fuel events_ w = Some w' →
  ∃ ts,
    transfers (effects w') = transfers (effects w) ++ ts
    ∧ Forall (KQueue_resumes fuel w events_) ts.
Proof.
  induction events_ as [|event events_ IH]; intros w w' Hw; simpl.
  - intros [= <-]. exists []. by rewrite app_nil_r.
  - destruct (KQueue_select.udata event) as [d0|] eqn:Hu.
    + destruct (IO_Event_Selector_KQueue_handle _ _ _ _) as [w1|] eqn:Hrun;
        [|done].
      intros Hrest.
      destruct (well_formed_settled w d0 Hw) as (l & Hs).
      destruct (KQueue_handle_dispatched _ _ _ _ _ _ Hs Hrun)
        as (res & left & Hdone).
      destruct (dispatched_resumes _ _ _ _ _ _ _ Hdone) as [Htr1 Hres].
      destruct (KQueue_handle_mask _ _ _ _ _ Hrun) as [Hz Hother].
      destruct (IH w1 w' (KQueue_handle_well_formed _ _ _ _ _ Hw Hrun) Hrest)
        as (ts2 & Htr2 & Hf2).
      eexists. rewrite Htr2, Htr1, <- app_assoc. split; [done|].
      apply Forall_app. split.
      * apply Forall_map. eapply Forall_impl; [exact Hres|].
        intros x [Hx Hwants]. simpl.
        exists [], event, events_, d0, w, l, x.
        split_and!; try done. apply not_elem_of_nil.
      * eapply Forall_impl; [exact Hf2|].
        intros t (pre & ev & post & d & w_at & l' & x & -> & Hud & Hfirst
                  & Hpre & Hs' & Hx & Hwants & ->).
        assert (d ≠ d0) as Hne.
        { intros ->. rewrite Hz in Hwants. by apply not_wants_nothing in Hwants. }
        rewrite (Hother d Hne) in Hwants |- *.
        exists (event :: pre), ev, post, d, w_at, l', x.
        split_and!; try done.
        -- simpl. rewrite Hu. apply not_elem_of_cons. split; [congruence|done].
        -- simpl. by rewrite Hu, Hrun.
    + intros Hrest. destruct (IH w w' Hw Hrest) as (ts2 & Htr2 & Hf2).
      exists ts2. split; [done|].
      eapply Forall_impl; [exact Hf2|].
      intros t (pre & ev & post & d & w_at & l' & x & -> & Hud & Hfirst
                & Hpre & Hrest').
      exists (event :: pre), ev, post, d, w_at, l', x.
      split_and!; [done|done| | |apply Hrest'..].
      * simpl. rewrite Hu. apply not_elem_of_cons. split; [done|done].
      * simpl. by rewrite Hu.
Qed.

(** The second loop of the kqueue [select], event by event. *)
Lemma KQueue_dispatch_each fuel event post d : ∀ pre w w',
  well_formed w →
  KQueue_select.dispatch fuel (pre ++ event :: post) w = Some w' →
  KQueue_select.udata event = Some d →
  ∃ w_at w_next,
    KQueue_select.dispatch fuel pre w = Some w_at
    ∧ well_formed w_at
    ∧ IO_Event_Selector_KQueue_handle fuel (KQueue_select.ident event) d w_at
      = Some w_next
    ∧ KQueue_select.dispatch fuel post w_next = Some w'
    ∧ (Some d ∉ map KQueue_select.udata pre →
       descriptor_mask w_at d = descriptor_mask w d)
    ∧ (Some d ∈ map KQueue_select.udata pre → descriptor_mask w_at d = 0).
Proof.
  induction pre as [|event0 pre IH]; intros w w' Hw Hrun Hu; simpl in Hrun.
  - rewrite Hu in Hrun.
    destruct (IO_Event_Selector_KQueue_handle _ _ _ _) as [w1|] eqn:Hhandle;
      [|done].
    exists w, w1. split_and!; try done. by intros ?%elem_of_nil.
  - destruct (KQueue_select.udata event0) as [d0|] eqn:Hu0.
    + destruct (IO_Event_Selector_KQueue_handle fuel _ d0 w) as [w1|] eqn:Hhandle;
        [|done].
      destruct (KQueue_handle_mask _ _ _ _ _ Hhandle) as [Hz Hother].
      destruct (IH w1 w' (KQueue_handle_well_formed _ _ _ _ _ Hw Hhandle) Hrun Hu)
        as (w_at & w_next & Hpre & Hw_at & Hnext & Hpost & Hout & Hin).
      exists w_at, w_next. split_and!; try done.
      * simpl. by rewrite Hu0, Hhandle.
      * simpl. rewrite Hu0. intros [Hne Hd]%not_elem_of_cons.
        rewrite (Hout Hd). apply Hother. congruence.
      * simpl. rewrite Hu0. intros Hd.
        destruct (decide (Some d ∈ map KQueue_select.udata pre)) as [Hd'|Hd'];
          [by apply Hin|].
        apply elem_of_cons in Hd as [[= ->]|Hd]; [|done].
        by rewrite (Hout Hd').
    + destruct (IH w w' Hw Hrun Hu)
        as (w_at & w_next & Hpre & Hw_at & Hnext & Hpost & Hout & Hin).
      exists w_at, w_next. split_and!; try done.
      * simpl. by rewrite Hu0.
      * simpl. rewrite Hu0. intros [_ Hd]%not_elem_of_cons. by apply Hout.
      * simpl. rewrite Hu0. intros [[=]|Hd]%elem_of_cons. by apply Hin.
Qed.

Lemma KQueue_dispatch_masks fuel events_ : ∀ w w' d,
  KQueue_select.dispatch fuel events_ w = Some w' →
  descriptor_mask w' d
  = if decide (Some d ∈ map KQueue_select.udata events_) then 0
    else descriptor_mask w d.
Proof.
  induction events_ as [|event events_ IH]; intros w w' d;
    cbn [KQueue_select.dispatch map].
  - intros [= <-]. by rewrite decide_False by apply not_elem_of_nil.
  - destruct (KQueue_select.udata event) as [d0|] eqn:Hu.
    + destruct (IO_Event_Selector_KQueue_handle _ _ _ _) as [w1|] eqn:Hrun;
        [|done].
      intros Hrest. rewrite (IH w1 w' d Hrest).
      destruct (KQueue_handle_mask _ _ _ _ _ Hrun) as [Hz Hother].
      destruct (decide (Some d ∈ map KQueue_select.udata events_)) as [Hd|Hd].
      * by rewrite decide_True by (by apply list_elem_of_further).
      * destruct (decide (d = d0)) as [->|Hne].
        -- by rewrite decide_True by apply list_elem_of_here.
        -- rewrite decide_False; [by apply Hother|].
           apply not_elem_of_cons. split; [congruence|done].
    + intros Hrest. rewrite (IH w w' d Hrest).
      destruct (decide (Some d ∈ map KQueue_select.udata events_)) as [Hd|Hd].
      * by rewrite decide_True by (by apply list_elem_of_further).
      * rewrite decide_False; [done|]. apply not_elem_of_cons. by split.
Qed.

Lemma flush_mask_kqueue w :
  descriptor_mask (snd (IO_Event_Selector_queue_flush KQueue w))
  = descriptor_mask w.
Proof.
  unfold IO_Event_Selector_queue_flush. simpl.
  change (descriptor_mask w)
    with (descriptor_mask (emit Host_queue_flush (with_ready_queue [] w))).
  generalize (emit Host_queue_flush (with_ready_queue [] w)).
  induction (ready_queue w) as [|f q IH]; intros w0; simpl; [done|].
  rewrite IH. symmetry.
  apply (fibers_run_mask KQueue (λ m m', m = m')); [done|congruence|].
  intros. by rewrite KQueue_perform_mask.
Qed.

(** The waits of [select] transfer to nobody, and what they give are the
    events of the answer of the kernel to the last wait made. *)
Lemma EPoll_with_gvl_answer timeout p q w :
  let r := EPoll_select.select_internal_with_gvl timeout p q w in
  transfers (effects (snd r)) = transfers (effects w)
  ∧ ∀ events_, fst r = Return events_ → events_of (EPoll_used p q) events_.
Proof.
  unfold EPoll_select.select_internal_with_gvl, EPoll_select.select_internal,
    EPoll_used, events_of.
  destruct HAVE_EPOLL_PWAIT2; simpl;
    [destruct (EPoll_select.enosys_error p); simpl|];
    match goal with |- context [match ?x with polled _ => _ | _ => _ end] =>
      destruct x as [evs|errno]; simpl;
      [|destruct (Z.eqb_spec errno EINTR) as [->|Hne]; simpl];
      (split; [by rewrite ?transfers_snoc by (simpl; tauto)|]);
      intros events_ [= <-]; auto
    end.
Qed.

Lemma EPoll_without_gvl_answer timeout p q i w :
  let r := EPoll_select.select_internal_without_gvl timeout p q i w in
  transfers (effects (snd r)) = transfers (effects w)
  ∧ ∀ events_, fst r = Return events_ → events_of (EPoll_used p q) events_.
Proof.
  unfold EPoll_select.select_internal_without_gvl, EPoll_select.select_internal,
    EPoll_used, events_of.
  destruct i as [id|]; simpl.
  { destruct HAVE_EPOLL_PWAIT2; simpl;
      [destruct (negb (EPoll_select.enosys_error p)); simpl|];
      (split; [by rewrite ?transfers_snoc by (simpl; tauto)|done]). }
  destruct HAVE_EPOLL_PWAIT2; simpl;
    [destruct (EPoll_select.enosys_error p); simpl|];
    match goal with |- context [match ?x with polled _ => _ | _ => _ end] =>
      destruct x as [evs|errno]; simpl;
      [|destruct (Z.eqb_spec errno EINTR) as [->|Hne]; simpl];
      (split; [by rewrite ?transfers_snoc by (simpl; tauto)|]);
      intros events_ [= <-]; auto
    end.
Qed.

Lemma KQueue_with_gvl_answer count timeout p w :
  let r := KQueue_select.select_internal_with_gvl count timeout p w in
  transfers (effects (snd r)) = transfers (effects w)
  ∧ descriptor_mask (snd r) = descriptor_mask w
  ∧ ∀ events_, fst r = Return events_ → events_of p events_.
Proof.
  unfold KQueue_select.select_internal_with_gvl, KQueue_select.select_internal,
    events_of. simpl.
  destruct p as [evs|errno]; simpl;
    [|destruct (Z.eqb_spec errno EINTR) as [->|Hne]; simpl];
    (split; [by rewrite ?transfers_snoc by (simpl; tauto)|]);
    (split; [done|]); intros events_ [= <-]; auto.
Qed.

Lemma KQueue_without_gvl_answer count timeout p i w :
  let r := KQueue_select.select_internal_without_gvl count timeout p i w in
  transfers (effects (snd r)) = transfers (effects w)
  ∧ descriptor_mask (snd r) = descriptor_mask w
  ∧ ∀ events_, fst r = Return events_ → events_of p events_.
Proof.
  unfold KQueue_select.select_internal_without_gvl,
    KQueue_select.select_internal, events_of. simpl.
  destruct i as [id|]; simpl.
  { split; [by rewrite ?transfers_snoc by (simpl; tauto)|done]. }
  destruct p as [evs|errno]; simpl;
    [|destruct (Z.eqb_spec errno EINTR) as [->|Hne]; simpl];
    (split; [by rewrite ?transfers_snoc by (simpl; tauto)|]);
    (split; [done|]); intros events_ [= <-]; auto.
Qed.

Lemma EPoll_select_waits_answer duration kernel w :
  let r := EPoll_select.select_waits duration kernel w in
  transfers (effects (snd r)) = transfers (effects w)
  ∧ ∀ events_, fst r = Return events_ →
      ∃ without_gvl : bool,
        (if without_gvl then blocked_in_kernel w (snd r)
         else ¬ blocked_in_kernel w (snd r))
        ∧ events_of (EPoll_answer kernel without_gvl) events_.
Proof.
  cbv zeta. unfold EPoll_select.select_waits, blocked_in_kernel.
  pose proof (flush_transfers EPoll w) as Hflush.
  pose proof (flush_waits EPoll w) as Hf.
  destruct (IO_Event_Selector_queue_flush EPoll w) as [ready w1].
  cbn [fst snd] in Hflush, Hf.
  pose proof (EPoll_with_gvl_answer (Some {| tv_sec := 0; tv_nsec := 0 |})
                (EPoll_select.nonblocking_pwait2 kernel)
                (EPoll_select.nonblocking_wait kernel) w1) as Hwith.
  pose proof (EPoll_with_gvl_waits (Some {| tv_sec := 0; tv_nsec := 0 |})
                (EPoll_select.nonblocking_pwait2 kernel)
                (EPoll_select.nonblocking_wait kernel) w1) as Hwaits.
  cbv zeta in Hwith.
  destruct (EPoll_select.select_internal_with_gvl _ _ _ _) as [[events_|e] w2];
    cbn [fst snd] in Hwith, Hwaits; destruct Hwith as [Htr Hans]; cbv zeta;
    [|cbn [fst snd]; split; [congruence|done]].
  assert (∀ evs, (Return events_ : result (list epoll_event)) = Return evs →
            ∃ without_gvl : bool,
              (if without_gvl
               then waits_without_gvl (effects w2)
                    ≠ waits_without_gvl (effects w)
               else ¬ waits_without_gvl (effects w2)
                      ≠ waits_without_gvl (effects w))
              ∧ events_of (EPoll_answer kernel without_gvl) evs) as Hheld.
  { intros evs Hevs. exists false. split; [intros Hne; apply Hne; congruence|].
    by apply Hans. }
  destruct (_ && _); cbn [fst snd]; [|split; [congruence|done]].
  destruct (make_timeout duration) as [timeout|e] eqn:Htimeout; cbn [fst snd];
    [|split; [congruence|done]].
  destruct (negb (timeout_nonblocking timeout)); cbn [fst snd];
    [|split; [congruence|done]].
  pose proof (EPoll_without_gvl_answer timeout
                (EPoll_select.blocking_pwait2 kernel)
                (EPoll_select.blocking_wait kernel)
                (EPoll_select.pending_interrupt kernel) w2) as [Htr' Hans'].
  split; [congruence|]. intros evs Hevs. exists true. split; [|by apply Hans'].
  rewrite EPoll_without_gvl_waits, Hwaits, Hf.
  apply app_not_nil, EPoll_blocking_calls_not_nil.
Qed.

Lemma KQueue_select_waits_answer duration kernel w :
  let r := KQueue_select.select_waits duration kernel w in
  transfers (effects (snd r)) = transfers (effects w)
  ∧ descriptor_mask (snd r) = descriptor_mask w
  ∧ ∀ events_, fst r = Return events_ →
      ∃ without_gvl : bool,
        (if without_gvl then blocked_in_kernel w (snd r)
         else ¬ blocked_in_kernel w (snd r))
        ∧ events_of (KQueue_answer kernel without_gvl) events_.
Proof.
  cbv zeta. unfold KQueue_select.select_waits, blocked_in_kernel.
  pose proof (flush_transfers KQueue w) as Hflush.
  pose proof (flush_waits KQueue w) as Hf.
  pose proof (flush_mask_kqueue w) as Hmask.
  destruct (IO_Event_Selector_queue_flush KQueue w) as [ready w1].
  cbn [fst snd] in Hflush, Hf, Hmask.
  pose proof (KQueue_with_gvl_answer KQueue_select.KQUEUE_MAX_EVENTS
                (Some {| tv_sec := 0; tv_nsec := 0 |})
                (KQueue_select.nonblocking_kevent kernel) w1) as Hwith.
  pose proof (KQueue_with_gvl_waits KQueue_select.KQUEUE_MAX_EVENTS
                (Some {| tv_sec := 0; tv_nsec := 0 |})
                (KQueue_select.nonblocking_kevent kernel) w1) as Hwaits.
  cbv zeta in Hwith.
  destruct (KQueue_select.select_internal_with_gvl _ _ _ _) as [[events_|e] w2];
    cbn [fst snd] in Hwith, Hwaits; destruct Hwith as (Htr & Hm & Hans);
    cbv zeta; [|cbn [fst snd]; split_and!; [congruence|congruence|done]].
  assert (∀ evs, (Return events_ : result (list KQueue_select.kevent))
                 = Return evs →
            ∃ without_gvl : bool,
              (if without_gvl
               then waits_without_gvl (effects w2)
                    ≠ waits_without_gvl (effects w)
               else ¬ waits_without_gvl (effects w2)
                      ≠ waits_without_gvl (effects w))
              ∧ events_of (KQueue_answer kernel without_gvl) evs) as Hheld.
  { intros evs Hevs. exists false. split; [intros Hne; apply Hne; congruence|].
    by apply Hans. }
  destruct (_ && _); cbn [fst snd]; [|split_and!; [congruence|congruence|done]].
  destruct (make_timeout duration) as [timeout|e] eqn:Htimeout; cbn [fst snd];
    [|split_and!; [congruence|congruence|done]].
  destruct (negb (timeout_nonblocking timeout)); cbn [fst snd];
    [|split_and!; [congruence|congruence|done]].
  pose proof (KQueue_without_gvl_answer KQueue_select.KQUEUE_MAX_EVENTS timeout
                (KQueue_select.blocking_kevent kernel)
                (KQueue_select.pending_interrupt kernel) w2)
    as (Htr' & Hm' & Hans').
  split_and!; [congruence|congruence|].
  intros evs Hevs. exists true. split; [|by apply Hans'].
  rewrite KQueue_without_gvl_waits, Hwaits, Hf. by apply app_not_nil.
Qed.

(** C9.  The kqueue handler returns at once, changing nothing, when the
    accumulator of its record is zero.  Otherwise it takes the accumulated
    events and runs its loop from a world in which the accumulator is
    already zero; over a well-formed list it ends, having resumed waiters
    of the list that asked for one of the accumulated events, each with the
    accumulated events that it asked for (all such waiters, when no fiber
    unlinks another); the accumulator is zero when it returns, with those of
    the other records untouched, so that a second call for the same record
    changes nothing.  In [select] the first loop gathers into each record
    the events of all the kernel events that point to it; the second loop
    ends, and for each kernel event it calls the handler on the record the
    event points to: for the first event that points to a record this is a
    dispatch of all that was gathered for the record, over its list as it
    is then, and for every later event that points to the same record the
    accumulator is zero, nobody is resumed and the world is unchanged. *)
Theorem KQueue_handle_consumes_ready :
  (∀ fuel ident d w,
     descriptor_mask w d = 0 →
     IO_Event_Selector_KQueue_handle fuel ident d w = Some w)
  ∧ (∀ fuel ident d w,
       descriptor_mask w d ≠ 0 →
       IO_Event_Selector_KQueue_handle fuel ident d w
       = option_map snd
           (handle_waiters fuel KQueue (Slot d) (tail (memory w (Slot d)))
              (descriptor_mask w d) 0
              (with_memory (declare Saved) (with_descriptor_mask d 0 w))))
  ∧ (∀ fuel ident d w l,
       settled w d l → (length l < fuel)%nat →
       ∃ w' resumed_ left,
         IO_Event_Selector_KQueue_handle fuel ident d w = Some w'
         ∧ dispatched (descriptor_mask w d) d l w w' resumed_ left)
  ∧ (∀ fuel ident d w w',
       IO_Event_Selector_KQueue_handle fuel ident d w = Some w' →
       descriptor_mask w' d = 0
       ∧ (∀ e, e ≠ d → descriptor_mask w' e = descriptor_mask w e)
       ∧ ∀ fuel' ident', IO_Event_Selector_KQueue_handle fuel' ident' d w' = Some w')
  ∧ (∀ events_ w d,
       descriptor_mask (KQueue_select.accumulate events_ w) d
       = accumulated d events_ (descriptor_mask w d))
  ∧ (∀ fuel d events_ w,
       descriptor_mask w d = 0 →
       KQueue_select.dispatch fuel events_ w
       = KQueue_select.dispatch fuel
           (filter (λ event, KQueue_select.udata event ≠ Some d) events_) w)
  ∧ (∀ events_ w,
       well_formed w →
       ∃ fuel0 w',
         ∀ fuel, (fuel0 ≤ fuel)%nat →
           KQueue_select.dispatch fuel events_
             (KQueue_select.accumulate events_ w) = Some w')
  ∧ (∀ fuel events_ w w' pre event post d,
       well_formed w →
       KQueue_select.dispatch fuel events_ (KQueue_select.accumulate events_ w)
       = Some w' →
       events_ = pre ++ event :: post →
       KQueue_select.udata event = Some d →
       ∃ w_at w_next l resumed_ left,
         KQueue_select.dispatch fuel pre (KQueue_select.accumulate events_ w)
         = Some w_at
         ∧ IO_Event_Selector_KQueue_handle fuel (KQueue_select.ident event) d
             w_at = Some w_next
         ∧ KQueue_select.dispatch fuel post w_next = Some w'
         ∧ settled w_at d l
         ∧ dispatched (descriptor_mask w_at d) d l w_at w_next resumed_ left
         ∧ (Some d ∉ map KQueue_select.udata pre →
            descriptor_mask w_at d
            = accumulated d events_ (descriptor_mask w d))
         ∧ (Some d ∈ map KQueue_select.udata pre →
            descriptor_mask w_at d = 0 ∧ resumed_ = [] ∧ w_next = w_at)).
Proof.
  split_and!.
  - apply KQueue_handle_idle.
  - intros fuel ident d w Hnz. unfold IO_Event_Selector_KQueue_handle.
    apply Z.eqb_neq in Hnz. rewrite Hnz. simpl.
    by destruct (handle_waiters _ _ _ _ _ _ _) as [[]|].
  - intros fuel ident d w l Hs Hlen.
    destruct (KQueue_handle_dispatch fuel ident d w l)
      as (w' & res & left & Hrun & Hsub & Htr & Hs' & Hq); [done..|].
    exists w', res, left. split; [done|]. by apply dispatched_intro.
  - intros fuel ident d w w' Hrun.
    destruct (KQueue_handle_mask _ _ _ _ _ Hrun) as [Hz Hother].
    split_and!; [done..|]. intros. by apply KQueue_handle_idle.
  - intros. apply accumulate_mask.
  - intros. by apply KQueue_dispatch_skips.
  - intros events_ w Hw.
    destruct (KQueue_dispatch_total events_ (KQueue_select.accumulate events_ w))
      as (fuel0 & w' & _ & Hall).
    { eapply well_formed_memory; [apply KQueue_accumulate_memory|done]. }
    by exists fuel0, w'.
  - intros fuel events_ w w' pre event post d Hw Hrun Hsplit Hu.
    assert (well_formed (KQueue_select.accumulate events_ w)) as Hw0
      by (eapply well_formed_memory; [apply KQueue_accumulate_memory|done]).
    rewrite Hsplit in Hrun at 1.
    destruct (KQueue_dispatch_each _ _ _ _ _ _ _ Hw0 Hrun Hu)
      as (w_at & w_next & Hpre & Hw_at & Hnext & Hpost & Hout & Hin).
    destruct (well_formed_settled w_at d Hw_at) as (l & Hs).
    destruct (KQueue_handle_dispatched _ _ _ _ _ _ Hs Hnext)
      as (res & left & Hdone).
    exists w_at, w_next, l, res, left. split_and!; try done.
    + intros Hd. by rewrite (Hout Hd), accumulate_mask.
    + intros Hd. pose proof (Hin Hd) as Hz. split; [done|]. split.
      * destruct Hdone as (_ & Hsub & _). rewrite Hz, wants_zero in Hsub.
        by apply sublist_nil_r in Hsub.
      * rewrite KQueue_handle_idle in Hnext by done. congruence.
Qed.

(** On epoll no waiter is woken for nothing.  When [select] returns from
    a world whose lists are well formed, the events it dispatched are those
    of the answer of the kernel to the last wait that this call made (the
    wait without the lock if it was made, the one with the lock held
    otherwise; none if that wait was interrupted), and every transfer that
    its loop over these events made resumes a waiter that was linked on the
    list of the descriptor of one of the events when the handler was called
    for that event, had asked for one of the events reported for it, and is
    given those of the events reported that it had asked for.  When
    [select] raises, it does so before that loop. *)
Theorem EPoll_select_resumes_for_reported_events fuel duration kernel w :
  well_formed w →
  (∀ v w',
     EPoll_select.IO_Event_Selector_EPoll_select fuel duration kernel w
     = Some (Return v, w') →
     ∃ events_ w1 (without_gvl : bool),
       EPoll_select.select_waits duration kernel w = (Return events_, w1)
       ∧ v = INT2NUM (Z.of_nat (length events_))
       ∧ (if without_gvl then blocked_in_kernel w w1
          else ¬ blocked_in_kernel w w1)
       ∧ events_of (EPoll_answer kernel without_gvl) events_
       ∧ EPoll_select.dispatch fuel events_ w1 = Some w'
       ∧ ∃ ts,
           transfers (effects w') = transfers (effects w1) ++ ts
           ∧ Forall (EPoll_resumes fuel w1 events_) ts)
  ∧ (∀ e w',
       EPoll_select.IO_Event_Selector_EPoll_select fuel duration kernel w
       = Some (Raise e, w') →
       EPoll_select.select_waits duration kernel w = (Raise e, w')).
Proof.
  intros Hw.
  pose proof (EPoll_select_waits_answer duration kernel w) as Hwaits.
  pose proof (EPoll_select_waits_memory duration kernel w) as Hm.
  pose proof (flush_well_formed EPoll w Hw) as Hflush.
  cbv zeta in Hwaits. unfold EPoll_select.IO_Event_Selector_EPoll_select.
  destruct (EPoll_select.select_waits duration kernel w) as [[events_|e] w1];
    cbn [fst snd] in Hwaits, Hm; destruct Hwaits as [Htr Hans].
  - split; [|by destruct (EPoll_select.dispatch fuel events_ w1)].
    intros v w' Hrun.
    destruct (EPoll_select.dispatch fuel events_ w1) as [w2|] eqn:Hd; [|done].
    injection Hrun as <- <-.
    destruct (Hans events_ eq_refl) as (without_gvl & Hmade & Hevents).
    destruct (EPoll_dispatch_resumes fuel events_ w1 w2) as (ts & Hts & Hf);
      [by eapply well_formed_memory|done|].
    exists events_, w1, without_gvl. split_and!; [done..|].
    by exists ts.
  - split; [done|]. by intros e' w' [= <- <-].
Qed.

(** On kqueue no waiter is woken for nothing, and nothing is left over.
    When [select] returns from a world whose lists are well formed, the
    events it dispatched are those of the answer of the kernel to the last
    wait that this call made; the accumulator of every record that one of
    them points to is zero afterwards, and those of the other records are
    as before the call.  Every transfer that its second loop made resumes a
    waiter that was linked on the list of a record when the handler was
    called for the first event that points to that record, had asked for
    one of the events gathered for the record from the filters reported
    (and from what its accumulator held before), and is given those of
    these events that it had asked for.  When [select] raises, it does so
    before its loops and has changed no accumulator.  So accumulators that
    are all zero before [select] are all zero after it. *)
Theorem KQueue_select_resumes_for_reported_events fuel duration kernel w :
  well_formed w →
  (∀ v w',
     KQueue_select.IO_Event_Selector_KQueue_select fuel duration kernel w
     = Some (Return v, w') →
     ∃ events_ w1 (without_gvl : bool),
       KQueue_select.select_waits duration kernel w = (Return events_, w1)
       ∧ v = INT2NUM (Z.of_nat (length events_))
       ∧ (if without_gvl then blocked_in_kernel w w1
          else ¬ blocked_in_kernel w w1)
       ∧ events_of (KQueue_answer kernel without_gvl) events_
       ∧ KQueue_select.dispatch fuel events_
           (KQueue_select.accumulate events_ w1) = Some w'
       ∧ (∀ d, descriptor_mask (KQueue_select.accumulate events_ w1) d
               = accumulated d events_ (descriptor_mask w d))
       ∧ (∀ d, descriptor_mask w' d
               = if decide (Some d ∈ map KQueue_select.udata events_) then 0
                 else descriptor_mask w d)
       ∧ ∃ ts,
           transfers (effects w') = transfers (effects w1) ++ ts
           ∧ Forall (KQueue_resumes fuel (KQueue_select.accumulate events_ w1)
                       events_) ts)
  ∧ (∀ e w',
       KQueue_select.IO_Event_Selector_KQueue_select fuel duration kernel w
       = Some (Raise e, w') →
       KQueue_select.select_waits duration kernel w = (Raise e, w')
       ∧ descriptor_mask w' = descriptor_mask w)
  ∧ ((∀ d, descriptor_mask w d = 0) →
     ∀ r w',
       KQueue_select.IO_Event_Selector_KQueue_select fuel duration kernel w
       = Some (r, w') →
       ∀ d, descriptor_mask w' d = 0).
Proof.
  intros Hw.
  pose proof (KQueue_select_waits_answer duration kernel w) as Hwaits.
  pose proof (KQueue_select_waits_memory duration kernel w) as Hm.
  pose proof (flush_well_formed KQueue w Hw) as Hflush.
  cbv zeta in Hwaits.
  assert (∀ v w',
            KQueue_select.IO_Event_Selector_KQueue_select fuel duration kernel w
            = Some (Return v, w') →
            ∃ events_ w1 (without_gvl : bool),
              KQueue_select.select_waits duration kernel w = (Return events_, w1)
              ∧ v = INT2NUM (Z.of_nat (length events_))
              ∧ (if without_gvl then blocked_in_kernel w w1
                 else ¬ blocked_in_kernel w w1)
              ∧ events_of (KQueue_answer kernel without_gvl) events_
              ∧ KQueue_select.dispatch fuel events_
                  (KQueue_select.accumulate events_ w1) = Some w'
              ∧ (∀ d, descriptor_mask (KQueue_select.accumulate events_ w1) d
                      = accumulated d events_ (descriptor_mask w d))
              ∧ (∀ d, descriptor_mask w' d
                      = if decide (Some d ∈ map KQueue_select.udata events_)
                        then 0 else descriptor_mask w d)
              ∧ ∃ ts,
                  transfers (effects w') = transfers (effects w1) ++ ts
                  ∧ Forall (KQueue_resumes fuel
                              (KQueue_select.accumulate events_ w1) events_) ts)
    as Hreturns.
  { unfold KQueue_select.IO_Event_Selector_KQueue_select.
    destruct (KQueue_select.select_waits duration kernel w) as [[events_|e] w1];
      cbn [fst snd] in Hwaits, Hm; destruct Hwaits as (Htr & Hmask & Hans);
      [|done].
    intros v w' Hrun.
    destruct (KQueue_select.dispatch fuel events_ _) as [w2|] eqn:Hd; [|done].
    injection Hrun as <- <-.
    destruct (Hans events_ eq_refl) as (without_gvl & Hmade & Hevents).
    assert (well_formed (KQueue_select.accumulate events_ w1)) as Hw0.
    { eapply well_formed_memory; [|exact Hflush].
      by rewrite KQueue_accumulate_memory. }
    destruct (KQueue_dispatch_resumes fuel events_ _ w2 Hw0 Hd)
      as (ts & Hts & Hf).
    assert (∀ d, descriptor_mask (KQueue_select.accumulate events_ w1) d
                 = accumulated d events_ (descriptor_mask w d)) as Hacc.
    { intros d. by rewrite accumulate_mask, Hmask. }
    exists events_, w1, without_gvl. split_and!; [done..| |].
    - intros d. rewrite (KQueue_dispatch_masks _ _ _ _ d Hd).
      destruct (decide _) as [Hin|Hout]; [done|].
      rewrite Hacc. by apply accumulated_elsewhere.
    - exists ts. by rewrite Hts, KQueue_accumulate_effects. }
  assert (∀ e w',
            KQueue_select.IO_Event_Selector_KQueue_select fuel duration kernel w
            = Some (Raise e, w') →
            KQueue_select.select_waits duration kernel w = (Raise e, w')
            ∧ descriptor_mask w' = descriptor_mask w) as Hraises.
  { unfold KQueue_select.IO_Event_Selector_KQueue_select.
    destruct (KQueue_select.select_waits duration kernel w) as [[events_|e] w1];
      cbn [fst snd] in Hwaits; destruct Hwaits as (Htr & Hmask & _).
    - by destruct (KQueue_select.dispatch fuel events_ _).
    - by intros e' w' [= <- <-]. }
  split_and!; [done..|].
  intros Hzero [v|e] w' Hrun d.
  - destruct (Hreturns v w' Hrun)
      as (events_ & w1 & b & _ & _ & _ & _ & _ & _ & Hmasks & _).
    rewrite Hmasks, Hzero. by destruct (decide _).
  - destruct (Hraises e w' Hrun) as [_ ->]. apply Hzero.
Qed.
End delivery.


(** * The methods as the host calls them *)

(** [rb_check_arity] raises [ArgumentError] for a count of arguments that
    is out of range. *)
Inductive Checked (A : Type) : Type :=
| ArgumentError
| Accepted (a : A).
Arguments ArgumentError {A}.
Arguments Accepted {A} a.

Definition SIZET2NUM (n : Z) : VALUE := Fixnum n.

(** [argv] is given by its first four entries, [fiber], [io], [buffer] and
    [_length], and by [argv4], its fifth, which is read only when [argc]
    is [5]. *)
Module Compatible.
Section with_platform.
Context `{Platform}.
Variables (attempts : list Attempt) (flags : Z) (frame : nat).

Definition IO_Event_Selector_EPoll_io_read_compatible (argc : Z)
    (fiber : VALUE) (io buffer : Z) (_length argv4 : VALUE) (w : World)
  : Checked (option (result io_result * World)) :=
  if (argc <? 4) || (5 <? argc) then ArgumentError
  else
    let _offset := SIZET2NUM 0 in
    let _offset := if argc =? 5 then argv4 else _offset in
    Accepted (EPoll_io.IO_Event_Selector_EPoll_io_read attempts flags frame
                fiber io buffer _length _offset w).

Definition IO_Event_Selector_EPoll_io_write_compatible (argc : Z)
    (fiber : VALUE) (io buffer : Z) (_length argv4 : VALUE) (w : World)
  : Checked (option (result io_result * World)) :=
  if (argc <? 4) || (5 <? argc) then ArgumentError
  else
    let _offset := SIZET2NUM 0 in
    let _offset := if argc =? 5 then argv4 else _offset in
    Accepted (EPoll_io.IO_Event_Selector_EPoll_io_write attempts flags frame
                fiber io buffer _length _offset w).

Definition IO_Event_Selector_KQueue_io_read_compatible (argc : Z)
    (fiber : VALUE) (io buffer : Z) (_length argv4 : VALUE) (w : World)
  : Checked (option (result io_result * World)) :=
  if (argc <? 4) || (5 <? argc) then ArgumentError
  else
    let _offset := SIZET2NUM 0 in
    let _offset := if argc =? 5 then argv4 else _offset in
    Accepted (KQueue_io.IO_Event_Selector_KQueue_io_read attempts flags frame
                fiber io buffer _length _offset w).

Definition IO_Event_Selector_KQueue_io_write_compatible (argc : Z)
    (fiber : VALUE) (io buffer : Z) (_length argv4 : VALUE) (w : World)
  : Checked (option (result io_result * World)) :=
  if (argc <? 4) || (5 <? argc) then ArgumentError
  else
    let _offset := SIZET2NUM 0 in
    let _offset := if argc =? 5 then argv4 else _offset in
    Accepted (KQueue_io.IO_Event_Selector_KQueue_io_write attempts flags frame
                fiber io buffer _length _offset w).
End with_platform.
End Compatible.

Section compatible.
Context `{Platform}.

(** The method that the host calls for a transfer. *)
Definition io_transfer_compatible (t : Transfer) (attempts : list Attempt)
    (flags : Z) (frame : nat)
  : Z → VALUE → Z → Z → VALUE → VALUE → World →
    Checked (option (result io_result * World)) :=
  match t with
  | EPoll_io_read =>
    Compatible.IO_Event_Selector_EPoll_io_read_compatible attempts flags frame
  | EPoll_io_write =>
    Compatible.IO_Event_Selector_EPoll_io_write_compatible attempts flags frame
  | KQueue_io_read =>
    Compatible.IO_Event_Selector_KQueue_io_read_compatible attempts flags frame
  | KQueue_io_write =>
    Compatible.IO_Event_Selector_KQueue_io_write_compatible attempts flags frame
  end.

(** The methods [io_read] and [io_write] take four or five arguments.
    With five, the offset is the fifth.  With four, the offset is [0]; then,
    when [read] and [write] move no more than they are asked to, a call
    that answers [(n, e)] made its calls one after the other from the start
    of the buffer, with [used] their answers, and if [n] is not [-1] then
    [e] is [0] and [n] is the bytes that these calls have moved, on epoll.c
    as on kqueue.c.  With fewer than four or more than five arguments the
    method raises [ArgumentError] and does nothing. *)
Theorem io_transfer_default_offset t attempts flags frame fiber io size length
    argv4 w :
  0 ≤ size < 2 ^ 63 → 0 ≤ length < 2 ^ 64 → kernel_obeys size attempts →
  (∀ n e w',
     io_transfer_compatible t attempts flags frame 4 fiber io size
       (Fixnum length) argv4 w
     = Accepted (Some (Return (rb_fiber_scheduler_io_result n e), w')) →
     ∃ used rest es,
       attempts = used ++ rest
       ∧ effects w'
         = effects w
           ++ Host_nonblock_set io :: es ++ [Host_nonblock_restore io flags]
       ∧ transfer_calls es = calls_of (transfer_call t) io size 0 used
       ∧ (n ≠ -1 → e = 0 ∧ n = moved_by used))
  ∧ io_transfer_compatible t attempts flags frame 4 fiber io size
      (Fixnum length) argv4 w
    = Accepted (io_transfer t attempts flags frame fiber io size (Fixnum length)
                  (Fixnum 0) w)
  ∧ io_transfer_compatible t attempts flags frame 5 fiber io size
      (Fixnum length) argv4 w
    = Accepted (io_transfer t attempts flags frame fiber io size (Fixnum length)
                  argv4 w)
  ∧ (∀ argc, argc < 4 ∨ 5 < argc →
       io_transfer_compatible t attempts flags frame argc fiber io size
         (Fixnum length) argv4 w = ArgumentError).
Proof.
  intros Hsize Hlen Hobey.
  assert (io_transfer_compatible t attempts flags frame 4 fiber io size
            (Fixnum length) argv4 w
          = Accepted (io_transfer t attempts flags frame fiber io size
                        (Fixnum length) (Fixnum 0) w)) as Hfour
    by (by destruct t).
  split_and!; [|exact Hfour|by destruct t|].
  - intros n e w' Hrun. rewrite Hfour in Hrun. injection Hrun as Hrun.
    rewrite io_transfer_io_loop in Hrun by lia.
    destruct (writes t && (size <? length)); [done|].
    destruct (io_loop _ _ _ _ _ _ _ _ _ _ _) as [[r w1]|] eqn:Hloop; [|done].
    injection Hrun as -> <-.
    destruct (io_loop_spec (transfer_loop t) frame fiber io io size attempts
                (transfer_loop_data t) ltac:(lia) length 0 0 _ _ _
                ltac:(lia) ltac:(lia) ltac:(by rewrite Z.sub_0_r) Hloop)
      as (used & rest & es & -> & He & Hcalls & Hend).
    exists used, rest, es. split; [done|]. split.
    { simpl. rewrite He. simpl. by rewrite <- !app_assoc. }
    split; [by rewrite Hcalls, transfer_loop_call|].
    intros Hn.
    destruct (Hend n e eq_refl)
      as [(-> & Hanswer & _)|(-> & _)]; [|done].
    split; [done|]. rewrite transfer_loop_answer in Hanswer.
    destruct t; simpl in Hanswer; lia.
  - intros argc Hargc.
    assert ((argc <? 4) || (5 <? argc) = true) as Hout.
    { apply orb_true_iff. destruct Hargc; [left|right]; by apply Z.ltb_lt. }
    destruct t; simpl;
      unfold Compatible.IO_Event_Selector_EPoll_io_read_compatible,
        Compatible.IO_Event_Selector_EPoll_io_write_compatible,
        Compatible.IO_Event_Selector_KQueue_io_read_compatible,
        Compatible.IO_Event_Selector_KQueue_io_write_compatible;
      by rewrite Hout.
Qed.
End compatible.


(** * The further properties on a concrete platform *)

Section more_examples.
#[local] Existing Instance example_platform.

(** A read of 3 bytes at offset 4 of a buffer of 10 bytes, answered at
    once. *)
Definition after_read : World :=
  emit (Host_nonblock_restore 3 2)
    (emit (Sys_read 3 4 6) (emit (Host_nonblock_set 3) (fresh []))).

Lemma after_read_run :
  io_transfer EPoll_io_read [transfers_bytes 3] 2 0 (Object 1) 3 10
    (Fixnum 3) (Fixnum 4) (fresh [])
  = Some (Return (rb_fiber_scheduler_io_result 7 0), after_read).
Proof. reflexivity. Qed.

Lemma io_transfer_answer_witness :
  (0 ≤ 4 ≤ 10 ∧ 10 < 2 ^ 63 ∧ 0 ≤ 3 < 2 ^ 64
   ∧ kernel_obeys (10 - 4) [transfers_bytes 3])
  ∧ ∃ used rest es,
      [transfers_bytes 3] = used ++ rest
      ∧ effects after_read
        = effects (fresh [])
          ++ Host_nonblock_set 3 :: es ++ [Host_nonblock_restore 3 2]
      ∧ transfer_calls es = calls_of (transfer_call EPoll_io_read) 3 10 4 used
      ∧ (7 ≠ -1 →
         0 = 0
         ∧ 7 = answer_base EPoll_io_read 4 + moved_by used
         ∧ (3 ≤ moved_by used
            ∨ (∃ a, last used = Some a ∧ attempt_result a = 0)
            ∨ (tests_room EPoll_io_read = true ∧ 4 + moved_by used = 10)))
      ∧ (7 = -1 →
         ∃ a, last used = Some a ∧ attempt_result a < 0 ∧ 0 = attempt_errno a
              ∧ (3 ≤ moved_by used ∨ IO_Event_try_again 0 = false)).
Proof.
  assert (0 ≤ 4 ≤ 10) as H1 by lia.
  assert (10 < 2 ^ 63) as H2 by lia.
  assert (0 ≤ 3 < 2 ^ 64) as H3 by lia.
  assert (kernel_obeys (10 - 4) [transfers_bytes 3]) as H4
    by (vm_compute; split; [discriminate|exact I]).
  split; [by split_and!|].
  exact (io_transfer_answer EPoll_io_read [transfers_bytes 3] 2 0 (Object 1) 3
           10 3 4 (fresh []) 7 0 after_read H1 H2 H3 H4 after_read_run).
Defined.

Lemma io_transfer_stays_in_buffer_witness :
  (0 ≤ 4 ≤ 10 ∧ 10 < 2 ^ 63 ∧ 0 ≤ 3 < 2 ^ 64
   ∧ kernel_obeys (10 - 4) [transfers_bytes 3])
  ∧ ∃ es, effects after_read = effects (fresh []) ++ es
          ∧ Forall (in_buffer 3 10 4) es.
Proof.
  assert (0 ≤ 4 ≤ 10) as H1 by lia.
  assert (10 < 2 ^ 63) as H2 by lia.
  assert (0 ≤ 3 < 2 ^ 64) as H3 by lia.
  assert (kernel_obeys (10 - 4) [transfers_bytes 3]) as H4
    by (vm_compute; split; [discriminate|exact I]).
  split; [by split_and!|].
  exact (io_transfer_stays_in_buffer EPoll_io_read [transfers_bytes 3] 2 0
           (Object 1) 3 10 3 4 (fresh []) _ after_read H1 H2 H3 H4
           after_read_run).
Defined.

(** A write of 12 bytes from a buffer of 8. *)
Definition after_long_write : World :=
  emit (Host_nonblock_restore 3 2) (emit (Host_nonblock_set 3) (fresh [])).

Lemma after_long_write_run :
  io_transfer KQueue_io_write [transfers_bytes 8] 2 0 (Object 1) 3 8
    (Fixnum 12) (Fixnum 0) (fresh [])
  = Some (Raise RuntimeError, after_long_write).
Proof. reflexivity. Qed.

Lemma io_transfer_restores_flags_witness :
  (0 ≤ 12 < 2 ^ 64 ∧ 0 ≤ 0 < 2 ^ 64)
  ∧ ∃ es,
      effects after_long_write
      = effects (fresh [])
        ++ Host_nonblock_set 3 :: es ++ [Host_nonblock_restore 3 2]
      ∧ Forall (λ e, ¬ sets_flags e) es.
Proof.
  assert (0 ≤ 12 < 2 ^ 64) as H1 by lia.
  assert (0 ≤ 0 < 2 ^ 64) as H2 by lia.
  split; [by split|].
  exact (io_transfer_restores_flags KQueue_io_write [transfers_bytes 8] 2 0
           (Object 1) 3 8 12 0 (fresh []) _ after_long_write H1 H2
           after_long_write_run).
Defined.

(** A read at offset 12 of a buffer of 10 bytes, at the end of the data. *)
Definition after_read_beyond : World :=
  emit (Host_nonblock_restore 3 2)
    (emit (Sys_read 3 12 (2 ^ 64 - 2)) (emit (Host_nonblock_set 3) (fresh []))).

Lemma after_read_beyond_run :
  io_transfer KQueue_io_read [transfers_bytes 0] 2 0 (Object 1) 3 10
    (Fixnum 3) (Fixnum 12) (fresh [])
  = Some (Return (rb_fiber_scheduler_io_result 0 0), after_read_beyond).
Proof. reflexivity. Qed.

Lemma io_transfer_offset_beyond_buffer_witness :
  (0 ≤ 10 < 12 ∧ 12 < 2 ^ 64 ∧ 0 ≤ 3 ≤ 10)
  ∧ ∃ es,
      effects after_read_beyond
      = effects (fresh [])
        ++ Host_nonblock_set 3
           :: transfer_call KQueue_io_read 3 12 (2 ^ 64 + 10 - 12) :: es.
Proof.
  assert (0 ≤ 10 < 12) as H1 by lia.
  assert (12 < 2 ^ 64) as H2 by lia.
  assert (0 ≤ 3 ≤ 10) as H3 by lia.
  split; [by split_and!|].
  exact (io_transfer_offset_beyond_buffer KQueue_io_read (transfers_bytes 0) []
           2 0 (Object 1) 3 10 3 12 (fresh []) _ after_read_beyond H1 H2 H3
           after_read_beyond_run).
Defined.

Lemma io_transfer_full_buffer_witness :
  (0 ≤ 10 < 2 ^ 63 ∧ 0 ≤ 3 ≤ 10)
  ∧ io_transfer KQueue_io_read [] 2 0 (Object 1) 3 10 (Fixnum 3) (Fixnum 10)
      (fresh [])
    = Some (Return (rb_fiber_scheduler_io_result 0 0),
            emit (Host_nonblock_restore 3 2)
              (emit (Host_nonblock_set 3) (fresh []))).
Proof.
  assert (0 ≤ 10 < 2 ^ 63) as H1 by lia.
  assert (0 ≤ 3 ≤ 10) as H2 by lia.
  split; [by split|].
  destruct (io_transfer_full_buffer (transfers_bytes 0) [] 2 0 (Object 1) 3 10 3
              (fresh []) H1 H2) as [Hkqueue _].
  exact (Hkqueue KQueue_io_read eq_refl).
Defined.

(** A [select] that finds nothing, with a duration of [0]. *)
Definition nothing_ready : EPoll_select.Kernel :=
  {| EPoll_select.nonblocking_pwait2 := polled [];
     EPoll_select.nonblocking_wait := polled [];
     EPoll_select.blocking_pwait2 := polled [];
     EPoll_select.blocking_wait := polled [];
     EPoll_select.pending_interrupt := None |}.

Definition after_select : World :=
  emit (Sys_epoll_pwait2 false (Some {| tv_sec := 0; tv_nsec := 0 |}))
    (emit Host_queue_flush (fresh [])).

Lemma after_select_run :
  EPoll_select.IO_Event_Selector_EPoll_select 1 (Fixnum 0) nothing_ready
    (fresh [])
  = Some (Return (INT2NUM 0), after_select).
Proof. reflexivity. Qed.





Lemma make_timeout_ms_rounds_down_witness :
  (0 ≤ 2 ∧ 0 ≤ 1500000 < 1000000000 ∧ 2 * 1000 + 1500000 / 1000000 < 2 ^ 31)
  ∧ let ms := EPoll_select.make_timeout_ms
                (Some {| tv_sec := 2; tv_nsec := 1500000 |}) in
    0 ≤ ms
    ∧ ms * 1000000 ≤ 2 * 1000000000 + 1500000 < (ms + 1) * 1000000.
Proof.
  assert (0 ≤ 2) as H1 by lia.
  assert (0 ≤ 1500000 < 1000000000) as H2 by lia.
  assert (2 * 1000 + 1500000 / 1000000 < 2 ^ 31) as H3
    by (vm_compute; reflexivity).
  split; [by split_and!|].
  exact (make_timeout_ms_rounds_down 2 1500000 H1 H2 H3).
Defined.

Lemma KQueue_io_wait_registers_then_links_witness :
  (0 ≤ 3 ∧ NUM2INT (Fixnum 1) = Some 1 ∧ settled (fresh []) 3 []
   ∧ head (memory (fresh []) (Wait 0)) = NULL)
  ∧ let r := KQueue.IO_Event_Selector_KQueue_io_wait 0 (Object 1) 3 (Fixnum 1)
               Success (fresh []) in
    effects (snd r)
    = effects (fresh []) ++ [Sys_kevent_register 3 (KQueue.arm_filters 1) Success]
    ∧ fst r = Suspended
    ∧ settled (snd r) 3 [Wait 0%nat].
Proof.
  assert (0 ≤ 3) as H1 by lia.
  assert (NUM2INT (Fixnum 1) = Some 1) as H2 by reflexivity.
  pose proof (settled_fresh [] 3) as H3.
  assert (head (memory (fresh []) (Wait 0)) = NULL) as H4 by reflexivity.
  pose proof (KQueue_io_wait_registers_then_links 0 (Object 1) 3 1 Success
                (fresh []) [] H1 H2 H3 H4) as Hthm.
  cbv zeta in Hthm. destruct Hthm as (He & _ & _ & Hok & _).
  destruct (Hok eq_refl) as (Hr & Hs & _).
  split; [by split_and!|]. cbv zeta. by split_and!.
Defined.

Lemma KQueue_process_wait_registers_then_links_witness :
  (settled (fresh []) 42 [] ∧ head (memory (fresh []) (Wait 1)) = NULL)
  ∧ let r := KQueue.IO_Event_Selector_KQueue_process_wait 1 (Object 1) 42
               Success (fresh []) in
    effects (snd r)
    = effects (fresh [])
      ++ [Sys_kevent_register 42 (KQueue.arm_filters IO_EVENT_EXIT) Success]
    ∧ fst r = Suspended
    ∧ settled (snd r) 42 [Wait 1%nat].
Proof.
  pose proof (settled_fresh [] 42) as H1.
  assert (head (memory (fresh []) (Wait 1)) = NULL) as H2 by reflexivity.
  pose proof (KQueue_process_wait_registers_then_links 1 (Object 1) 42 Success
                (fresh []) [] H1 H2) as Hthm.
  cbv zeta in Hthm. destruct Hthm as [_ Hpid].
  destruct Hpid as (He & _ & Hok & _); [lia|].
  destruct (Hok eq_refl) as (Hr & Hs & _).
  split; [by split|]. cbv zeta. by split_and!.
Defined.

Lemma EPoll_io_wait_after_process_wait_witness :
  (0 ≤ 5 ∧ NUM2INT (INT2NUM IO_EVENT_READABLE) = Some IO_EVENT_READABLE)
  ∧ let w1 := snd (EPoll.IO_Event_Selector_EPoll_process_wait 1 (Object 1) 42
                     (inl 5) Success (fresh [])) in
    let w2 := snd (EPoll.process_wait_resumed 42 5 (Wait 1)
                     (resumed_with (Fixnum 1)) (Object 7) w1) in
    let r := EPoll.IO_Event_Selector_EPoll_io_wait 2 (Object 2) 5
               (INT2NUM IO_EVENT_READABLE) Success w2 in
    last (effects w2) = Some (Sys_close 5)
    ∧ descriptor_mask w2 5 = IO_EVENT_READABLE
    ∧ fst r = Suspended
    ∧ effects (snd r) = effects w2.
Proof.
  assert (0 ≤ 5) as H1 by lia.
  assert (NUM2INT (INT2NUM IO_EVENT_READABLE) = Some IO_EVENT_READABLE) as H2
    by reflexivity.
  split; [by split|].
  exact (EPoll_io_wait_after_process_wait 1 2 (Object 1) (Object 2) 42 5
           (resumed_with (Fixnum 1)) (Object 7) Success (fresh []) H1 H2).
Defined.

Lemma KQueue_arm_filters_round_trip_witness :
  (bit_of IO_EVENT_READABLE 0 ∧ bit_of IO_EVENT_WRITABLE 2
   ∧ bit_of IO_EVENT_EXIT 5
   ∧ EVFILT_READ ≠ EVFILT_WRITE ∧ EVFILT_READ ≠ EVFILT_PROC
   ∧ EVFILT_WRITE ≠ EVFILT_PROC)
  ∧ events_of_filters (KQueue.arm_filters 7)
    = Z.land 7 (Z.lor (Z.lor IO_EVENT_READABLE IO_EVENT_WRITABLE) IO_EVENT_EXIT).
Proof.
  assert (bit_of IO_EVENT_READABLE 0) as H1 by (split; [lia|reflexivity]).
  assert (bit_of IO_EVENT_WRITABLE 2) as H2 by (split; [lia|reflexivity]).
  assert (bit_of IO_EVENT_EXIT 5) as H3 by (split; [lia|reflexivity]).
  assert (EVFILT_READ ≠ EVFILT_WRITE) as H4 by (vm_compute; discriminate).
  assert (EVFILT_READ ≠ EVFILT_PROC) as H5 by (vm_compute; discriminate).
  assert (EVFILT_WRITE ≠ EVFILT_PROC) as H6 by (vm_compute; discriminate).
  split; [by split_and!|].
  exact (KQueue_arm_filters_round_trip 0 2 5 7 H1 H2 H3 H4 H5 H6).
Defined.

Lemma EPoll_flags_round_trip_witness :
  (bit_of EPOLLIN 0 ∧ bit_of EPOLLPRI 1 ∧ bit_of EPOLLOUT 2
   ∧ bit_of EPOLLHUP 4 ∧ bit_of EPOLLERR 3 ∧ NoDup [0; 1; 2; 4; 3]
   ∧ bit_of IO_EVENT_READABLE 0 ∧ bit_of IO_EVENT_PRIORITY 1
   ∧ bit_of IO_EVENT_WRITABLE 2)
  ∧ EPoll.events_from_epoll_flags (EPoll.epoll_flags_from_events 4)
    = Z.lor (Z.land 4 (Z.lor (Z.lor IO_EVENT_READABLE IO_EVENT_PRIORITY)
                         IO_EVENT_WRITABLE))
            IO_EVENT_READABLE.
Proof.
  assert (bit_of EPOLLIN 0) as H1 by (split; [lia|reflexivity]).
  assert (bit_of EPOLLPRI 1) as H2 by (split; [lia|reflexivity]).
  assert (bit_of EPOLLOUT 2) as H3 by (split; [lia|reflexivity]).
  assert (bit_of EPOLLHUP 4) as H4 by (split; [lia|reflexivity]).
  assert (bit_of EPOLLERR 3) as H5 by (split; [lia|reflexivity]).
  assert (NoDup [0; 1; 2; 4; 3]) as H6
    by (apply (bool_decide_unpack _); vm_compute; exact I).
  assert (bit_of IO_EVENT_READABLE 0) as H7 by (split; [lia|reflexivity]).
  assert (bit_of IO_EVENT_PRIORITY 1) as H8 by (split; [lia|reflexivity]).
  assert (bit_of IO_EVENT_WRITABLE 2) as H9 by (split; [lia|reflexivity]).
  split; [by split_and!|].
  exact (EPoll_flags_round_trip 0 1 2 4 3 0 1 2 4 H1 H2 H3 H4 H5 H6 H7 H8 H9).
Defined.

Lemma reachable_well_formed_witness :
  (well_formed (fresh [])
   ∧ (rtc EPoll_step (fresh []) three_waiters
      ∨ rtc KQueue_step (fresh []) three_waiters))
  ∧ well_formed three_waiters.
Proof.
  pose proof (fresh_well_formed []) as H1.
  assert (rtc EPoll_step (fresh []) three_waiters) as H2.
  { eapply rtc_l;
      [exact (step_fiber (fresh [])
                (call_io_wait 1 (Object 1) 3 (INT2NUM IO_EVENT_READABLE) Success))|].
    eapply rtc_l;
      [exact (step_fiber one_reader
                (call_io_wait 2 (Object 2) 3 (INT2NUM IO_EVENT_WRITABLE) Success))|].
    apply rtc_once.
    exact (step_fiber two_waiters
             (call_io_wait 3 (Object 3) 3
                (INT2NUM (Z.lor IO_EVENT_READABLE IO_EVENT_WRITABLE)) Success)). }
  split; [split; [exact H1|by left]|].
  exact (reachable_well_formed (fresh []) three_waiters H1 (or_introl H2)).
Defined.

Definition interrupted : EPoll_select.Kernel :=
  {| EPoll_select.nonblocking_pwait2 := poll_failed EINTR;
     EPoll_select.nonblocking_wait := poll_failed EINTR;
     EPoll_select.blocking_pwait2 := poll_failed EINTR;
     EPoll_select.blocking_wait := poll_failed EINTR;
     EPoll_select.pending_interrupt := None |}.


Lemma EPoll_mask_never_decreases_witness :
  (rtc EPoll_step one_reader three_waiters ∧ descriptor_mask one_reader 3 ≠ 0)
  ∧ descriptor_mask three_waiters 3 ≠ 0.
Proof.
  assert (rtc EPoll_step one_reader three_waiters) as H1.
  { eapply rtc_l;
      [exact (step_fiber one_reader
                (call_io_wait 2 (Object 2) 3 (INT2NUM IO_EVENT_WRITABLE) Success))|].
    apply rtc_once.
    exact (step_fiber two_waiters
             (call_io_wait 3 (Object 3) 3
                (INT2NUM (Z.lor IO_EVENT_READABLE IO_EVENT_WRITABLE)) Success)). }
  assert (descriptor_mask one_reader 3 ≠ 0) as H2 by (vm_compute; discriminate).
  destruct EPoll_mask_never_decreases as (_ & Hstays & _).
  split; [by split|]. exact (Hstays one_reader three_waiters 3 H1 H2).
Defined.

Lemma select_absorbs_EINTR_witness :
  (EPoll_select.nonblocking_pwait2 interrupted = poll_failed EINTR
   ∧ EPoll_select.nonblocking_wait interrupted = poll_failed EINTR)
  ∧ ∃ w', EPoll_select.IO_Event_Selector_EPoll_select 1 (Fixnum 0) interrupted
            (fresh []) = Some (Return (INT2NUM 0), w').
Proof.
  assert (EPoll_select.nonblocking_pwait2 interrupted = poll_failed EINTR) as H1
    by reflexivity.
  assert (EPoll_select.nonblocking_wait interrupted = poll_failed EINTR) as H2
    by reflexivity.
  destruct (select_absorbs_EINTR 1 (Fixnum 0) (fresh [])) as (_ & _ & Hzero & _).
  split; [by split|]. exact (Hzero interrupted H1 H2).
Defined.

(** The kernel reports that descriptor 3 is writable. *)
Definition writable_3 : EPoll_select.Kernel :=
  {| EPoll_select.nonblocking_pwait2 :=
       polled [{| events := EPOLLOUT; data_fd := 3 |}];
     EPoll_select.nonblocking_wait := polled [];
     EPoll_select.blocking_pwait2 := polled [];
     EPoll_select.blocking_wait := polled [];
     EPoll_select.pending_interrupt := None |}.

(** A kqueue selector with one waiter for [IO_EVENT_READABLE] on
    descriptor 3, and a kernel that reports the descriptor readable. *)
Definition kqueue_reader : World :=
  snd (KQueue.IO_Event_Selector_KQueue_io_wait 1 (Object 1) 3
         (INT2NUM IO_EVENT_READABLE) Success (fresh [])).

Definition readable_3 : KQueue_select.Kernel :=
  {| KQueue_select.nonblocking_kevent :=
       polled [{| KQueue_select.ident := 3;
                  KQueue_select.filter := EVFILT_READ;
                  KQueue_select.udata := Some 3 |}];
     KQueue_select.blocking_kevent := polled [];
     KQueue_select.pending_interrupt := None |}.

Lemma kqueue_reader_settled : settled kqueue_reader 3 [Wait 1%nat].
Proof. by apply (settled_link (fresh []) _ 3 [] 1%nat (settled_fresh [] 3)). Qed.

(** Three waiters on descriptor 3, and fibers that act when they are
    resumed: the first to run enters a new wait on the descriptor, the
    second raises into the oldest waiter. *)
Definition busy_waiters : World :=
  with_tasks
    [[call_io_wait 4 (Object 4) 3 (INT2NUM IO_EVENT_WRITABLE) Success];
     [leave_wait 1 (raised_into RuntimeError) Qnil]]
    three_waiters.

Lemma select_returns_witness :
  well_formed busy_waiters
  ∧ (∃ fuel0 r w',
       well_formed w'
       ∧ ∀ fuel, (fuel0 ≤ fuel)%nat →
                 EPoll_select.IO_Event_Selector_EPoll_select fuel (Fixnum 0)
                   writable_3 busy_waiters = Some (r, w'))
  ∧ option_map (λ x, (fst x, transfers (effects (snd x))))
      (EPoll_select.IO_Event_Selector_EPoll_select 3 (Fixnum 0) writable_3
         busy_waiters)
    = Some (Return (Fixnum 1),
            [Host_fiber_transfer (Object 3) [Fixnum 4];
             Host_fiber_transfer (Object 2) [Fixnum 4]]).
Proof.
  assert (well_formed busy_waiters) as H1.
  { apply (well_formed_memory three_waiters); [done|].
    exact (settled_well_formed _ _ _ three_waiters_settled). }
  destruct (select_returns (Fixnum 0) busy_waiters H1) as [Hepoll _].
  split; [exact H1|]. split; [exact (Hepoll writable_3)|].
  vm_compute. reflexivity.
Defined.

(** A read of 3 bytes into a buffer of 10 bytes, called with four
    arguments. *)
Definition after_read_of_four : World :=
  emit (Host_nonblock_restore 3 2)
    (emit (Sys_read 3 0 10) (emit (Host_nonblock_set 3) (fresh []))).

Lemma after_read_of_four_run :
  io_transfer_compatible EPoll_io_read [transfers_bytes 3] 2 0 4 (Object 1) 3
    10 (Fixnum 3) Qnil (fresh [])
  = Accepted (Some (Return (rb_fiber_scheduler_io_result 3 0),
                    after_read_of_four)).
Proof. reflexivity. Qed.

Lemma io_transfer_default_offset_witness :
  (0 ≤ 10 < 2 ^ 63 ∧ 0 ≤ 3 < 2 ^ 64 ∧ kernel_obeys 10 [transfers_bytes 3])
  ∧ ∃ used rest es,
      [transfers_bytes 3] = used ++ rest
      ∧ effects after_read_of_four
        = effects (fresh [])
          ++ Host_nonblock_set 3 :: es ++ [Host_nonblock_restore 3 2]
      ∧ transfer_calls es = calls_of (transfer_call EPoll_io_read) 3 10 0 used
      ∧ (3 ≠ -1 → 0 = 0 ∧ 3 = moved_by used).
Proof.
  assert (0 ≤ 10 < 2 ^ 63) as H1 by lia.
  assert (0 ≤ 3 < 2 ^ 64) as H2 by lia.
  assert (kernel_obeys 10 [transfers_bytes 3]) as H3
    by (vm_compute; split; [discriminate|exact I]).
  destruct (io_transfer_default_offset EPoll_io_read [transfers_bytes 3] 2 0
              (Object 1) 3 10 3 Qnil (fresh []) H1 H2 H3) as [Hfour _].
  split; [by split_and!|].
  exact (Hfour 3 0 after_read_of_four after_read_of_four_run).
Defined.
(** Two kqueue waiters on descriptor 3, one for [IO_EVENT_READABLE] and one
    for [IO_EVENT_WRITABLE], and a kernel that reports the descriptor
    readable and writable, in two events that point to the one record. *)
Definition kqueue_pair : World :=
  snd (KQueue.IO_Event_Selector_KQueue_io_wait 2 (Object 2) 3
         (INT2NUM IO_EVENT_WRITABLE) Success kqueue_reader).

Lemma kqueue_pair_settled : settled kqueue_pair 3 [Wait 2%nat; Wait 1%nat].
Proof.
  apply (settled_link kqueue_reader _ 3 _ 2%nat); [|done..].
  exact kqueue_reader_settled.
Qed.

Definition readable_event : KQueue_select.kevent :=
  {| KQueue_select.ident := 3; KQueue_select.filter := EVFILT_READ;
     KQueue_select.udata := Some 3 |}.

Definition writable_event : KQueue_select.kevent :=
  {| KQueue_select.ident := 3; KQueue_select.filter := EVFILT_WRITE;
     KQueue_select.udata := Some 3 |}.

Definition both_3 : KQueue_select.Kernel :=
  {| KQueue_select.nonblocking_kevent :=
       polled [readable_event; writable_event];
     KQueue_select.blocking_kevent := polled [];
     KQueue_select.pending_interrupt := None |}.

Definition gathered : World :=
  KQueue_select.accumulate [readable_event; writable_event] kqueue_pair.

Lemma KQueue_handle_consumes_ready_witness :
  (well_formed kqueue_pair
   ∧ is_Some (KQueue_select.dispatch 3 [readable_event; writable_event]
                gathered))
  ∧ option_map (λ w, transfers (effects w))
      (KQueue_select.dispatch 3 [readable_event; writable_event] gathered)
    = Some [Host_fiber_transfer (Object 2) [Fixnum 4];
            Host_fiber_transfer (Object 1) [Fixnum 1]]
  ∧ (∃ w_next l resumed_ left,
       IO_Event_Selector_KQueue_handle 3 3 3 gathered = Some w_next
       ∧ settled gathered 3 l
       ∧ descriptor_mask gathered 3
         = accumulated 3 [readable_event; writable_event]
             (descriptor_mask kqueue_pair 3)
       ∧ dispatched (descriptor_mask gathered 3) 3 l gathered w_next resumed_
           left)
  ∧ ∃ w_at,
      KQueue_select.dispatch 3 [readable_event] gathered = Some w_at
      ∧ descriptor_mask w_at 3 = 0
      ∧ IO_Event_Selector_KQueue_handle 3 3 3 w_at = Some w_at
      ∧ KQueue_select.dispatch 3 [readable_event; writable_event] gathered
        = Some w_at.
Proof.
  pose proof (settled_well_formed _ _ _ kqueue_pair_settled) as H1.
  assert (is_Some (KQueue_select.dispatch 3 [readable_event; writable_event]
                     gathered)) as Hsome
    by (apply (bool_decide_unpack _); vm_compute; exact I).
  split; [by split|]. split; [vm_compute; reflexivity|].
  destruct (KQueue_select.dispatch 3 [readable_event; writable_event] gathered)
    as [w'|] eqn:Hrun; [|by destruct Hsome].
  destruct KQueue_handle_consumes_ready as (_ & _ & _ & _ & _ & _ & _ & Heach).
  split.
  - destruct (Heach 3%nat [readable_event; writable_event] kqueue_pair w' []
                readable_event [writable_event] 3 H1 Hrun eq_refl eq_refl)
      as (w_at & w_next & l & res & left & Hpre & Hnext & _ & Hs & Hdone
          & Hfirst & _).
    injection Hpre as <-. exists w_next, l, res, left.
    split_and!; [exact Hnext|exact Hs| |exact Hdone].
    apply Hfirst, not_elem_of_nil.
  - destruct (Heach 3%nat [readable_event; writable_event] kqueue_pair w'
                [readable_event] writable_event [] 3 H1 Hrun eq_refl eq_refl)
      as (w_at & w_next & l & res & left & Hpre & Hnext & Hpost & _ & _
          & _ & Hlater).
    destruct (Hlater (list_elem_of_here (Some 3) [])) as (Hz & _ & ->).
    injection Hpost as <-. by exists w_at.
Defined.

Definition after_writable_3 : World :=
  match EPoll_select.IO_Event_Selector_EPoll_select 3 (Fixnum 0) writable_3
          busy_waiters with
  | Some (_, w) => w
  | None => busy_waiters
  end.

Lemma EPoll_select_resumes_for_reported_events_witness :
  (well_formed busy_waiters
   ∧ option_map (λ x, (fst x, transfers (effects (snd x))))
       (EPoll_select.IO_Event_Selector_EPoll_select 3 (Fixnum 0) writable_3
          busy_waiters)
     = Some (Return (Fixnum 1),
             [Host_fiber_transfer (Object 3) [Fixnum 4];
              Host_fiber_transfer (Object 2) [Fixnum 4]]))
  ∧ ∃ events_ w1 (without_gvl : bool),
      EPoll_select.select_waits (Fixnum 0) writable_3 busy_waiters
      = (Return events_, w1)
      ∧ Fixnum 1 = INT2NUM (Z.of_nat (length events_))
      ∧ (if without_gvl then blocked_in_kernel busy_waiters w1
         else ¬ blocked_in_kernel busy_waiters w1)
      ∧ events_of (EPoll_answer writable_3 without_gvl) events_
      ∧ EPoll_select.dispatch 3 events_ w1 = Some after_writable_3
      ∧ ∃ ts,
          transfers (effects after_writable_3) = transfers (effects w1) ++ ts
          ∧ Forall (EPoll_resumes 3 w1 events_) ts.
Proof.
  assert (well_formed busy_waiters) as H1.
  { apply (well_formed_memory three_waiters); [done|].
    exact (settled_well_formed _ _ _ three_waiters_settled). }
  assert (option_map (λ x, (fst x, transfers (effects (snd x))))
            (EPoll_select.IO_Event_Selector_EPoll_select 3 (Fixnum 0) writable_3
               busy_waiters)
          = Some (Return (Fixnum 1),
                  [Host_fiber_transfer (Object 3) [Fixnum 4];
                   Host_fiber_transfer (Object 2) [Fixnum 4]])) as Hsome
    by (vm_compute; reflexivity).
  split; [by split|]. unfold after_writable_3.
  destruct (EPoll_select.IO_Event_Selector_EPoll_select 3 (Fixnum 0) writable_3
              busy_waiters) as [[r w']|] eqn:Hrun; [|discriminate Hsome].
  injection Hsome as Hr _. cbn [fst] in Hr. subst r.
  destruct (EPoll_select_resumes_for_reported_events 3 (Fixnum 0) writable_3
              busy_waiters H1) as [Hreturns _].
  exact (Hreturns _ _ Hrun).
Defined.

Definition after_both_3 : World :=
  match KQueue_select.IO_Event_Selector_KQueue_select 3 (Fixnum 0) both_3
          kqueue_pair with
  | Some (_, w) => w
  | None => kqueue_pair
  end.

Lemma KQueue_select_resumes_for_reported_events_witness :
  (well_formed kqueue_pair
   ∧ option_map (λ x, (fst x, transfers (effects (snd x))))
       (KQueue_select.IO_Event_Selector_KQueue_select 3 (Fixnum 0) both_3
          kqueue_pair)
     = Some (Return (Fixnum 2),
             [Host_fiber_transfer (Object 2) [Fixnum 4];
              Host_fiber_transfer (Object 1) [Fixnum 1]]))
  ∧ ∃ events_ w1 (without_gvl : bool),
      KQueue_select.select_waits (Fixnum 0) both_3 kqueue_pair
      = (Return events_, w1)
      ∧ Fixnum 2 = INT2NUM (Z.of_nat (length events_))
      ∧ (if without_gvl then blocked_in_kernel kqueue_pair w1
         else ¬ blocked_in_kernel kqueue_pair w1)
      ∧ events_of (KQueue_answer both_3 without_gvl) events_
      ∧ KQueue_select.dispatch 3 events_ (KQueue_select.accumulate events_ w1)
        = Some after_both_3
      ∧ (∀ d, descriptor_mask (KQueue_select.accumulate events_ w1) d
              = accumulated d events_ (descriptor_mask kqueue_pair d))
      ∧ (∀ d, descriptor_mask after_both_3 d
              = if decide (Some d ∈ map KQueue_select.udata events_) then 0
                else descriptor_mask kqueue_pair d)
      ∧ ∃ ts,
          transfers (effects after_both_3) = transfers (effects w1) ++ ts
          ∧ Forall (KQueue_resumes 3 (KQueue_select.accumulate events_ w1)
                      events_) ts.
Proof.
  pose proof (settled_well_formed _ _ _ kqueue_pair_settled) as H1.
  assert (option_map (λ x, (fst x, transfers (effects (snd x))))
            (KQueue_select.IO_Event_Selector_KQueue_select 3 (Fixnum 0) both_3
               kqueue_pair)
          = Some (Return (Fixnum 2),
                  [Host_fiber_transfer (Object 2) [Fixnum 4];
                   Host_fiber_transfer (Object 1) [Fixnum 1]])) as Hsome
    by (vm_compute; reflexivity).
  split; [by split|]. unfold after_both_3.
  destruct (KQueue_select.IO_Event_Selector_KQueue_select 3 (Fixnum 0) both_3
              kqueue_pair) as [[r w']|] eqn:Hrun; [|discriminate Hsome].
  injection Hsome as Hr _. cbn [fst] in Hr. subst r.
  destruct (KQueue_select_resumes_for_reported_events 3 (Fixnum 0) both_3
              kqueue_pair H1) as [Hreturns _].
  exact (Hreturns _ _ Hrun).
Defined.
End more_examples.
